(** * open-deep-research-ai: the web search fan-out and its sanitizer

    A shallow embedding of [src/deepresearch/webSearch.ts] (the Brave search
    call, the zod validation of its reply, the Firecrawl scrape fan-out and
    the markdown URL stripper) and of the [status] enum of the database
    migration, followed by the properties proved about them. *)

From Stdlib Require Import String Ascii.
From Stdlib Require Import List ZArith NArith Lia Bool.
Import ListNotations.

Set Implicit Arguments.
Set Warnings "-register-all".

(** ** JavaScript strings

    A JavaScript string is a sequence of UTF-16 code units.  The regular
    expressions of the source carry no [u] flag, so they too work on code
    units. *)

Definition char := N.
Definition str := list char.

Definition chr (a : ascii) : char := N_of_ascii a.

(** [lit] turns an ASCII literal of the source text into a JavaScript string. *)
Definition lit (s : string) : str := map chr (list_ascii_of_string s).

(** The double quote character, U+0022. *)
Definition dquote : char := 34%N.

(** ECMAScript [WhiteSpace] and [LineTerminator] code points: the class [\s]
    of a regular expression, and what [String.prototype.trim] removes. *)
Definition is_ws (c : char) : bool :=
  (existsb (N.eqb c)
     [9; 10; 11; 12; 13; 32; 160; 5760; 8232; 8233; 8239; 8287; 12288; 65279]
   || ((8192 <=? c) && (c <=? 8202)))%N.

(** ECMAScript [LineTerminator]: LF, CR, LS, PS.  These are the line breaks
    seen by [^] and [$] under the [m] flag. *)
Definition is_line_terminator (c : char) : bool :=
  existsb (N.eqb c) [10; 13; 8232; 8233]%N.

Fixpoint trimStart (s : str) : str :=
  match s with
  | c :: s' => if is_ws c then trimStart s' else s
  | [] => []
  end.

Definition trimEnd (s : str) : str := rev (trimStart (rev s)).

(** [String.prototype.trim]. *)
Definition trim (s : str) : str := trimEnd (trimStart s).

(** [String.prototype.substring(start, end)]: both indices are clamped to
    [0 .. length], and swapped when [start > end]. *)
Definition substring (s : str) (istart iend : Z) : str :=
  let len := Z.of_nat (length s) in
  let a := Z.min (Z.max istart 0) len in
  let b := Z.min (Z.max iend 0) len in
  let from := Z.min a b in
  let to := Z.max a b in
  firstn (Z.to_nat (to - from)) (skipn (Z.to_nat from) s).

(** ** Regular expressions

    The fragment of ECMAScript regular expressions that the source uses:
    character classes, concatenation, the greedy quantifiers [?] on a group
    and [*], [+] on a character class, capture groups, and the anchors [^]
    and [$] under the [m] flag.  Matching is by backtracking, written in
    continuation-passing style as in the ECMAScript specification. *)

Inductive atom : Type :=
| Ch (c : char)      (* one code unit *)
| WS.                (* \s *)

Inductive cls : Type :=
| Is (a : atom)            (* the atom itself *)
| Not (l : list atom).     (* [^...] *)

Inductive regex : Type :=
| Eps
| Cls (c : cls)
| Seq (r1 r2 : regex)
| Opt (r : regex)          (* r? , greedy *)
| Star (c : cls)           (* c* , greedy *)
| Group (i : nat) (r : regex)
| Bol                      (* ^ with the m flag *)
| Eol.                     (* $ with the m flag *)

(** [c+] *)
Definition Plus (c : cls) : regex := Seq (Cls c) (Star c).

(** A literal run of characters. *)
Fixpoint Lit (s : str) : regex :=
  match s with
  | [] => Eps
  | c :: s' => Seq (Cls (Is (Ch c))) (Lit s')
  end.

Definition Cat (rs : list regex) : regex := fold_right Seq Eps rs.

Definition atom_mem (a : atom) (x : char) : bool :=
  match a with
  | Ch c => N.eqb x c
  | WS => is_ws x
  end.

Definition cls_mem (c : cls) (x : char) : bool :=
  match c with
  | Is a => atom_mem a x
  | Not l => negb (existsb (fun a => atom_mem a x) l)
  end.

(** The matcher state: the code unit before the current position (none at
    the start of the input), the input still to be read, and the captures
    recorded so far. *)
Record mstate : Type := MState {
  prev : option char;
  rest : str;
  caps : list (nat * str)
}.

Definition cont := mstate -> option mstate.

(** Greedy [c*]: take one more character when possible and fall back to the
    continuation at the current position when the longer attempt fails. *)
Fixpoint exec_star (c : cls) (cs : list (nat * str)) (k : cont)
                   (p : option char) (s : str) : option mstate :=
  match s with
  | x :: xs =>
      if cls_mem c x then
        match exec_star c cs k (Some x) xs with
        | Some r => Some r
        | None => k (MState p s cs)
        end
      else k (MState p s cs)
  | [] => k (MState p s cs)
  end.

Definition at_line_start (p : option char) : bool :=
  match p with
  | None => true
  | Some c => is_line_terminator c
  end.

Definition at_line_end (s : str) : bool :=
  match s with
  | [] => true
  | c :: _ => is_line_terminator c
  end.

Fixpoint exec (r : regex) (st : mstate) (k : cont) : option mstate :=
  match r with
  | Eps => k st
  | Cls c =>
      match rest st with
      | x :: xs => if cls_mem c x then k (MState (Some x) xs (caps st)) else None
      | [] => None
      end
  | Seq r1 r2 => exec r1 st (fun st' => exec r2 st' k)
  | Opt r1 =>
      match exec r1 st k with
      | Some res => Some res
      | None => k st
      end
  | Star c => exec_star c (caps st) k (prev st) (rest st)
  | Group i r1 =>
      exec r1 st (fun st' =>
        let taken := firstn (length (rest st) - length (rest st')) (rest st) in
        k (MState (prev st') (rest st') ((i, taken) :: caps st')))
  | Bol => if at_line_start (prev st) then k st else None
  | Eol => if at_line_end (rest st) then k st else None
  end.

(** One match attempt at the current position. *)
Definition match_at (re : regex) (p : option char) (s : str) : option mstate :=
  exec re (MState p s []) Some.

(** Replacement templates: literal text and [$n] references. *)
Inductive repl_item : Type :=
| RText (s : str)
| RCap (i : nat).

Fixpoint capture (i : nat) (cs : list (nat * str)) : str :=
  match cs with
  | [] => []
  | (j, w) :: cs' => if Nat.eqb i j then w else capture i cs'
  end.

Definition expand (tpl : list repl_item) (cs : list (nat * str)) : str :=
  flat_map (fun it => match it with RText s => s | RCap i => capture i cs end) tpl.

(** [String.prototype.replace] with a global regular expression: scan from
    the left; at each position not covered by the previous match try the
    expression; on a match emit the expanded template and resume after the
    match (one code unit further when the match is empty); otherwise copy the
    code unit.  [skip] counts the code units of the current match that are
    still to be passed over. *)
Fixpoint replace_go (re : regex) (tpl : list repl_item) (skip : nat)
                    (p : option char) (s : str) : str :=
  match skip with
  | S n =>
      match s with
      | [] => []
      | c :: s' => replace_go re tpl n (Some c) s'
      end
  | O =>
      match match_at re p s with
      | Some st' =>
          expand tpl (caps st') ++
          match s with
          | [] => []
          | c :: s' =>
              match length s - length (rest st') with
              | O => c :: replace_go re tpl 0 (Some c) s'
              | S m => replace_go re tpl m (Some c) s'
              end
          end
      | None =>
          match s with
          | [] => []
          | c :: s' => c :: replace_go re tpl 0 (Some c) s'
          end
      end
  end.

Definition replace (re : regex) (tpl : list repl_item) (s : str) : str :=
  replace_go re tpl 0 None s.

(** ** The markdown stripper of webSearch.ts

    In the comments below the five expressions are quoted from the source
    with the double quote character written [Q] and a blank between a star
    and a closing parenthesis; the blank is not part of the expression. *)

(** [https?:\/\/] *)
Definition scheme : regex := Cat [Lit (lit "http"); Opt (Lit (lit "s")); Lit (lit "://")].

(** [(?:\s+Q[^Q]*Q)?] *)
Definition title_opt : regex :=
  Opt (Cat [Plus (Is WS); Cls (Is (Ch dquote)); Star (Not [Ch dquote]); Cls (Is (Ch dquote))]).

(** [/!\[([^\]]* )\]\((https?:\/\/[^\s)]+)(?:\s+Q[^Q]*Q)?\)/g] *)
Definition re_image : regex :=
  Cat [Lit (lit "!["); Group 1 (Star (Not [Ch (chr "]")])); Lit (lit "](");
       Group 2 (Cat [scheme; Plus (Not [WS; Ch (chr ")")])]);
       title_opt; Lit (lit ")")].

(** [/\[([^\]]* )\]\((https?:\/\/[^\s)]+)(?:\s+Q[^Q]*Q)?\)/g] *)
Definition re_link : regex :=
  Cat [Lit (lit "["); Group 1 (Star (Not [Ch (chr "]")])); Lit (lit "](");
       Group 2 (Cat [scheme; Plus (Not [WS; Ch (chr ")")])]);
       title_opt; Lit (lit ")")].

(** [/^\[[^\]]+\]:\s*https?:\/\/[^\s]+(?:\s+Q[^Q]*Q)?$/gm] *)
Definition re_refdef : regex :=
  Cat [Bol; Lit (lit "["); Plus (Not [Ch (chr "]")]); Lit (lit "]:");
       Star (Is WS); scheme; Plus (Not [WS]); title_opt; Eol].

(** [/<(https?:\/\/[^>]+)>/g] *)
Definition re_angle : regex :=
  Cat [Lit (lit "<"); Group 1 (Cat [scheme; Plus (Not [Ch (chr ">")])]); Lit (lit ">")].

(** [/https?:\/\/[^\s]+/g] *)
Definition re_bare : regex := Cat [scheme; Plus (Not [WS])].

Definition stripUrlsFromMarkdown (markdown : str) : str :=
  let result := markdown in
  let result := replace re_image [RCap 1] result in
  let result := replace re_link [RCap 1] result in
  let result := replace re_refdef [] result in
  let result := replace re_angle [] result in
  let result := replace re_bare [] result in
  trim result.

(** The sanitizing expression of [scrapeSearchResult] (line 89):
    [stripUrlsFromMarkdown(rawText).substring(0, 80_000)]. *)
Definition sanitize (rawText : str) : str :=
  substring (stripUrlsFromMarkdown rawText) 0 80000.

(** ** JavaScript values and the zod schemas

    [res.json()] yields a JavaScript value.  Property keys are identifiers of
    the source and are kept as Rocq strings; string values are JavaScript
    strings.  The schemas never look inside a number, so an integer payload
    stands for it. *)

Inductive value : Type :=
| VUndefined
| VNull
| VBool (b : bool)
| VNum (n : Z)
| VStr (s : str)
| VArr (l : list value)
| VObj (fields : list (string * value)).

(** What can be thrown inside [searchOnWeb]. *)
Inductive exn : Type :=
| URIError         (* [encodeURIComponent] threw *)
| FetchFailed      (* [fetch] or [res.json()] rejected *)
| ZodError         (* a schema [parse] threw *)
| TypeError.       (* property access on [undefined] or [null] *)

Inductive result (A : Type) : Type :=
| Ok (a : A)
| Throw (e : exn).

Arguments Ok {A} a.
Arguments Throw {A} e.

Definition bind {A B : Type} (r : result A) (f : A -> result B) : result B :=
  match r with
  | Ok a => f a
  | Throw e => Throw e
  end.

Notation "x <- r ;; k" := (bind r (fun x => k))
  (at level 61, r at next level, right associativity).

Section MapM.
Variables A B : Type.
Variable f : A -> option B.

(** All elements must succeed. *)
Fixpoint mapM (l : list A) : option (list B) :=
  match l with
  | [] => Some []
  | a :: l' =>
      match f a, mapM l' with
      | Some b, Some bs => Some (b :: bs)
      | _, _ => None
      end
  end.
End MapM.

Fixpoint get (k : string) (fields : list (string * value)) : value :=
  match fields with
  | [] => VUndefined
  | (k', v) :: fields' => if String.eqb k k' then v else get k fields'
  end.

Definition has_key (k : string) (fields : list (string * value)) : bool :=
  existsb (fun kv => String.eqb k (fst kv)) fields.

Definition is_undefined (v : value) : bool :=
  match v with
  | VUndefined => true
  | _ => false
  end.

(** The zod combinators used by the source. *)
Inductive schema : Type :=
| ZString                                  (* z.string() *)
| ZArray (elem : schema)                   (* z.array(elem) *)
| ZObject (shape : list (string * schema)) (* z.object({...}) *)
| ZOptional (inner : schema)               (* inner.optional() *)
| ZDefault (inner : schema) (d : value).   (* inner.default(d) *)

(** [schema.parse(v)]: [None] stands for a thrown [ZodError].  An object
    schema reads each key of its shape (a missing key reads as [undefined]),
    drops unknown keys, and fails when any key fails; an array schema fails
    when any element fails. *)
Fixpoint zparse (sc : schema) (v : value) {struct sc} : option value :=
  match sc with
  | ZString =>
      match v with
      | VStr _ => Some v
      | _ => None
      end
  | ZArray elem =>
      match v with
      | VArr l => option_map VArr (mapM (zparse elem) l)
      | _ => None
      end
  | ZObject shape =>
      match v with
      | VObj fields =>
          option_map VObj
            ((fix keys (sh : list (string * schema)) : option (list (string * value)) :=
                match sh with
                | [] => Some []
                | (k, s) :: sh' =>
                    match zparse s (get k fields), keys sh' with
                    | Some v', Some out =>
                        if is_undefined v' && negb (has_key k fields)
                        then Some out
                        else Some ((k, v') :: out)
                    | _, _ => None
                    end
                end) shape)
      | _ => None
      end
  | ZOptional inner =>
      match v with
      | VUndefined => Some VUndefined
      | _ => zparse inner v
      end
  | ZDefault inner d =>
      match v with
      | VUndefined => zparse inner d
      | _ => zparse inner v
      end
  end.

Definition parse (sc : schema) (v : value) : result value :=
  match zparse sc v with
  | Some v' => Ok v'
  | None => Throw ZodError
  end.

(** [v.k]: reading a property of [undefined] or [null] throws; any other
    non-object has no own property of these names. *)
Definition prop (v : value) (k : string) : result value :=
  match v with
  | VObj fields => Ok (get k fields)
  | VUndefined | VNull => Throw TypeError
  | _ => Ok VUndefined
  end.

(** [v?.k] *)
Definition prop_opt (v : value) (k : string) : result value :=
  match v with
  | VUndefined | VNull => Ok VUndefined
  | _ => prop v k
  end.

(** The schema of the Brave reply (lines 29-48). *)
Definition braveResultSchema : schema :=
  ZObject
    [("url", ZString);
     ("title", ZString);
     ("meta_url", ZObject [("favicon", ZString)]);
     ("extra_snippets", ZDefault (ZArray ZString) (VArr []));
     ("thumbnail", ZOptional (ZObject [("original", ZString)]))]%string.

Definition braveResponseSchema : schema :=
  ZObject [("web", ZObject [("results", ZArray braveResultSchema)])]%string.

(** [searchResultSchema] (lines 60-66) and [schema] (line 68). *)
Definition searchResultSchema : schema :=
  ZObject
    [("title", ZString);
     ("url", ZString);
     ("favicon", ZString);
     ("extraSnippets", ZDefault (ZArray ZString) (VArr []));
     ("thumbnail", ZOptional ZString)]%string.

Definition searchResultsSchema : schema := ZArray searchResultSchema.

(** The arrow function of line 51. *)
Definition toParsedResult (r : value) : result value :=
  title <- prop r "title" ;;
  url <- prop r "url" ;;
  meta_url <- prop r "meta_url" ;;
  favicon <- prop meta_url "favicon" ;;
  extra_snippets <- prop r "extra_snippets" ;;
  thumbnail <- prop r "thumbnail" ;;
  original <- prop_opt thumbnail "original" ;;
  Ok (VObj [("title", title); ("url", url); ("favicon", favicon);
            ("extraSnippets", extra_snippets); ("thumbnail", original)]%string).

Fixpoint mapR {A B : Type} (f : A -> result B) (l : list A) : result (list B) :=
  match l with
  | [] => Ok []
  | a :: l' => b <- f a ;; bs <- mapR f l' ;; Ok (b :: bs)
  end.

(** [Array.prototype.map] on a value. *)
Definition vmap (f : value -> result value) (v : value) : result value :=
  match v with
  | VArr l => l' <- mapR f l ;; Ok (VArr l')
  | _ => Throw TypeError
  end.

(** ** The request of the search (lines 16-19)

    The query goes through [encodeURIComponent] into the [q] parameter of
    the request URL.  [encodeURIComponent] is modelled after ECMAScript's
    [Encode]: a code unit of the unescaped set is copied; any other code
    point, a surrogate pair counting as one, is written as the octets of its
    UTF-8 form, each as a percent sign and two upper-case hexadecimal
    digits; a surrogate without its partner throws a [URIError], for which
    [None] stands. *)

(** Letters, digits and the marks [- _ . ! ~ * ' ( )]. *)
Definition is_uri_unescaped (c : char) : bool :=
  ((65 <=? c) && (c <=? 90) || (97 <=? c) && (c <=? 122) || (48 <=? c) && (c <=? 57)
   || existsb (N.eqb c) [45; 95; 46; 33; 126; 42; 39; 40; 41])%N.

Definition is_lead_surrogate (c : char) : bool := ((55296 <=? c) && (c <=? 56319))%N.

Definition is_trail_surrogate (c : char) : bool := ((56320 <=? c) && (c <=? 57343))%N.

(** [UTF16SurrogatePairToCodePoint]. *)
Definition surrogate_pair (lead trail : char) : N :=
  ((lead - 55296) * 1024 + (trail - 56320) + 65536)%N.

(** The octets of the UTF-8 form of a code point. *)
Definition utf8 (cp : N) : list N :=
  (if cp <? 128 then [cp]
   else if cp <? 2048 then [192 + cp / 64; 128 + cp mod 64]
   else if cp <? 65536 then [224 + cp / 4096; 128 + (cp / 64) mod 64; 128 + cp mod 64]
   else [240 + cp / 262144; 128 + (cp / 4096) mod 64; 128 + (cp / 64) mod 64;
         128 + cp mod 64])%N.

Definition hex_digit (n : N) : char := (if n <? 10 then 48 + n else 55 + n)%N.

Definition percent_octet (b : N) : str :=
  [chr "%"; hex_digit (b / 16); hex_digit (b mod 16)].

Definition escape (cp : N) : str := flat_map percent_octet (utf8 cp).

Fixpoint encodeURIComponent (s : str) : option str :=
  match s with
  | [] => Some []
  | c :: s' =>
      if is_uri_unescaped c then option_map (cons c) (encodeURIComponent s')
      else if is_lead_surrogate c then
        match s' with
        | d :: s'' =>
            if is_trail_surrogate d
            then option_map (app (escape (surrogate_pair c d))) (encodeURIComponent s'')
            else None
        | [] => None
        end
      else if is_trail_surrogate c then None
      else option_map (app (escape c)) (encodeURIComponent s')
  end.

(** The code units that [encodeURIComponent] writes. *)
Definition uri_safe (c : char) : Prop := is_uri_unescaped c = true \/ c = chr "%".

(** The URL handed to [fetch]. *)
Definition searchUrl (query : str) : option str :=
  option_map
    (fun q => lit "https://api.search.brave.com/res/v1/web/search?q=" ++ q ++
              lit "&count=5&result_filter=web")
    (encodeURIComponent query).

(** The elements of a JavaScript string are 16-bit code units. *)
Definition code_units (s : str) : Prop := Forall (fun c => (c < 65536)%N) s.

(** [s] holds a surrogate without its partner: a leading one that no
    trailing one follows, or a trailing one that no leading one precedes;
    [p] is the code unit in front of [s]. *)
Definition lone_surrogate_from (p : char) (s : str) : Prop :=
  (exists pre c post,
      s = pre ++ c :: post /\ is_lead_surrogate c = true /\
      is_trail_surrogate (hd 0%N post) = false) \/
  (exists pre c post,
      s = pre ++ c :: post /\ is_trail_surrogate c = true /\
      is_lead_surrogate (last pre p) = false).

Definition lone_surrogate (s : str) : Prop := lone_surrogate_from 0%N s.

(** One step of the encoder: the code units [k] it reads and the text
    [out] it writes for them. *)
Inductive encodes : str -> str -> Prop :=
| encodes_plain (c : char) :
    is_uri_unescaped c = true -> encodes [c] [c]
| encodes_unit (c : char) :
    is_uri_unescaped c = false -> is_lead_surrogate c = false ->
    is_trail_surrogate c = false -> encodes [c] (escape c)
| encodes_pair (c d : char) :
    is_uri_unescaped c = false -> is_lead_surrogate c = true ->
    is_trail_surrogate d = true -> encodes [c; d] (escape (surrogate_pair c d)).

(** [String.prototype.split] with a separator of one code unit. *)
Fixpoint split_at (sep : char) (s : str) : list str :=
  match s with
  | [] => [[]]
  | c :: s' =>
      if N.eqb c sep then [] :: split_at sep s'
      else
        match split_at sep s' with
        | w :: ws => (c :: w) :: ws
        | [] => [[c]]
        end
  end.

(** ** searchOnWeb *)

(** [z.infer<typeof searchResultSchema>] *)
Record SearchResult : Type := {
  title : str;
  url : str;
  favicon : str;
  extraSnippets : list str;
  thumbnail : option str
}.

Definition as_str (v : value) : option str :=
  match v with
  | VStr s => Some s
  | _ => None
  end.

(** The static typing of a parsed entry: the value seen at the type
    [SearchResult]. *)
Definition as_SearchResult (v : value) : option SearchResult :=
  match v with
  | VObj f =>
      match as_str (get "title" f), as_str (get "url" f), as_str (get "favicon" f),
            match get "extraSnippets" f with
            | VArr l => mapM as_str l
            | _ => None
            end,
            match get "thumbnail" f with
            | VUndefined => Some None
            | VStr s => Some (Some s)
            | _ => None
            end
      with
      | Some t, Some u, Some fv, Some ex, Some th =>
          Some {| title := t; url := u; favicon := fv; extraSnippets := ex; thumbnail := th |}
      | _, _, _, _, _ => None
      end
  | _ => None
  end.

Definition as_SearchResults (v : value) : result (list SearchResult) :=
  match v with
  | VArr l =>
      match mapM as_SearchResult l with
      | Some rs => Ok rs
      | None => Throw TypeError
      end
  | _ => Throw TypeError
  end.

(** The options object passed to [firecrawl.scrapeUrl] and one recorded call. *)
Record ScrapeOptions : Type := {
  formats : list string;
  timeout : Z;
  maxAge : Z
}.

Record ScrapeCall : Type := {
  call_url : str;
  call_options : ScrapeOptions
}.

(** The fields of a Firecrawl reply that the source reads. *)
Record ScrapeResponse : Type := {
  success : bool;
  error : option str;
  markdown : option str
}.

(** The outside world: the body of the Brave reply to the request of a URL
    ([None] when [fetch] or [res.json()] rejects), and the outcome of the
    scrape call of the [i]-th task for a url and an options object ([None]
    when the promise rejects: a timeout, a network failure, any thrown
    exception). *)
Record Env : Type := {
  fetchJson : str -> option value;
  scrapeUrl : nat -> str -> ScrapeOptions -> option ScrapeResponse
}.

(** The object returned by [scrapeSearchResult]. *)
Module Scraped.
Record t : Type := Make {
  title : str;
  link : str;
  content : str
}.
End Scraped.

Record SearchResults : Type := {
  results : list Scraped.t
}.

(** Truthiness of an optional string: absent and empty are falsy. *)
Definition truthy (o : option str) : bool :=
  match o with
  | Some (_ :: _) => true
  | _ => false
  end.

Definition scrapeOptions : ScrapeOptions :=
  {| formats := ["markdown"%string];
     timeout := 15000;
     maxAge := 12 * 60 * 60 * 1000 |}.

(** [firecrawl.scrapeUrl] as the [i]-th task calls it: the reply of the
    outside world to the arguments handed over, and the record of the call
    with these very arguments. *)
Definition firecrawl_scrapeUrl (env : Env) (i : nat) (u : str) (options : ScrapeOptions)
  : list ScrapeCall * option ScrapeResponse :=
  ([{| call_url := u; call_options := options |}], scrapeUrl env i u options).

(** [scrapeSearchResult] (lines 72-100), as the [i]-th task.  It returns the
    call it issued and its promise; the [catch] block swallows a rejected
    scrape and a thrown [error], leaving [scrapedText] empty. *)
Definition scrapeSearchResult (env : Env) (i : nat) (searchResult : SearchResult)
  : list ScrapeCall * result Scraped.t :=
  let scrapedText : str := [] in
  let call := firecrawl_scrapeUrl env i (url searchResult) scrapeOptions in
  let scrapedText :=
    match snd call with
    | None => scrapedText
    | Some scrapeResponse =>
        if truthy (error scrapeResponse) then scrapedText
        else if success scrapeResponse then
          let rawText :=
            match markdown scrapeResponse with
            | Some m => m
            | None => []
            end in
          sanitize rawText
        else scrapedText
    end in
  (fst call,
   Ok {| Scraped.title := title searchResult;
         Scraped.link := url searchResult;
         Scraped.content := scrapedText |}).

(** [Promise.allSettled] *)
Inductive settled (A : Type) : Type :=
| Fulfilled (v : A)
| Rejected (reason : exn).

Arguments Fulfilled {A} v.
Arguments Rejected {A} reason.

Definition allSettled {A : Type} (ps : list (result A)) : list (settled A) :=
  map (fun p => match p with Ok v => Fulfilled v | Throw e => Rejected e end) ps.

(** Lines 107-108: keep the fulfilled entries and take their values. *)
Definition fulfilled_values {A : Type} (l : list (settled A)) : list A :=
  flat_map (fun r => match r with Fulfilled v => [v] | Rejected _ => [] end) l.

Definition is_empty (s : str) : bool :=
  match s with
  | [] => true
  | _ :: _ => false
  end.

Fixpoint mapi_from {A B : Type} (f : nat -> A -> B) (i : nat) (l : list A) : list B :=
  match l with
  | [] => []
  | a :: l' => f i a :: mapi_from f (S i) l'
  end.

(** Lines 28-69: validate the reply and type the hits. *)
Definition parseSearchResults (responseJson : value) : result (list SearchResult) :=
  parsedResponseJson <- parse braveResponseSchema responseJson ;;
  web <- prop parsedResponseJson "web" ;;
  rs <- prop web "results" ;;
  parsedResults <- vmap toParsedResult rs ;;
  searchResults <- parse searchResultsSchema parsedResults ;;
  as_SearchResults searchResults.

(** [searchOnWeb]: the scrape calls issued, in order, and the outcome.  The
    request URL is built first; where [encodeURIComponent] throws, nothing
    is fetched. *)
Definition searchOnWeb (env : Env) (query : str) : list ScrapeCall * result SearchResults :=
  match searchUrl query with
  | None => ([], Throw URIError)
  | Some requestUrl =>
      match fetchJson env requestUrl with
      | None => ([], Throw FetchFailed)
      | Some responseJson =>
          match parseSearchResults responseJson with
          | Throw e => ([], Throw e)
          | Ok searchResults =>
              let tasks := mapi_from (scrapeSearchResult env) 0 searchResults in
              let resultsSettled := allSettled (map snd tasks) in
              let results :=
                filter (fun r => negb (is_empty (Scraped.content r)))
                       (fulfilled_values resultsSettled) in
              (flat_map fst tasks,
               if Nat.eqb (length results) 0
               then Ok {| results := [] |}
               else Ok {| results := results |})
          end
      end
  end.

(** ** The job status of the database migration

    [CREATE TYPE status AS ENUM('questions', 'pending', 'processing',
    'completed')]; the [status] column of [chats] is [NOT NULL] with default
    ['questions'].  The migration declares no constraint and no trigger on
    the column, and no code that writes it. *)









(** ** Notions used in the statements *)

(** The part of a reply that the top-level schema looks at: the array at
    [web.results]. *)
Definition entries_of (responseJson : value) : option (list value) :=
  match responseJson with
  | VObj f =>
      match get "web" f with
      | VObj w =>
          match get "results" w with
          | VArr l => Some l
          | _ => None
          end
      | _ => None
      end
  | _ => None
  end.

(** An entry is well formed when the entry schema accepts it. *)
Definition well_formed_entry (e : value) : bool :=
  match zparse braveResultSchema e with
  | Some _ => true
  | None => false
  end.

(** A typed hit carries the url, title and favicon of the entry it was read
    from. *)
Definition hit_of_entry (e : value) (h : SearchResult) : Prop :=
  exists f m,
    e = VObj f /\ get "url" f = VStr (url h) /\ get "title" f = VStr (title h) /\
    get "meta_url" f = VObj m /\ get "favicon" m = VStr (favicon h).

(** The text a scrape task ends up with, following the spec's
    [ScrapeOutcome]: [None] is the failure marker (the call rejected, the
    provider reported an error or no success, or nothing was left after
    sanitizing), [Some content] a success with non-empty sanitized content. *)
Definition scrape_outcome (env : Env) (i : nat) (h : SearchResult) : option str :=
  match scrapeUrl env i (url h) scrapeOptions with
  | None => None
  | Some r =>
      if truthy (error r) then None
      else if success r then
        match sanitize (match markdown r with Some m => m | None => [] end) with
        | [] => None
        | c :: t => Some (c :: t)
        end
      else None
  end.

(** The findings expected from the hits numbered from [i]: one per
    successful task, in the order of the hits. *)
Fixpoint findings_from (env : Env) (i : nat) (hits : list SearchResult) : list Scraped.t :=
  match hits with
  | [] => []
  | h :: hits' =>
      match scrape_outcome env i h with
      | Some c => Scraped.Make (title h) (url h) c :: findings_from env (S i) hits'
      | None => findings_from env (S i) hits'
      end
  end.

(** The words an expression can consume, read declaratively: anchors and
    groups consume what their body does, captures are ignored. *)
Fixpoint lang (r : regex) (w : str) : Prop :=
  match r with
  | Eps | Bol | Eol => w = []
  | Cls c => exists x, w = [x] /\ cls_mem c x = true
  | Seq r1 r2 => exists w1 w2, w = w1 ++ w2 /\ lang r1 w1 /\ lang r2 w2
  | Opt r1 => w = [] \/ lang r1 w
  | Star c => Forall (fun x => cls_mem c x = true) w
  | Group _ r1 => lang r1 w
  end.

(** The code unit in front of the position that follows [pre]. *)
Definition prev_of (pre : str) : option char :=
  fold_left (fun _ c => Some c) pre None.

(** The expression matches somewhere in [s]. *)
Definition found (re : regex) (s : str) : Prop :=
  exists pre suf st, s = pre ++ suf /\ match_at re (prev_of pre) suf = Some st.

(** [pat] occurs in [s]. *)
Definition occurs (pat s : str) : Prop :=
  exists pre post, s = pre ++ pat ++ post.

(** [s] holds an absolute web URL: [http://] or [https://] followed by at
    least one code unit that is not white space. *)
Definition has_url (s : str) : Prop :=
  exists pre c post,
    is_ws c = false /\
    (s = pre ++ lit "http://" ++ c :: post \/ s = pre ++ lit "https://" ++ c :: post).

(** [s] neither starts nor ends with white space. *)
Definition trimmed (s : str) : Prop :=
  (forall c r, s = c :: r -> is_ws c = false) /\
  (forall r c, s = r ++ [c] -> is_ws c = false).

Definition ends_with_ws (s : str) : Prop :=
  exists r c, s = r ++ [c] /\ is_ws c = true.

(** [s] begins with an absolute web URL. *)
Definition url_head (s : str) : Prop :=
  exists sch x u,
    (sch = lit "http://" \/ sch = lit "https://") /\ is_ws x = false /\ s = sch ++ x :: u.

(** [s] holds [http://] or [https://]. *)
Definition has_scheme (s : str) : Prop :=
  occurs (lit "http://") s \/ occurs (lit "https://") s.

(** The code unit in front of the position reached from [p] by reading [l]. *)
Definition prev_after (p : option char) (l : str) : option char :=
  fold_left (fun _ c => Some c) l p.

(** The shape shared by the image and the link expression, after the
    opening [l0]. *)
Definition markup (l0 : str) : regex :=
  Cat [Lit l0; Group 1 (Star (Not [Ch (chr "]")])); Lit (lit "](");
       Group 2 (Cat [scheme; Plus (Not [WS; Ch (chr ")")])]);
       title_opt; Lit (lit ")")].

(** The call a task issues for a hit. *)
Definition call_of (h : SearchResult) : ScrapeCall :=
  {| call_url := url h; call_options := scrapeOptions |}.

(** Boolean versions of [occurs], [found] and [ends_with_ws], for evaluating
    them on a given text. *)
Fixpoint starts_with (pat s : str) : bool :=
  match pat, s with
  | [], _ => true
  | c :: pat', x :: s' => N.eqb c x && starts_with pat' s'
  | _ :: _, [] => false
  end.

Fixpoint occurs_b (pat s : str) : bool :=
  starts_with pat s ||
  match s with
  | [] => false
  | _ :: s' => occurs_b pat s'
  end.

Fixpoint found_from (re : regex) (p : option char) (s : str) : bool :=
  match match_at re p s with
  | Some _ => true
  | None =>
      match s with
      | [] => false
      | c :: s' => found_from re (Some c) s'
      end
  end.

Definition found_b (re : regex) (s : str) : bool := found_from re None s.

Definition ends_ws_b (s : str) : bool :=
  match rev s with
  | c :: _ => is_ws c
  | [] => false
  end.

(** ** Sample inputs *)

Definition sample_entry (u t : string) : value :=
  VObj [("url", VStr (lit u)); ("title", VStr (lit t));
        ("meta_url", VObj [("favicon", VStr (lit "https://x.example/f.ico"))]);
        ("age", VNum 3)]%string.

(** An entry whose [url] is a number. *)
Definition sample_bad_entry : value :=
  VObj [("url", VNum 1); ("title", VStr (lit "broken"));
        ("meta_url", VObj [("favicon", VStr (lit "https://x.example/f.ico"))])]%string.

Definition sample_reply (entries : list value) : value :=
  VObj [("type", VStr (lit "search"));
        ("web", VObj [("results", VArr entries)])]%string.

Definition sample_hit (u t : string) : SearchResult :=
  {| title := lit t; url := lit u; favicon := lit "https://x.example/f.ico";
     extraSnippets := []; thumbnail := None |}.

(** Three hits: the first scrape times out, the second succeeds when it is
    given fifteen seconds and a cache age of twelve hours, the third comes
    back with a provider error. *)
Definition sample_env : Env :=
  {| fetchJson := fun _ =>
       Some (sample_reply [sample_entry "https://a.example" "A";
                           sample_entry "https://b.example" "B";
                           sample_entry "https://c.example" "C"]);
     scrapeUrl := fun i _ options =>
       match i with
       | 0 => None
       | 1 => if ((timeout options =? 15000) && (maxAge options =? 43200000))%Z
              then Some {| success := true; error := None;
                           markdown :=
                             Some (lit " read [the docs](https://b.example/docs) now ") |}
              else None
       | _ => Some {| success := false; error := Some (lit "blocked");
                      markdown := None |}
       end |}.

(** A reply with one well-formed and one malformed entry. *)
Definition sample_env_bad : Env :=
  {| fetchJson := fun _ =>
       Some (sample_reply [sample_entry "https://a.example" "A"; sample_bad_entry]);
     scrapeUrl := fun _ _ _ =>
       Some {| success := true; error := None; markdown := Some (lit "text") |} |}.

Definition sample_query : str := lit "rocq".

(** ** Further notions

    Notions for the properties that follow those of the specification. *)

(** [l1] is obtained from [l2] by deleting elements. *)
Inductive subseq {A : Type} : list A -> list A -> Prop :=
| subseq_nil : subseq [] []
| subseq_skip : forall x l1 l2, subseq l1 l2 -> subseq l1 (x :: l2)
| subseq_keep : forall x l1 l2, subseq l1 l2 -> subseq (x :: l1) (x :: l2).

(** Every capture recorded in [cs] was already in [cs0] or is a piece of
    the word [w]. *)
Definition caps_within (cs0 cs : list (nat * str)) (w : str) : Prop :=
  forall i c, In (i, c) cs -> In (i, c) cs0 \/ exists a b, w = a ++ c ++ b.

(** Templates that insert at most one capture and no text of their own. *)
Definition plain_template (tpl : list repl_item) : Prop :=
  tpl = [] \/ exists i, tpl = [RCap i].

(** What lines 28-69 make of one entry, read in one pass: the hit, or
    [None] where the entry schema rejects the entry. *)
Definition hit_from_entry (e : value) : option SearchResult :=
  match e with
  | VObj f =>
      match get "url" f, get "title" f, get "meta_url" f with
      | VStr u, VStr t, VObj m =>
          match get "favicon" m with
          | VStr fv =>
              match
                match get "extra_snippets" f with
                | VUndefined => Some []
                | VArr l => mapM as_str l
                | _ => None
                end,
                match get "thumbnail" f with
                | VUndefined => Some None
                | VObj th =>
                    match get "original" th with
                    | VStr o => Some (Some o)
                    | _ => None
                    end
                | _ => None
                end
              with
              | Some ex, Some th =>
                  Some {| title := t; url := u; favicon := fv;
                          extraSnippets := ex; thumbnail := th |}
              | _, _ => None
              end
          | _ => None
          end
      | _, _, _ => None
      end
  | _ => None
  end.

(** The keys of an entry that the entry schema reads. *)
Definition entry_keys : list string :=
  ["url"; "title"; "meta_url"; "extra_snippets"; "thumbnail"]%string.

(** Two entries that carry the same values under the keys the schema
    reads. *)
Definition same_known_fields (e1 e2 : value) : Prop :=
  exists f1 f2,
    e1 = VObj f1 /\ e2 = VObj f2 /\
    forall k, In k entry_keys -> get k f1 = get k f2.

(** An optional link title as the image, link and reference-definition
    expressions accept it: nothing, or white space and a text in double
    quotes. *)
Definition link_title (s : str) : Prop :=
  s = [] \/
  exists w ws title,
    Forall (fun y => is_ws y = true) (w :: ws) /\
    Forall (fun y => y <> dquote) title /\
    s = (w :: ws) ++ dquote :: title ++ [dquote].

(** [s] is empty or ends a line. *)
Definition ends_line (s : str) : Prop :=
  s = [] \/ exists r c, s = r ++ [c] /\ is_line_terminator c = true.

(** [s] is empty or begins with a line break. *)
Definition starts_line_break (s : str) : Prop :=
  s = [] \/ exists c r, s = c :: r /\ is_line_terminator c = true.

(** ** Documents of text, links and images

    A markdown fragment made of running text, links and images, the text
    it renders to, and the text a reader sees. *)

(** An absolute web address as the image and link expressions accept it. *)
Definition web_target (tg : str) : Prop :=
  exists sch x u,
    (sch = lit "http://" \/ sch = lit "https://") /\ tg = sch ++ x :: u /\
    Forall (fun y => is_ws y = false) (x :: u) /\
    ~ In (chr ")") (x :: u) /\ ~ In (chr "[") (x :: u).

Inductive piece : Type :=
| PText (s : str)
| PLink (text target title : str)
| PImage (alt target title : str).

Definition render_piece (pc : piece) : str :=
  match pc with
  | PText s => s
  | PLink t tg ttl => lit "[" ++ t ++ lit "](" ++ tg ++ ttl ++ lit ")"
  | PImage a tg ttl => lit "![" ++ a ++ lit "](" ++ tg ++ ttl ++ lit ")"
  end.

Definition render (d : list piece) : str := flat_map render_piece d.

Definition visible_piece (pc : piece) : str :=
  match pc with
  | PText s => s
  | PLink t _ _ => t
  | PImage a _ _ => a
  end.

Definition visible (d : list piece) : str := flat_map visible_piece d.

(** The text of a link or image holds no square bracket, the target is an
    absolute web address, the title, if any, holds no opening bracket. *)
Definition markup_ok (t tg ttl : str) : Prop :=
  ~ In (chr "[") t /\ ~ In (chr "]") t /\ web_target tg /\
  link_title ttl /\ ~ In (chr "[") ttl.

(** Running text holds no opening bracket, and no exclamation mark stands
    directly in front of a link; [p] is the code unit in front of [d]. *)
Fixpoint well_formed_from (p : char) (d : list piece) : Prop :=
  match d with
  | [] => True
  | PText s :: d' => ~ In (chr "[") s /\ well_formed_from (last s p) d'
  | PLink t tg ttl :: d' =>
      p <> chr "!" /\ markup_ok t tg ttl /\ well_formed_from (chr ")") d'
  | PImage a tg ttl :: d' => markup_ok a tg ttl /\ well_formed_from (chr ")") d'
  end.

Definition well_formed (d : list piece) : Prop := well_formed_from (chr " ") d.

(** The document after the image rule: every image has become its
    alternative text. *)
Definition unimage (pc : piece) : piece :=
  match pc with
  | PImage a _ _ => PText a
  | _ => pc
  end.

(** What the link rule can work on: no image is left. *)
Definition link_ready (pc : piece) : Prop :=
  match pc with
  | PText s => ~ In (chr "[") s
  | PLink t tg ttl => markup_ok t tg ttl
  | PImage _ _ _ => False
  end.

(** ** Documents with links to other targets

    A markdown fragment of running text, links and images, where a link or
    an image points either to an [http(s)] address or elsewhere (a relative
    path, an anchor, a [mailto:] address). *)














(** * Properties *)

Unset Implicit Arguments.

(** ** The matcher only consumes words of the expression *)

Lemma exec_star_sound (c : cls) (cs : list (nat * str)) (k : cont) :
  forall s p res,
    exec_star c cs k p s = Some res ->
    exists w s' p',
      s = w ++ s' /\ Forall (fun x => cls_mem c x = true) w /\
      k (MState p' s' cs) = Some res.
Proof.
  induction s as [|x xs IH]; intros p res H; simpl in H.
  - exists [], [], p. auto.
  - destruct (cls_mem c x) eqn:Hx.
    + destruct (exec_star c cs k (Some x) xs) as [r|] eqn:Hr.
      * inversion H; subst r.
        destruct (IH _ _ Hr) as (w & s' & p' & -> & Hw & Hk).
        exists (x :: w), s', p'. auto.
      * exists [], (x :: xs), p. auto.
    + exists [], (x :: xs), p. auto.
Qed.

Lemma exec_sound (r : regex) :
  forall st k res,
    exec r st k = Some res ->
    exists w st', rest st = w ++ rest st' /\ lang r w /\ k st' = Some res.
Proof.
  induction r as [ | c | r1 IH1 r2 IH2 | r1 IH1 | c | i r1 IH1 | | ];
    intros st k res H; simpl in H.
  - exists [], st. repeat split; auto.
  - destruct (rest st) as [|x xs] eqn:Hs; [discriminate|].
    destruct (cls_mem c x) eqn:Hx; [|discriminate].
    exists [x], (MState (Some x) xs (caps st)). simpl. repeat split; eauto.
  - destruct (IH1 _ _ _ H) as (w1 & st1 & E1 & L1 & K1).
    destruct (IH2 _ _ _ K1) as (w2 & st2 & E2 & L2 & K2).
    exists (w1 ++ w2), st2. rewrite E1, E2, app_assoc. simpl. split; [reflexivity|]. split; [|exact K2]. eauto.
  - destruct (exec r1 st k) as [res'|] eqn:E.
    + inversion H; subst res'.
      destruct (IH1 _ _ _ E) as (w & st' & E1 & L1 & K1).
      exists w, st'. simpl. auto.
    + exists [], st. simpl. auto.
  - destruct (exec_star_sound _ _ _ _ _ _ H) as (w & s' & p' & E & Hw & Hk).
    exists w, (MState p' s' (caps st)). simpl. auto.
  - destruct (IH1 _ _ _ H) as (w & st' & E1 & L1 & K1).
    eexists w, _. split; [|split; [exact L1|exact K1]]. exact E1.
  - destruct (at_line_start (prev st)); [|discriminate]. exists [], st. simpl. auto.
  - destruct (at_line_end (rest st)); [|discriminate]. exists [], st. simpl. auto.
Qed.

Lemma match_at_sound (re : regex) (p : option char) (s : str) (st : mstate) :
  match_at re p s = Some st -> exists w, s = w ++ rest st /\ lang re w.
Proof.
  unfold match_at. intros H.
  destruct (exec_sound _ _ _ _ H) as (w & st' & E & L & K).
  inversion K; subst st'. exists w. auto.
Qed.

(** ** The global replace *)

Lemma prev_of_snoc (pre : str) (c : char) : prev_of (pre ++ [c]) = Some c.
Proof. unfold prev_of. rewrite fold_left_app. reflexivity. Qed.

Section Replace.
Variable re : regex.
Variable tpl : list repl_item.

Lemma replace_go_skip :
  forall w p s, exists p',
    replace_go re tpl (length w) p (w ++ s) = replace_go re tpl 0 p' s.
Proof.
  induction w as [|c w IH]; intros p s.
  - exists p. reflexivity.
  - destruct (IH (Some c) s) as [p' E]. exists p'. simpl. exact E.
Qed.

Lemma replace_go_cons (p : option char) (c : char) (s : str) :
  replace_go re tpl 0 p (c :: s) =
  match match_at re p (c :: s) with
  | Some st' =>
      expand tpl (caps st') ++
      match length (c :: s) - length (rest st') with
      | O => c :: replace_go re tpl 0 (Some c) s
      | S m => replace_go re tpl m (Some c) s
      end
  | None => c :: replace_go re tpl 0 (Some c) s
  end.
Proof. reflexivity. Qed.

(** After a match that consumed something, the scan resumes behind it. *)
Lemma replace_go_match (p : option char) (s : str) (st : mstate) :
  match_at re p s = Some st ->
  length (rest st) < length s ->
  exists p',
    replace_go re tpl 0 p s = expand tpl (caps st) ++ replace_go re tpl 0 p' (rest st).
Proof.
  intros M Hlen.
  destruct (match_at_sound _ _ _ _ M) as (w & E & _).
  destruct w as [|c w].
  - simpl in E. rewrite <- E in Hlen. lia.
  - destruct (replace_go_skip w (Some c) (rest st)) as [p' Ep].
    exists p'. subst s. rewrite <- app_comm_cons in *.
    rewrite replace_go_cons, M.
    assert (EL : length (c :: w ++ rest st) - length (rest st) = S (length w)).
    { change (length (c :: w ++ rest st)) with (S (length (w ++ rest st))).
      rewrite length_app. lia. }
    rewrite EL, Ep. reflexivity.
Qed.

Lemma replace_go_nomatch (p : option char) (c : char) (s : str) :
  match_at re p (c :: s) = None ->
  replace_go re tpl 0 p (c :: s) = c :: replace_go re tpl 0 (Some c) s.
Proof. intros M. simpl. rewrite M. reflexivity. Qed.

Lemma replace_go_not_found :
  forall s pre,
    (forall a b, s = a ++ b -> match_at re (prev_of (pre ++ a)) b = None) ->
    replace_go re tpl 0 (prev_of pre) s = s.
Proof.
  induction s as [|c s IH]; intros pre H.
  - pose proof (H [] [] eq_refl) as M. rewrite app_nil_r in M.
    simpl. rewrite M. reflexivity.
  - rewrite replace_go_nomatch.
    + f_equal. rewrite <- (prev_of_snoc pre c). apply IH.
      intros a b E. rewrite <- app_assoc. simpl. apply (H (c :: a) b).
      simpl. now rewrite E.
    + specialize (H [] (c :: s) eq_refl). now rewrite app_nil_r in H.
Qed.

(** Where the expression matches nowhere, the text is left as it is. *)
Lemma replace_not_found (s : str) :
  ~ found re s -> replace re tpl s = s.
Proof.
  intros H. unfold replace. change None with (prev_of []).
  apply replace_go_not_found. intros a b E.
  destruct (match_at re (prev_of ([] ++ a)) b) as [st|] eqn:M; [|reflexivity].
  exfalso. apply H. exists a, b, st. auto.
Qed.

End Replace.

(** ** What the five expressions can match *)

Lemma lang_Lit : forall s w, lang (Lit s) w -> w = s.
Proof.
  induction s as [|c s IH]; intros w H; simpl in H.
  - exact H.
  - destruct H as (w1 & w2 & -> & (x & -> & Hx) & H2).
    apply N.eqb_eq in Hx. subst x. simpl. f_equal. auto.
Qed.

Lemma lang_Plus (c : cls) (w : str) :
  lang (Plus c) w ->
  exists x u, w = x :: u /\ cls_mem c x = true /\ Forall (fun y => cls_mem c y = true) u.
Proof.
  intros (w1 & w2 & -> & (x & -> & Hx) & H2). exists x, w2. auto.
Qed.

Lemma lang_scheme (w : str) :
  lang scheme w -> w = lit "http://" \/ w = lit "https://".
Proof.
  unfold scheme. cbv [Cat fold_right].
  intros (w1 & w2 & -> & H1 & w3 & w4 & -> & H3 & w5 & w6 & -> & H5 & ->).
  apply lang_Lit in H1, H5. subst w1 w5.
  destruct H3 as [-> | H3].
  - left. reflexivity.
  - apply lang_Lit in H3. subst w3. right. reflexivity.
Qed.

Lemma not_ws_of_class (l : list atom) (x : char) :
  cls_mem (Not (WS :: l)) x = true -> is_ws x = false.
Proof.
  simpl. intros H. apply negb_true_iff in H. apply orb_false_iff in H. tauto.
Qed.

Ltac lang_inv :=
  repeat match goal with
  | H : lang (Seq _ _) _ |- _ =>
      let w1 := fresh "w" in let w2 := fresh "w" in
      let H1 := fresh "L" in let H2 := fresh "L" in
      destruct H as (w1 & w2 & -> & H1 & H2)
  | H : lang (Group _ ?r) ?w |- _ => change (lang r w) in H
  | H : lang Eps _ |- _ => simpl in H; subst
  | H : lang Bol _ |- _ => simpl in H; subst
  | H : lang Eol _ |- _ => simpl in H; subst
  | H : lang (Lit _) _ |- _ => apply lang_Lit in H; subst
  | H : lang scheme _ |- _ => apply lang_scheme in H
  | H : cls_mem (Not (WS :: _)) _ = true |- _ => apply not_ws_of_class in H
  | H : lang (Plus _) _ |- _ =>
      let x := fresh "x" in let u := fresh "u" in
      let Hx := fresh "Hx" in let Hu := fresh "Hu" in
      apply lang_Plus in H; destruct H as (x & u & -> & Hx & Hu)
  end.

Lemma cls_not_char (c y : char) : cls_mem (Not [Ch c]) y = true -> y <> c.
Proof.
  simpl. intros H E. subst y. rewrite N.eqb_refl in H. discriminate.
Qed.

Lemma has_url_intro (a sch b : str) (x : char) :
  sch = lit "http://" \/ sch = lit "https://" ->
  is_ws x = false ->
  has_url (a ++ sch ++ x :: b).
Proof.
  intros [-> | ->] Hx; exists a, x, b; auto.
Qed.

Lemma has_url_app (a s b : str) : has_url s -> has_url (a ++ s ++ b).
Proof.
  intros (pre & c & post & Hc & [-> | ->]).
  - exists (a ++ pre), c, (post ++ b). split; [exact Hc|left].
    repeat (rewrite <- ?app_assoc; simpl). reflexivity.
  - exists (a ++ pre), c, (post ++ b). split; [exact Hc|right].
    repeat (rewrite <- ?app_assoc; simpl). reflexivity.
Qed.

Ltac lang_finish :=
  repeat (rewrite <- ?app_assoc; simpl); rewrite ?app_nil_r;
  repeat match goal with
  | |- exists _, _ => eexists
  end;
  repeat match goal with
  | |- _ /\ _ => split
  end;
  try eassumption; try reflexivity.

Lemma lang_bare_inv (w : str) :
  lang re_bare w ->
  exists sch x u,
    (sch = lit "http://" \/ sch = lit "https://") /\ is_ws x = false /\ w = sch ++ x :: u.
Proof.
  unfold re_bare. cbv [Cat fold_right]. intros H. lang_inv. lang_finish.
Qed.

Lemma lang_image_inv (w : str) :
  lang re_image w ->
  exists sch x t u,
    (sch = lit "http://" \/ sch = lit "https://") /\ is_ws x = false /\
    Forall (fun y => y <> chr "]") t /\
    w = lit "![" ++ t ++ lit "](" ++ sch ++ x :: u.
Proof.
  unfold re_image. cbv [Cat fold_right]. intros H. lang_inv.
  match goal with
  | H : lang (Star _) _ |- _ =>
      simpl in H; eapply Forall_impl in H; [|intros ? Hc; exact (cls_not_char _ _ Hc)]
  end.
  lang_finish.
Qed.

Lemma lang_link_inv (w : str) :
  lang re_link w ->
  exists sch x t u,
    (sch = lit "http://" \/ sch = lit "https://") /\ is_ws x = false /\
    Forall (fun y => y <> chr "]") t /\
    w = lit "[" ++ t ++ lit "](" ++ sch ++ x :: u.
Proof.
  unfold re_link. cbv [Cat fold_right]. intros H. lang_inv.
  match goal with
  | H : lang (Star _) _ |- _ =>
      simpl in H; eapply Forall_impl in H; [|intros ? Hc; exact (cls_not_char _ _ Hc)]
  end.
  lang_finish.
Qed.

Lemma lang_refdef_inv (w : str) :
  lang re_refdef w ->
  exists sch x t u,
    (sch = lit "http://" \/ sch = lit "https://") /\ is_ws x = false /\
    w = lit "[" ++ t ++ sch ++ x :: u.
Proof.
  unfold re_refdef. cbv [Cat fold_right]. intros H. lang_inv.
  match goal with
  | Hs : ?sch = _ \/ _, Hx : is_ws ?x = false, Hc : cls_mem _ ?x0 = true,
    Hu0 : Forall (fun y => cls_mem (Not [Ch _]) y = true) ?u0,
    Hu : Forall (fun y => cls_mem (Not [WS]) y = true) ?u,
    L3 : lang (Star _) ?w3, L6 : lang title_opt ?w6 |- _ =>
      exists sch, x, ((x0 :: u0) ++ lit "]:" ++ w3), (u ++ w6)
  end.
  lang_finish.
Qed.

Lemma lang_angle_inv (w : str) :
  lang re_angle w ->
  exists sch x u,
    (sch = lit "http://" \/ sch = lit "https://") /\ x <> chr ">" /\
    w = lit "<" ++ sch ++ x :: u.
Proof.
  unfold re_angle. cbv [Cat fold_right]. intros H. lang_inv.
  match goal with
  | H : cls_mem (Not [Ch _]) _ = true |- _ => apply cls_not_char in H
  end.
  lang_finish.
Qed.

Lemma has_url_suffix (a s : str) : has_url s -> has_url (a ++ s).
Proof.
  intros H. apply (has_url_app a s []) in H. now rewrite app_nil_r in H.
Qed.

Lemma has_url_prefix (s b : str) : has_url s -> has_url (s ++ b).
Proof. intros H. exact (has_url_app [] s b H). Qed.

Lemma lang_bare_has_url (w : str) : lang re_bare w -> has_url w.
Proof.
  intros H. destruct (lang_bare_inv _ H) as (sch & x & u & Hs & Hx & ->).
  exact (has_url_intro [] sch u x Hs Hx).
Qed.

Lemma lang_image_has_url (w : str) : lang re_image w -> has_url w.
Proof.
  intros H. destruct (lang_image_inv _ H) as (sch & x & t & u & Hs & Hx & _ & ->).
  do 3 apply has_url_suffix. exact (has_url_intro [] sch u x Hs Hx).
Qed.

Lemma lang_link_has_url (w : str) : lang re_link w -> has_url w.
Proof.
  intros H. destruct (lang_link_inv _ H) as (sch & x & t & u & Hs & Hx & _ & ->).
  do 3 apply has_url_suffix. exact (has_url_intro [] sch u x Hs Hx).
Qed.

Lemma lang_refdef_has_url (w : str) : lang re_refdef w -> has_url w.
Proof.
  intros H. destruct (lang_refdef_inv _ H) as (sch & x & t & u & Hs & Hx & ->).
  do 2 apply has_url_suffix. exact (has_url_intro [] sch u x Hs Hx).
Qed.

(** A match anywhere in [s] puts a word of the expression inside [s]. *)
Lemma found_word (re : regex) (s : str) :
  found re s -> exists pre w post, s = pre ++ w ++ post /\ lang re w.
Proof.
  intros (pre & suf & st & -> & M).
  destruct (match_at_sound _ _ _ _ M) as (w & E & L).
  exists pre, w, (rest st). rewrite <- E. auto.
Qed.

Lemma found_has_url (re : regex) (s : str) :
  (forall w, lang re w -> has_url w) -> found re s -> has_url s.
Proof.
  intros Hre F. destruct (found_word _ _ F) as (pre & w & post & -> & L).
  apply has_url_app. auto.
Qed.

(** ** Removing bare URLs leaves none behind *)

Lemma has_url_iff (s : str) :
  has_url s <-> exists pre suf, s = pre ++ suf /\ url_head suf.
Proof.
  split.
  - intros (pre & c & post & Hc & [-> | ->]).
    + exists pre, (lit "http://" ++ c :: post). split; [reflexivity|].
      exists (lit "http://"), c, post. auto.
    + exists pre, (lit "https://" ++ c :: post). split; [reflexivity|].
      exists (lit "https://"), c, post. auto.
  - intros (pre & suf & -> & sch & x & u & Hs & Hx & ->).
    apply has_url_intro; auto.
Qed.

Lemma exec_star_Some (c : cls) (cs : list (nat * str)) :
  forall s p, exists p' s',
    exec_star c cs (fun st => Some st) p s = Some (MState p' s' cs) /\
    (s' = [] \/ exists y r, s' = y :: r /\ cls_mem c y = false) /\
    length s' <= length s.
Proof.
  induction s as [|x xs IH]; intros p.
  - exists p, []. simpl. auto.
  - simpl. destruct (cls_mem c x) eqn:Hx.
    + destruct (IH (Some x)) as (p' & s' & E & Hs & Hl).
      exists p', s'. rewrite E. auto.
    + exists p, (x :: xs). split; [reflexivity|]. split; [|simpl; lia].
      right. exists x, xs. auto.
Qed.

Lemma match_bare_sound (p : option char) (s : str) (st : mstate) :
  match_at re_bare p s = Some st -> url_head s.
Proof.
  intros M. destruct (match_at_sound _ _ _ _ M) as (w & -> & L).
  destruct (lang_bare_inv _ L) as (sch & x & u & Hs & Hx & ->).
  exists sch, x, (u ++ rest st). rewrite <- app_assoc. auto.
Qed.

Lemma match_bare_complete (p : option char) (s : str) :
  url_head s ->
  exists st,
    match_at re_bare p s = Some st /\
    (rest st = [] \/ exists c r, rest st = c :: r /\ is_ws c = true) /\
    length (rest st) < length s.
Proof.
  intros (sch & x & u & Hs & Hx & ->).
  destruct (exec_star_Some (Not [WS]) [] u (Some x)) as (p' & s' & E & Hs' & Hl).
  assert (Hend : s' = [] \/ exists c r, s' = c :: r /\ is_ws c = true).
  { destruct Hs' as [-> | (y & r & -> & Hy)]; [auto|right].
    exists y, r. split; [reflexivity|]. simpl in Hy.
    apply negb_false_iff in Hy. now rewrite orb_false_r in Hy. }
  exists (MState p' s' []).
  assert (Hcx : cls_mem (Not [WS]) x = true) by (simpl; now rewrite Hx).
  destruct Hs as [-> | ->]; unfold match_at, re_bare, scheme; simpl; rewrite Hx; simpl;
    rewrite E; simpl; (split; [reflexivity|split; [exact Hend|lia]]).
Qed.

Lemma url_head_not_ws (c : char) (r : str) : is_ws c = true -> ~ url_head (c :: r).
Proof.
  intros Hc (sch & x & u & [-> | ->] & _ & E); inversion E; subst c; discriminate.
Qed.

Lemma url_head_nil : ~ url_head [].
Proof. intros (sch & x & u & [-> | ->] & _ & E); discriminate. Qed.

Lemma url_head_word (s : str) :
  url_head s ->
  exists v r, s = v ++ r /\ Forall (fun y => is_ws y = false) v /\ url_head v.
Proof.
  intros (sch & x & u & Hs & Hx & ->).
  exists (sch ++ [x]), u. split; [now rewrite <- app_assoc|]. split.
  - apply Forall_app. split; [|auto].
    destruct Hs as [-> | ->]; repeat constructor.
  - exists sch, x, []. auto.
Qed.

Lemma url_head_app (v r : str) : url_head v -> url_head (v ++ r).
Proof.
  intros (sch & x & u & Hs & Hx & ->). exists sch, x, (u ++ r).
  rewrite <- app_assoc. auto.
Qed.

Lemma replace_bare_nil (p : option char) : replace_go re_bare [] 0 p [] = [].
Proof. simpl. destruct (match_at re_bare p []); reflexivity. Qed.

Lemma match_bare_none (p : option char) (s : str) :
  ~ url_head s -> match_at re_bare p s = None.
Proof.
  intros H. destruct (match_at re_bare p s) eqn:M; [|reflexivity].
  destruct H. eapply match_bare_sound; eauto.
Qed.

(** A run of non-blank code units at the front of the output stood at the
    front of the input. *)
Lemma replace_bare_front :
  forall n s p v r,
    length s <= n ->
    Forall (fun y => is_ws y = false) v ->
    replace_go re_bare [] 0 p s = v ++ r ->
    exists r', s = v ++ r'.
Proof.
  induction n as [|n IH]; intros s p v r Hn Hv E.
  - destruct s; [|simpl in Hn; lia]. rewrite replace_bare_nil in E.
    symmetry in E. apply app_eq_nil in E. destruct E as [-> _]. exists []. reflexivity.
  - destruct v as [|y v]; [exists s; reflexivity|].
    inversion Hv as [|? ? Hy Hv']; subst.
    destruct (match_at re_bare p s) as [st|] eqn:M.
    + destruct (match_bare_complete p s (match_bare_sound _ _ _ M)) as (st' & M' & Hend & Hl).
      rewrite M in M'. inversion M'; subst st'. clear M'.
      destruct (replace_go_match re_bare [] p s st M Hl) as (p' & R).
      rewrite R in E. simpl in E.
      destruct Hend as [E0 | (c & t & E0 & Hc)]; rewrite E0 in E.
      * rewrite replace_bare_nil in E. discriminate.
      * rewrite replace_go_nomatch in E
          by (apply match_bare_none, url_head_not_ws; exact Hc).
        inversion E; subst. congruence.
    + destruct s as [|c s].
      * rewrite replace_bare_nil in E. discriminate.
      * rewrite replace_go_nomatch in E by exact M.
        inversion E; subst.
        destruct (IH s (Some y) v r) as (r' & ->); auto.
        { simpl in Hn. lia. }
        exists r'. reflexivity.
Qed.

Lemma replace_bare_no_url :
  forall n s p, length s <= n -> ~ has_url (replace_go re_bare [] 0 p s).
Proof.
  induction n as [|n IH]; intros s p Hn H.
  - destruct s; [|simpl in Hn; lia]. rewrite replace_bare_nil in H.
    apply has_url_iff in H. destruct H as (pre & suf & E & Hu).
    symmetry in E. apply app_eq_nil in E. destruct E as [_ ->].
    exact (url_head_nil Hu).
  - destruct (match_at re_bare p s) as [st|] eqn:M.
    + destruct (match_bare_complete p s (match_bare_sound _ _ _ M)) as (st' & M' & Hend & Hl).
      rewrite M in M'. inversion M'; subst st'. clear M'.
      destruct (replace_go_match re_bare [] p s st M Hl) as (p' & R).
      rewrite R in H. simpl in H. apply (IH (rest st) p'); [lia|exact H].
    + destruct s as [|c s].
      * rewrite replace_bare_nil in H.
        apply has_url_iff in H. destruct H as (pre & suf & E & Hu).
        symmetry in E. apply app_eq_nil in E. destruct E as [_ ->].
        exact (url_head_nil Hu).
      * pose proof (replace_go_nomatch re_bare [] p c s M) as R.
        apply has_url_iff in H. destruct H as (pre & suf & E & Hu).
        destruct pre as [|c' pre].
        -- simpl in E. destruct (url_head_word _ Hu) as (v & r & -> & Hv & Hv').
           destruct (replace_bare_front (S n) (c :: s) p v r Hn Hv E) as (r' & Es).
           assert (Hs : url_head (c :: s)) by (rewrite Es; now apply url_head_app).
           destruct (match_bare_complete p _ Hs) as (st & M' & _).
           congruence.
        -- rewrite R in E. inversion E; subst c'.
           apply (IH s (Some c)); [simpl in Hn; lia|].
           apply has_url_iff. exists pre, suf. auto.
Qed.

(** ** Trimming *)

Lemma trimStart_split (s : str) : exists a, s = a ++ trimStart s.
Proof.
  induction s as [|c s (a & IH)]; [exists []; reflexivity|].
  simpl. destruct (is_ws c).
  - exists (c :: a). simpl. now f_equal.
  - exists []. reflexivity.
Qed.

Lemma trimStart_head (s : str) (c : char) (r : str) :
  trimStart s = c :: r -> is_ws c = false.
Proof.
  induction s as [|x s IH]; simpl; [discriminate|].
  destruct (is_ws x) eqn:Hx; [exact IH|]. intros E. inversion E; subst. exact Hx.
Qed.

Lemma trimStart_id (s : str) :
  (forall c r, s = c :: r -> is_ws c = false) -> trimStart s = s.
Proof.
  destruct s as [|c s]; [reflexivity|]. intros H. simpl.
  now rewrite (H c s eq_refl).
Qed.

Lemma trimEnd_split (s : str) : exists b, s = trimEnd s ++ b.
Proof.
  unfold trimEnd. destruct (trimStart_split (rev s)) as (a & E).
  exists (rev a). rewrite <- rev_app_distr, <- E. now rewrite rev_involutive.
Qed.

Lemma trimEnd_last (s r : str) (c : char) :
  trimEnd s = r ++ [c] -> is_ws c = false.
Proof.
  unfold trimEnd. intros E. apply (f_equal (@rev char)) in E.
  rewrite rev_involutive, rev_app_distr in E. simpl in E.
  exact (trimStart_head _ _ _ E).
Qed.

Lemma trimEnd_id (s : str) :
  (forall r c, s = r ++ [c] -> is_ws c = false) -> trimEnd s = s.
Proof.
  intros H. unfold trimEnd. rewrite trimStart_id; [apply rev_involutive|].
  intros c r E. apply (H (rev r) c).
  rewrite <- (rev_involutive s), E. reflexivity.
Qed.

Lemma trim_split (s : str) : exists a b, s = a ++ trim s ++ b.
Proof.
  unfold trim. destruct (trimStart_split s) as (a & Ea).
  destruct (trimEnd_split (trimStart s)) as (b & Eb).
  exists a, b. now rewrite <- Eb.
Qed.

Lemma trim_trimmed (s : str) : trimmed (trim s).
Proof.
  split.
  - intros c r E. unfold trim in E.
    destruct (trimEnd_split (trimStart s)) as (b & Eb). rewrite E in Eb.
    exact (trimStart_head _ _ _ Eb).
  - intros r c E. exact (trimEnd_last _ _ _ E).
Qed.

Lemma trim_id (s : str) : trimmed s -> trim s = s.
Proof.
  intros [H1 H2]. unfold trim. rewrite (trimStart_id s H1). exact (trimEnd_id s H2).
Qed.

Lemma has_url_trim (s : str) : has_url (trim s) -> has_url s.
Proof.
  intros H. destruct (trim_split s) as (a & b & E). rewrite E.
  now apply has_url_app.
Qed.

Lemma strip_no_url (s : str) : ~ has_url (stripUrlsFromMarkdown s).
Proof.
  unfold stripUrlsFromMarkdown. intros H. apply has_url_trim in H.
  unfold replace in H. eapply replace_bare_no_url; [|exact H]. apply le_n.
Qed.

(** ** After stripping *)

Lemma strip_trimmed (s : str) : trimmed (stripUrlsFromMarkdown s).
Proof. unfold stripUrlsFromMarkdown. apply trim_trimmed. Qed.

Lemma no_url_not_found (s : str) :
  ~ has_url s ->
  ~ found re_image s /\ ~ found re_link s /\ ~ found re_refdef s /\ ~ found re_bare s.
Proof.
  intros H. repeat split; intros F; apply H.
  - exact (found_has_url _ _ lang_image_has_url F).
  - exact (found_has_url _ _ lang_link_has_url F).
  - exact (found_has_url _ _ lang_refdef_has_url F).
  - exact (found_has_url _ _ lang_bare_has_url F).
Qed.


(** With no URL and no angle-bracket match, the five rewrites change
    nothing. *)
Lemma rewrites_fixed (s : str) :
  ~ has_url s -> ~ found re_angle s ->
  replace re_bare []
    (replace re_angle []
       (replace re_refdef []
          (replace re_link [RCap 1] (replace re_image [RCap 1] s)))) = s.
Proof.
  intros H HA. destruct (no_url_not_found s H) as (H1 & H2 & H3 & H5).
  rewrite (replace_not_found re_image _ s H1).
  rewrite (replace_not_found re_link _ s H2).
  rewrite (replace_not_found re_refdef _ s H3).
  rewrite (replace_not_found re_angle _ s HA).
  exact (replace_not_found re_bare _ s H5).
Qed.

Lemma substring_0 (s : str) (n : Z) :
  (0 <= n)%Z -> substring s 0 n = firstn (Z.to_nat n) s.
Proof.
  intros Hn. unfold substring.
  set (len := Z.of_nat (length s)).
  assert (Hlen : (0 <= len)%Z) by (unfold len; lia).
  replace (Z.min (Z.max 0 0) len) with 0%Z by lia.
  replace (Z.max n 0) with n by lia.
  replace (Z.min 0 (Z.min n len)) with 0%Z by lia.
  replace (Z.max 0 (Z.min n len)) with (Z.min n len) by lia.
  rewrite Z.sub_0_r. simpl.
  destruct (Z.le_ge_cases n len) as [Hle | Hge].
  - now rewrite Z.min_l.
  - rewrite Z.min_r by exact Hge. unfold len. rewrite Nat2Z.id.
    rewrite firstn_all. symmetry. apply firstn_all2. lia.
Qed.

Lemma sanitize_prefix (x : str) :
  exists b, stripUrlsFromMarkdown x = sanitize x ++ b.
Proof.
  unfold sanitize. rewrite substring_0 by lia.
  eexists. symmetry. apply firstn_skipn.
Qed.

Lemma sanitize_length (x : str) : (Z.of_nat (length (sanitize x)) <= 80000)%Z.
Proof.
  unfold sanitize. rewrite substring_0 by lia.
  pose proof (firstn_le_length (Z.to_nat 80000) (stripUrlsFromMarkdown x)). lia.
Qed.

Lemma sanitize_no_url (x : str) : ~ has_url (sanitize x).
Proof.
  intros H. destruct (sanitize_prefix x) as (b & E).
  apply (strip_no_url x). rewrite E. now apply has_url_prefix.
Qed.

(** ** Texts without an absolute scheme *)

Lemma has_scheme_intro (a sch b : str) :
  sch = lit "http://" \/ sch = lit "https://" -> has_scheme (a ++ sch ++ b).
Proof. intros [-> | ->]; [left|right]; exists a, b; reflexivity. Qed.

Lemma has_scheme_app (a s b : str) : has_scheme s -> has_scheme (a ++ s ++ b).
Proof.
  intros [(pre & post & ->) | (pre & post & ->)]; [left|right];
    exists (a ++ pre), (post ++ b); repeat (rewrite <- ?app_assoc; simpl); reflexivity.
Qed.

Lemma has_url_scheme (s : str) : has_url s -> has_scheme s.
Proof.
  intros (pre & c & post & _ & [-> | ->]); [left|right]; exists pre, (c :: post); reflexivity.
Qed.

Lemma lang_angle_has_scheme (w : str) : lang re_angle w -> has_scheme w.
Proof.
  intros L. destruct (lang_angle_inv _ L) as (sch & x & u & Hs & _ & ->).
  exact (has_scheme_intro (lit "<") sch (x :: u) Hs).
Qed.

Lemma no_scheme_not_found (s : str) :
  ~ has_scheme s ->
  ~ found re_image s /\ ~ found re_link s /\ ~ found re_refdef s /\
  ~ found re_angle s /\ ~ found re_bare s.
Proof.
  intros H.
  assert (HU : ~ has_url s) by (intros U; exact (H (has_url_scheme _ U))).
  destruct (no_url_not_found s HU) as (H1 & H2 & H3 & H5).
  repeat split; try assumption.
  intros F. destruct (found_word _ _ F) as (pre & w & post & -> & L).
  apply H, has_scheme_app, lang_angle_has_scheme, L.
Qed.


(** ** What a link or an image is replaced by *)

Lemma exec_star_greedy (c : cls) (cs : list (nat * str)) (k : cont) :
  forall t p R res,
    Forall (fun y => cls_mem c y = true) t ->
    (R = [] \/ exists y R', R = y :: R' /\ cls_mem c y = false) ->
    k (MState (prev_after p t) R cs) = Some res ->
    exec_star c cs k p (t ++ R) = Some res.
Proof.
  induction t as [|x t IH]; intros p R res Ht HR Hk.
  - simpl in *. destruct HR as [-> | (y & R' & -> & Hy)]; simpl.
    + exact Hk.
    + rewrite Hy. exact Hk.
  - inversion Ht as [|? ? Hx Ht']; subst. simpl. rewrite Hx.
    rewrite (IH (Some x) R res Ht' HR Hk). reflexivity.
Qed.

Lemma exec_Seq_intro (r1 r2 : regex) (st : mstate) (k : cont) (res : mstate) :
  exec r1 st (fun st' => exec r2 st' k) = Some res -> exec (Seq r1 r2) st k = Some res.
Proof. exact (fun H => H). Qed.

Lemma exec_Group_intro (i : nat) (r : regex) (st : mstate) (k : cont) (res : mstate) :
  exec r st (fun st' =>
    k (MState (prev st') (rest st')
         ((i, firstn (length (rest st) - length (rest st')) (rest st)) :: caps st'))) = Some res ->
  exec (Group i r) st k = Some res.
Proof. exact (fun H => H). Qed.

Lemma exec_Lit_intro (l : str) :
  forall p s cs k res,
    k (MState (prev_after p l) s cs) = Some res ->
    exec (Lit l) (MState p (l ++ s) cs) k = Some res.
Proof.
  induction l as [|c l IH]; intros p s cs k res H; simpl.
  - exact H.
  - rewrite N.eqb_refl. apply IH. exact H.
Qed.

Lemma exec_Group_Star_intro (i : nat) (c : cls) (p : option char) (t R : str)
      (cs : list (nat * str)) (k : cont) (res : mstate) :
  Forall (fun y => cls_mem c y = true) t ->
  (R = [] \/ exists y R', R = y :: R' /\ cls_mem c y = false) ->
  k (MState (prev_after p t) R ((i, t) :: cs)) = Some res ->
  exec (Group i (Star c)) (MState p (t ++ R) cs) k = Some res.
Proof.
  intros Ht HR Hk. simpl. apply exec_star_greedy; [exact Ht|exact HR|].
  simpl. rewrite length_app, Nat.add_sub, firstn_app, Nat.sub_diag, firstn_all.
  simpl. rewrite app_nil_r. exact Hk.
Qed.

Lemma exec_scheme_intro (sch : str) (p : option char) (s : str)
      (cs : list (nat * str)) (k : cont) (res : mstate) :
  sch = lit "http://" \/ sch = lit "https://" ->
  k (MState (Some (chr "/")) s cs) = Some res ->
  exec scheme (MState p (sch ++ s) cs) k = Some res.
Proof.
  intros [-> | ->] H; unfold scheme; simpl.
  - exact H.
  - change (Some 47%N) with (Some (chr "/")). rewrite H. reflexivity.
Qed.

Lemma exec_Plus_intro (c : cls) (p : option char) (x : char) (u R : str)
      (cs : list (nat * str)) (k : cont) (res : mstate) :
  Forall (fun y => cls_mem c y = true) (x :: u) ->
  (R = [] \/ exists y R', R = y :: R' /\ cls_mem c y = false) ->
  k (MState (prev_after (Some x) u) R cs) = Some res ->
  exec (Plus c) (MState p (x :: u ++ R) cs) k = Some res.
Proof.
  intros Hu HR Hk. inversion Hu as [|? ? Hx Hu']; subst.
  unfold Plus. simpl. rewrite Hx. apply exec_star_greedy; assumption.
Qed.

Lemma exec_title_opt_skip (p : option char) (s : str)
      (cs : list (nat * str)) (k : cont) :
  exec title_opt (MState p (chr ")" :: s) cs) k = k (MState p (chr ")" :: s) cs).
Proof. reflexivity. Qed.

Lemma cls_not_char_intro (c y : char) : y <> c -> cls_mem (Not [Ch c]) y = true.
Proof.
  intros H. simpl. apply N.eqb_neq in H. now rewrite H.
Qed.

Lemma cls_url_char_intro (y : char) :
  is_ws y = false -> y <> chr ")" -> cls_mem (Not [WS; Ch (chr ")")]) y = true.
Proof.
  intros H1 H2. apply N.eqb_neq in H2. simpl in *. now rewrite H1, H2.
Qed.



Lemma lang_image_bang (w : str) :
  lang re_image w -> exists r, w = chr "!" :: chr "[" :: r.
Proof.
  intros L. destruct (lang_image_inv _ L) as (sch & x & t & u & _ & _ & _ & ->).
  eexists. reflexivity.
Qed.

Lemma lang_link_bracket (w : str) :
  lang re_link w -> exists r, w = chr "[" :: r.
Proof.
  intros L. destruct (lang_link_inv _ L) as (sch & x & t & u & _ & _ & _ & ->).
  eexists. reflexivity.
Qed.

Lemma lang_refdef_bracket (w : str) :
  lang re_refdef w -> exists r, w = chr "[" :: r.
Proof.
  intros L. destruct (lang_refdef_inv _ L) as (sch & x & t & u & _ & _ & ->).
  eexists. reflexivity.
Qed.

(** Without an opening bracket neither the image nor the link rule fires. *)
Lemma no_bracket_not_found (t : str) :
  ~ In (chr "[") t -> ~ found re_image t /\ ~ found re_link t.
Proof.
  intros H. split; intros F; apply H;
    destruct (found_word _ _ F) as (pre & w & post & -> & L).
  - destruct (lang_image_bang _ L) as (r & ->).
    apply in_or_app. right. simpl. auto.
  - destruct (lang_link_bracket _ L) as (r & ->).
    apply in_or_app. right. simpl. auto.
Qed.



(** ** The request URL *)

Ltac divmod x d :=
  pose proof (N.Div0.div_mod x d); pose proof (N.mod_lt x d ltac:(discriminate));
  pose proof (N.le_0_l (x / d)); pose proof (N.le_0_l (x mod d)).

Lemma unescaped_digit (c : char) : (48 <= c <= 57)%N -> is_uri_unescaped c = true.
Proof.
  intros [H1 H2]. apply N.leb_le in H1, H2. unfold is_uri_unescaped.
  rewrite H1, H2. simpl. rewrite !orb_true_r. reflexivity.
Qed.

Lemma unescaped_upper (c : char) : (65 <= c <= 90)%N -> is_uri_unescaped c = true.
Proof.
  intros [H1 H2]. apply N.leb_le in H1, H2. unfold is_uri_unescaped.
  rewrite H1, H2. reflexivity.
Qed.

Lemma unescaped_small (c : char) : is_uri_unescaped c = true -> (c < 128)%N.
Proof.
  unfold is_uri_unescaped. intros H.
  repeat (apply orb_true_iff in H; destruct H as [H | H]);
    try (apply andb_true_iff in H; destruct H as [_ H]; apply N.leb_le in H; lia);
    try (apply N.eqb_eq in H; subst c; reflexivity);
    try discriminate H.
Qed.

Lemma lead_range (c : char) : is_lead_surrogate c = true <-> (55296 <= c <= 56319)%N.
Proof.
  unfold is_lead_surrogate. rewrite andb_true_iff, !N.leb_le. tauto.
Qed.

Lemma trail_range (c : char) : is_trail_surrogate c = true <-> (56320 <= c <= 57343)%N.
Proof.
  unfold is_trail_surrogate. rewrite andb_true_iff, !N.leb_le. tauto.
Qed.

Lemma lead_not_trail (c : char) : is_lead_surrogate c = true -> is_trail_surrogate c = false.
Proof.
  intros H. apply lead_range in H. destruct (is_trail_surrogate c) eqn:T; [|reflexivity].
  apply trail_range in T. lia.
Qed.

Lemma trail_not_lead (c : char) : is_trail_surrogate c = true -> is_lead_surrogate c = false.
Proof.
  intros H. apply trail_range in H. destruct (is_lead_surrogate c) eqn:T; [|reflexivity].
  apply lead_range in T. lia.
Qed.

Lemma unescaped_not_surrogate (c : char) :
  is_uri_unescaped c = true -> is_lead_surrogate c = false /\ is_trail_surrogate c = false.
Proof.
  intros H. apply unescaped_small in H. split.
  - destruct (is_lead_surrogate c) eqn:T; [|reflexivity]. apply lead_range in T. lia.
  - destruct (is_trail_surrogate c) eqn:T; [|reflexivity]. apply trail_range in T. lia.
Qed.

Lemma surrogate_pair_range (c d : char) :
  is_lead_surrogate c = true -> is_trail_surrogate d = true ->
  (65536 <= surrogate_pair c d < 1114112)%N.
Proof.
  intros Hc Hd. apply lead_range in Hc. apply trail_range in Hd.
  unfold surrogate_pair. lia.
Qed.

Lemma surrogate_pair_inj (c1 d1 c2 d2 : char) :
  is_lead_surrogate c1 = true -> is_trail_surrogate d1 = true ->
  is_lead_surrogate c2 = true -> is_trail_surrogate d2 = true ->
  surrogate_pair c1 d1 = surrogate_pair c2 d2 -> c1 = c2 /\ d1 = d2.
Proof.
  intros Hc1 Hd1 Hc2 Hd2. apply lead_range in Hc1, Hc2. apply trail_range in Hd1, Hd2.
  unfold surrogate_pair. lia.
Qed.

(** *** Octets and their hexadecimal form *)

Lemma hex_digit_unescaped (n : N) : (n < 16)%N -> is_uri_unescaped (hex_digit n) = true.
Proof.
  intros H. unfold hex_digit. destruct (n <? 10)%N eqn:E.
  - apply N.ltb_lt in E. apply unescaped_digit. lia.
  - apply N.ltb_ge in E. apply unescaped_upper. lia.
Qed.

Lemma hex_digit_inj (n m : N) :
  (n < 16)%N -> (m < 16)%N -> hex_digit n = hex_digit m -> n = m.
Proof.
  unfold hex_digit. intros Hn Hm.
  destruct (n <? 10)%N eqn:En; destruct (m <? 10)%N eqn:Em;
    rewrite ?N.ltb_lt, ?N.ltb_ge in *; lia.
Qed.

Lemma percent_octet_safe (b : N) : (b < 256)%N -> Forall uri_safe (percent_octet b).
Proof.
  intros H. divmod b 16%N. unfold percent_octet.
  constructor; [right; reflexivity|].
  constructor; [left; apply hex_digit_unescaped; lia|].
  constructor; [left; apply hex_digit_unescaped; lia|constructor].
Qed.

Lemma percent_octet_inj (a b : N) (r1 r2 : str) :
  (a < 256)%N -> (b < 256)%N ->
  percent_octet a ++ r1 = percent_octet b ++ r2 -> a = b /\ r1 = r2.
Proof.
  intros Ha Hb E. unfold percent_octet in E. simpl in E.
  inversion E as [[E1 E2 E3]]. divmod a 16%N. divmod b 16%N.
  apply hex_digit_inj in E1; [|lia|lia].
  apply hex_digit_inj in E2; [|lia|lia].
  split; [lia|reflexivity].
Qed.

Lemma octets_inj :
  forall bs1 bs2 r1 r2,
    Forall (fun b => (b < 256)%N) bs1 -> Forall (fun b => (b < 256)%N) bs2 ->
    length bs1 = length bs2 ->
    flat_map percent_octet bs1 ++ r1 = flat_map percent_octet bs2 ++ r2 ->
    bs1 = bs2 /\ r1 = r2.
Proof.
  induction bs1 as [|a bs1 IH]; intros [|b bs2] r1 r2 H1 H2 Hl E; try discriminate.
  - auto.
  - inversion H1; inversion H2; subst. cbn [flat_map] in E. rewrite <- !app_assoc in E.
    apply percent_octet_inj in E; [|assumption|assumption].
    destruct E as [-> E]. simpl in Hl. injection Hl as Hl.
    destruct (IH bs2 r1 r2) as [-> ->]; auto.
Qed.

(** *** The UTF-8 form *)

Lemma utf8_cases (cp : N) :
  ((cp < 128)%N /\ utf8 cp = [cp]) \/
  ((128 <= cp < 2048)%N /\ utf8 cp = [192 + cp / 64; 128 + cp mod 64]%N) \/
  ((2048 <= cp < 65536)%N /\
   utf8 cp = [224 + cp / 4096; 128 + (cp / 64) mod 64; 128 + cp mod 64]%N) \/
  ((65536 <= cp)%N /\
   utf8 cp = [240 + cp / 262144; 128 + (cp / 4096) mod 64; 128 + (cp / 64) mod 64;
              128 + cp mod 64]%N).
Proof.
  unfold utf8.
  destruct (cp <? 128)%N eqn:E1; [apply N.ltb_lt in E1; auto|apply N.ltb_ge in E1].
  destruct (cp <? 2048)%N eqn:E2; [apply N.ltb_lt in E2; auto|apply N.ltb_ge in E2].
  destruct (cp <? 65536)%N eqn:E3; [apply N.ltb_lt in E3|apply N.ltb_ge in E3].
  - right. right. left. auto.
  - right. right. right. auto.
Qed.

Ltac utf8_facts cp :=
  divmod cp 64%N; divmod cp 4096%N; divmod cp 262144%N;
  divmod (cp / 64)%N 64%N; divmod (cp / 4096)%N 64%N;
  assert (cp / 4096 = cp / 64 / 64)%N by (rewrite N.Div0.div_div; reflexivity);
  assert (cp / 262144 = cp / 4096 / 64)%N by (rewrite N.Div0.div_div; reflexivity).

Lemma utf8_octets (cp : N) :
  (cp < 2097152)%N -> Forall (fun b => (b < 256)%N) (utf8 cp).
Proof.
  intros H. utf8_facts cp.
  destruct (utf8_cases cp) as [[R ->] | [[R ->] | [[R ->] | [R ->]]]];
    repeat constructor; lia.
Qed.

Lemma utf8_length (cp : N) :
  1 <= length (utf8 cp) <= 4 /\ ((cp < 65536)%N -> length (utf8 cp) <= 3).
Proof.
  destruct (utf8_cases cp) as [[R ->] | [[R ->] | [[R ->] | [R ->]]]]; simpl; lia.
Qed.

Lemma utf8_length_by_head (cp1 cp2 : N) :
  (cp1 < 2097152)%N -> (cp2 < 2097152)%N ->
  hd 0%N (utf8 cp1) = hd 0%N (utf8 cp2) -> length (utf8 cp1) = length (utf8 cp2).
Proof.
  intros H1 H2. utf8_facts cp1. utf8_facts cp2.
  destruct (utf8_cases cp1) as [[R1 ->] | [[R1 ->] | [[R1 ->] | [R1 ->]]]];
    destruct (utf8_cases cp2) as [[R2 ->] | [[R2 ->] | [[R2 ->] | [R2 ->]]]];
    cbn [hd length]; intros E; try reflexivity; exfalso; lia.
Qed.

Lemma utf8_inj (cp1 cp2 : N) :
  (cp1 < 2097152)%N -> (cp2 < 2097152)%N -> utf8 cp1 = utf8 cp2 -> cp1 = cp2.
Proof.
  intros H1 H2. utf8_facts cp1. utf8_facts cp2.
  destruct (utf8_cases cp1) as [[R1 ->] | [[R1 ->] | [[R1 ->] | [R1 ->]]]];
    destruct (utf8_cases cp2) as [[R2 ->] | [[R2 ->] | [[R2 ->] | [R2 ->]]]];
    intros E; try discriminate E;
    pose proof (f_equal (fun l => nth 0 l 0%N) E) as E0;
    pose proof (f_equal (fun l => nth 1 l 0%N) E) as E1;
    pose proof (f_equal (fun l => nth 2 l 0%N) E) as E2;
    pose proof (f_equal (fun l => nth 3 l 0%N) E) as E3;
    cbn [nth] in E0, E1, E2, E3; lia.
Qed.

Lemma escape_head (cp : N) : exists t, escape cp = chr "%" :: t.
Proof.
  unfold escape.
  destruct (utf8_cases cp) as [[R ->] | [[R ->] | [[R ->] | [R ->]]]];
    eexists; reflexivity.
Qed.

Lemma escape_safe (cp : N) : (cp < 2097152)%N -> Forall uri_safe (escape cp).
Proof.
  intros H. unfold escape. apply Forall_flat_map.
  eapply Forall_impl; [|exact (utf8_octets cp H)].
  intros b Hb. apply percent_octet_safe. exact Hb.
Qed.

Lemma escape_length (cp : N) : length (escape cp) = 3 * length (utf8 cp).
Proof.
  unfold escape. induction (utf8 cp) as [|b bs IH]; [reflexivity|].
  cbn [flat_map]. rewrite length_app, IH. simpl. lia.
Qed.

Lemma escape_inj (cp1 cp2 : N) (r1 r2 : str) :
  (cp1 < 2097152)%N -> (cp2 < 2097152)%N ->
  escape cp1 ++ r1 = escape cp2 ++ r2 -> cp1 = cp2 /\ r1 = r2.
Proof.
  intros H1 H2 E. unfold escape in E.
  pose proof (utf8_octets cp1 H1) as O1. pose proof (utf8_octets cp2 H2) as O2.
  assert (Hl : length (utf8 cp1) = length (utf8 cp2)).
  { apply utf8_length_by_head; [assumption|assumption|].
    destruct (utf8 cp1) as [|a bs1] eqn:U1.
    { pose proof (utf8_length cp1) as L. rewrite U1 in L. simpl in L. lia. }
    destruct (utf8 cp2) as [|b bs2] eqn:U2.
    { pose proof (utf8_length cp2) as L. rewrite U2 in L. simpl in L. lia. }
    cbn [hd]. cbn [flat_map] in E. rewrite <- !app_assoc in E.
    inversion O1; inversion O2; subst.
    apply percent_octet_inj in E; [|assumption|assumption]. tauto. }
  destruct (octets_inj _ _ _ _ O1 O2 Hl E) as [Eu Er].
  split; [|exact Er]. apply utf8_inj; assumption.
Qed.

(** *** The encoder, step by step *)

Lemma encodes_nonempty (k out : str) : encodes k out -> k <> [] /\ out <> [].
Proof.
  intros H. destruct H as [c U | c U L T | c d U L T]; split; try discriminate.
  - destruct (escape_head c) as (t & ->). discriminate.
  - destruct (escape_head (surrogate_pair c d)) as (t & ->). discriminate.
Qed.

Lemma encode_step (s e : str) :
  encodeURIComponent s = Some e ->
  (s = [] /\ e = []) \/
  exists k out s' e',
    s = k ++ s' /\ e = out ++ e' /\ encodes k out /\ encodeURIComponent s' = Some e'.
Proof.
  destruct s as [|c s']; cbn [encodeURIComponent].
  - intros H. inversion H. auto.
  - intros H. right. destruct (is_uri_unescaped c) eqn:U.
    + destruct (encodeURIComponent s') as [e'|] eqn:E'; [|discriminate].
      inversion H; subst. exists [c], [c], s', e'.
      repeat split; try reflexivity; try assumption. now constructor.
    + destruct (is_lead_surrogate c) eqn:L.
      * destruct s' as [|d s'']; [discriminate|].
        destruct (is_trail_surrogate d) eqn:T; [|discriminate].
        destruct (encodeURIComponent s'') as [e'|] eqn:E'; [|discriminate].
        inversion H; subst. exists [c; d], (escape (surrogate_pair c d)), s'', e'.
        repeat split; try reflexivity; try assumption. now constructor.
      * destruct (is_trail_surrogate c) eqn:T; [discriminate|].
        destruct (encodeURIComponent s') as [e'|] eqn:E'; [|discriminate].
        inversion H; subst. exists [c], (escape c), s', e'.
        repeat split; try reflexivity; try assumption. now constructor.
Qed.

Lemma encode_ind (P : str -> str -> Prop) :
  P [] [] ->
  (forall k out s' e',
      encodes k out -> encodeURIComponent s' = Some e' -> P s' e' ->
      P (k ++ s') (out ++ e')) ->
  forall s e, encodeURIComponent s = Some e -> P s e.
Proof.
  intros H0 Hstep s.
  assert (G : forall n s e, length s <= n -> encodeURIComponent s = Some e -> P s e).
  { clear s. induction n as [|n IH]; intros s e Hn He.
    - destruct s; [|simpl in Hn; lia]. inversion He. exact H0.
    - destruct (encode_step s e He) as [[-> ->] | (k & out & s' & e' & -> & -> & Hk & He')];
        [exact H0|].
      apply Hstep; [exact Hk|exact He'|]. apply IH; [|exact He'].
      destruct (encodes_nonempty k out Hk) as [Hne _].
      rewrite length_app in Hn. destruct k; [congruence|]. simpl in Hn. lia. }
  intros e. apply (G (length s)). lia.
Qed.

Lemma encodes_safe (k out : str) :
  encodes k out -> code_units k -> Forall uri_safe out /\ length out <= 9 * length k.
Proof.
  intros H Hk. destruct H as [c U | c U L T | c d U L T].
  - split; [constructor; [left; exact U|constructor]|simpl; lia].
  - inversion Hk; subst. split.
    + apply escape_safe. lia.
    + rewrite escape_length. destruct (utf8_length c) as [_ H3].
      specialize (H3 ltac:(assumption)). simpl. lia.
  - pose proof (surrogate_pair_range c d L T) as R. split.
    + apply escape_safe. lia.
    + rewrite escape_length. destruct (utf8_length (surrogate_pair c d)) as [[_ H4] _].
      simpl. lia.
Qed.

Lemma encodes_inj (k1 o1 k2 o2 r1 r2 : str) :
  encodes k1 o1 -> encodes k2 o2 -> code_units k1 -> code_units k2 ->
  o1 ++ r1 = o2 ++ r2 -> k1 = k2 /\ r1 = r2.
Proof.
  intros H1 H2 C1 C2 E.
  destruct H1 as [c1 U1 | c1 U1 L1 T1 | c1 d1 U1 L1 T1];
    destruct H2 as [c2 U2 | c2 U2 L2 T2 | c2 d2 U2 L2 T2].
  - inversion E; subst. auto.
  - destruct (escape_head c2) as (t & Et). rewrite Et in E. inversion E; subst.
    vm_compute in U1. discriminate U1.
  - destruct (escape_head (surrogate_pair c2 d2)) as (t & Et). rewrite Et in E.
    inversion E; subst. vm_compute in U1. discriminate U1.
  - destruct (escape_head c1) as (t & Et). rewrite Et in E. inversion E; subst.
    vm_compute in U2. discriminate U2.
  - inversion C1; inversion C2; subst.
    apply escape_inj in E; [|lia|lia]. destruct E as [-> ->]. auto.
  - inversion C1; subst. pose proof (surrogate_pair_range c2 d2 L2 T2) as R.
    apply escape_inj in E; [|lia|lia]. lia.
  - destruct (escape_head (surrogate_pair c1 d1)) as (t & Et). rewrite Et in E.
    inversion E; subst. vm_compute in U2. discriminate U2.
  - inversion C2; subst. pose proof (surrogate_pair_range c1 d1 L1 T1) as R.
    apply escape_inj in E; [|lia|lia]. lia.
  - pose proof (surrogate_pair_range c1 d1 L1 T1) as R1.
    pose proof (surrogate_pair_range c2 d2 L2 T2) as R2.
    apply escape_inj in E; [|lia|lia]. destruct E as [E ->].
    apply surrogate_pair_inj in E; try assumption. destruct E as [-> ->]. auto.
Qed.

Lemma code_units_app (a b : str) : code_units (a ++ b) <-> code_units a /\ code_units b.
Proof. apply Forall_app. Qed.

Lemma encode_safe (s e : str) :
  encodeURIComponent s = Some e -> code_units s ->
  Forall uri_safe e /\ length e <= 9 * length s.
Proof.
  revert s e. apply (encode_ind (fun s e => code_units s ->
                        Forall uri_safe e /\ length e <= 9 * length s)).
  - intros _. split; [constructor|simpl; lia].
  - intros k out s' e' Hk _ IH C. apply code_units_app in C. destruct C as [Ck Cs].
    destruct (encodes_safe k out Hk Ck) as [S1 L1]. destruct (IH Cs) as [S2 L2].
    split; [apply Forall_app; auto|rewrite !length_app; lia].
Qed.

Lemma encode_inj (s1 e : str) :
  encodeURIComponent s1 = Some e ->
  forall s2, code_units s1 -> code_units s2 -> encodeURIComponent s2 = Some e -> s1 = s2.
Proof.
  revert s1 e. apply (encode_ind (fun s1 e => forall s2, code_units s1 -> code_units s2 ->
                        encodeURIComponent s2 = Some e -> s1 = s2)).
  - intros s2 _ _ H2.
    destruct (encode_step s2 [] H2) as [[-> _] | (k & out & s' & e' & _ & E & Hk & _)];
      [reflexivity|].
    destruct (encodes_nonempty k out Hk) as [_ Hne].
    destruct out; [congruence|discriminate].
  - intros k out s' e' Hk _ IH s2 C1 C2 H2.
    destruct (encodes_nonempty k out Hk) as [_ Hne].
    destruct (encode_step s2 _ H2) as [[_ E] | (k2 & out2 & s2' & e2' & -> & E & Hk2 & He2)].
    + destruct out; [congruence|discriminate].
    + apply code_units_app in C1, C2. destruct C1 as [Ck Cs]. destruct C2 as [Ck2 Cs2].
      destruct (encodes_inj k out k2 out2 e' e2' Hk Hk2 Ck Ck2 E) as [-> ->].
      f_equal. apply IH; assumption.
Qed.

Lemma encode_plain :
  forall s, Forall (fun c => is_uri_unescaped c = true) s -> encodeURIComponent s = Some s.
Proof.
  induction s as [|c s IH]; intros H; [reflexivity|].
  inversion H as [|? ? Hc Hs]; subst. cbn [encodeURIComponent].
  rewrite Hc, (IH Hs). reflexivity.
Qed.

(** *** Surrogates without partner *)

Lemma last_cons_default {A : Type} (c : A) :
  forall l p, last (c :: l) p = last l c.
Proof.
  induction l as [|x l IH]; intros p; [reflexivity|].
  change (last (c :: x :: l) p) with (last (x :: l) p).
  destruct l as [|y l]; [reflexivity|].
  change (last (x :: y :: l) p) with (last (y :: l) p).
  change (last (x :: y :: l) c) with (last (y :: l) c).
  rewrite <- (IH p). reflexivity.
Qed.

Lemma lone_skip_unit (p c : char) (s : str) :
  is_lead_surrogate c = false -> is_trail_surrogate c = false ->
  (lone_surrogate_from p (c :: s) <-> lone_surrogate_from c s).
Proof.
  intros L T. split.
  - intros [(pre & x & post & E & Hx & Hp) | (pre & x & post & E & Hx & Hp)].
    + destruct pre as [|y pre]; simpl in E; inversion E; subst; [congruence|].
      left. exists pre, x, post. auto.
    + destruct pre as [|y pre]; simpl in E; inversion E; subst; [congruence|].
      right. exists pre, x, post. rewrite last_cons_default in Hp. auto.
  - intros [(pre & x & post & -> & Hx & Hp) | (pre & x & post & -> & Hx & Hp)].
    + left. exists (c :: pre), x, post. auto.
    + right. exists (c :: pre), x, post. rewrite last_cons_default. auto.
Qed.

Lemma lone_skip_pair (p c d : char) (s : str) :
  is_lead_surrogate c = true -> is_trail_surrogate d = true ->
  (lone_surrogate_from p (c :: d :: s) <-> lone_surrogate_from d s).
Proof.
  intros L T.
  pose proof (lead_not_trail c L) as Tc. pose proof (trail_not_lead d T) as Ld.
  split.
  - intros [(pre & x & post & E & Hx & Hp) | (pre & x & post & E & Hx & Hp)].
    + destruct pre as [|y pre]; simpl in E; inversion E; subst.
      { simpl in Hp. congruence. }
      destruct pre as [|z pre]; simpl in *; inversion H1; subst; [congruence|].
      left. exists pre, x, post. auto.
    + destruct pre as [|y pre]; simpl in E; inversion E; subst; [congruence|].
      destruct pre as [|z pre]; simpl in H1; inversion H1; subst.
      { simpl in Hp. congruence. }
      right. exists pre, x, post. rewrite !last_cons_default in Hp. auto.
  - intros [(pre & x & post & -> & Hx & Hp) | (pre & x & post & -> & Hx & Hp)].
    + left. exists (c :: d :: pre), x, post. auto.
    + right. exists (c :: d :: pre), x, post. rewrite !last_cons_default. auto.
Qed.

Lemma option_map_None {A B : Type} (f : A -> B) (o : option A) :
  option_map f o = None <-> o = None.
Proof. destruct o; simpl; split; congruence. Qed.

Lemma encode_fails_from :
  forall n s p,
    length s <= n -> is_lead_surrogate p = false ->
    (encodeURIComponent s = None <-> lone_surrogate_from p s).
Proof.
  induction n as [|n IH]; intros s p Hn Hp.
  - destruct s; [|simpl in Hn; lia]. split; [discriminate|].
    intros [(pre & x & post & E & _) | (pre & x & post & E & _)];
      destruct pre; discriminate.
  - destruct s as [|c s'].
    { split; [discriminate|].
      intros [(pre & x & post & E & _) | (pre & x & post & E & _)];
        destruct pre; discriminate. }
    simpl in Hn. cbn [encodeURIComponent].
    destruct (is_uri_unescaped c) eqn:U.
    + destruct (unescaped_not_surrogate c U) as [L T].
      rewrite option_map_None, (lone_skip_unit p c s' L T).
      apply IH; [lia|exact L].
    + destruct (is_lead_surrogate c) eqn:L.
      * destruct s' as [|d s''].
        { split; [intros _|reflexivity]. left. exists [], c, []. auto. }
        destruct (is_trail_surrogate d) eqn:T.
        -- rewrite option_map_None, (lone_skip_pair p c d s'' L T).
           apply IH; [simpl in Hn; lia|apply trail_not_lead; exact T].
        -- split; [intros _|reflexivity]. left. exists [], c, (d :: s''). auto.
      * destruct (is_trail_surrogate c) eqn:T.
        -- split; [intros _|reflexivity]. right. exists [], c, s'. auto.
        -- rewrite option_map_None, (lone_skip_unit p c s' L T).
           apply IH; [lia|exact L].
Qed.

Lemma split_at_front (sep : char) :
  forall a b, ~ In sep a -> split_at sep (a ++ sep :: b) = a :: split_at sep b.
Proof.
  induction a as [|c a IH]; intros b H.
  - simpl. rewrite N.eqb_refl. reflexivity.
  - simpl. assert (Hc : N.eqb c sep = false).
    { apply N.eqb_neq. intros ->. apply H. left. reflexivity. }
    rewrite Hc, IH; [reflexivity|]. intros Hin. apply H. right. exact Hin.
Qed.

Lemma split_at_none (sep : char) :
  forall a, ~ In sep a -> split_at sep a = [a].
Proof.
  induction a as [|c a IH]; intros H; [reflexivity|].
  simpl. assert (Hc : N.eqb c sep = false).
  { apply N.eqb_neq. intros ->. apply H. left. reflexivity. }
  rewrite Hc, IH; [reflexivity|]. intros Hin. apply H. right. exact Hin.
Qed.

Lemma uri_safe_not_In (c : char) (q : str) :
  is_uri_unescaped c = false -> c <> chr "%" -> Forall uri_safe q -> ~ In c q.
Proof.
  intros U P H Hin. rewrite Forall_forall in H. destruct (H c Hin); congruence.
Qed.

(** ** The search reply *)

Lemma mapM_strings (f : value -> option value) :
  (forall v, f v = match v with VStr _ => Some v | _ => None end) ->
  forall l l',
    mapM f l = Some l' -> l' = l /\ exists ss, mapM as_str l = Some ss.
Proof.
  intros Hf. induction l as [|v l IH]; intros l' H; cbn [mapM] in H.
  - inversion H. split; [reflexivity|]. exists []. reflexivity.
  - rewrite Hf in H. destruct v; try discriminate.
    destruct (mapM f l) as [m|] eqn:E; [|discriminate].
    inversion H; subst. destruct (IH m eq_refl) as (-> & ss & Hs).
    split; [reflexivity|]. exists (s :: ss). simpl. rewrite Hs. reflexivity.
Qed.

(** A well-formed entry goes through the mapping of line 51, the second
    schema and the typing, and keeps its url, title and favicon. *)
Lemma entry_pipeline (e e' : value) :
  zparse braveResultSchema e = Some e' ->
  exists r' r'' h,
    toParsedResult e' = Ok r' /\ zparse searchResultSchema r' = Some r'' /\
    as_SearchResult r'' = Some h /\ hit_of_entry e h.
Proof.
  intros H. destruct e as [ | | | | | |f]; try discriminate.
  unfold braveResultSchema in H. simpl in H.
  destruct (get "url" f) as [ | | | |su| | ] eqn:Eu; try discriminate.
  destruct (get "title" f) as [ | | | |st| | ] eqn:Et; try discriminate.
  destruct (get "meta_url" f) as [ | | | | | |m] eqn:Em; try discriminate.
  destruct (get "favicon" m) as [ | | | |sf| | ] eqn:Ef; try discriminate.
  simpl in H.
  assert (Hhit : forall ex th,
            hit_of_entry (VObj f)
              {| title := st; url := su; favicon := sf;
                 extraSnippets := ex; thumbnail := th |}).
  { intros ex th. exists f, m. simpl. auto. }
  destruct (get "extra_snippets" f) as [ | | | | |l| ] eqn:Ex; try discriminate;
    try (destruct (mapM _ l) as [l'|] eqn:El; simpl in H; [|discriminate];
         pose proof El as El2;
         apply mapM_strings in El; [|intros []; reflexivity];
         destruct El as (-> & ss & Hss));
    (destruct (get "thumbnail" f) as [ | | | | | |t] eqn:Eth; try discriminate);
    try (destruct (get "original" t) as [ | | | |so| | ] eqn:Eo; try discriminate);
    simpl in H;
    try (destruct (has_key "thumbnail" f));
    simpl in H; inversion H; subst; clear H;
    (eexists _, _, _; split; [reflexivity|]; simpl).
  all: try rewrite El2; simpl; try rewrite Hss.
  all: split; [reflexivity|split; [simpl; try rewrite Hss; reflexivity|apply Hhit]].
Qed.

Lemma parse_all_entries (es : list value) :
  forallb well_formed_entry es = true ->
  exists es' rs' rs'' hits,
    mapM (zparse braveResultSchema) es = Some es' /\
    mapR toParsedResult es' = Ok rs' /\
    mapM (zparse searchResultSchema) rs' = Some rs'' /\
    mapM as_SearchResult rs'' = Some hits /\
    Forall2 hit_of_entry es hits.
Proof.
  induction es as [|e es IH]; intros H.
  - exists [], [], [], []. repeat split; constructor.
  - cbn [forallb] in H. apply andb_true_iff in H. destruct H as [He Hes].
    unfold well_formed_entry in He.
    destruct (zparse braveResultSchema e) as [e'|] eqn:Ee; [|discriminate].
    destruct (entry_pipeline e e' Ee) as (r' & r'' & h & H1 & H2 & H3 & H4).
    destruct (IH Hes) as (es' & rs' & rs'' & hits & I1 & I2 & I3 & I4 & I5).
    exists (e' :: es'), (r' :: rs'), (r'' :: rs''), (h :: hits).
    cbn [mapM mapR]. rewrite Ee, I1, H1, I2, H2, I3, H3, I4.
    repeat split; try reflexivity. constructor; assumption.
Qed.

Lemma parse_bad_entry (es : list value) :
  forallb well_formed_entry es = false ->
  mapM (zparse braveResultSchema) es = None.
Proof.
  induction es as [|e es IH]; intros H; [discriminate|].
  cbn [forallb] in H. cbn [mapM]. unfold well_formed_entry in H at 1.
  destruct (zparse braveResultSchema e); [|reflexivity].
  simpl in H. rewrite (IH H). reflexivity.
Qed.

(** The top-level schema: the reply must hold an array at [web.results],
    and every element must pass the element schema. *)
Lemma zparse_response (elem : schema) (j : value) :
  zparse (ZObject [("web", ZObject [("results", ZArray elem)])]%string) j =
  match entries_of j with
  | Some es =>
      option_map
        (fun es' => VObj [("web", VObj [("results", VArr es')])]%string)
        (mapM (zparse elem) es)
  | None => None
  end.
Proof.
  destruct j as [ | | | | | |f]; try reflexivity.
  simpl. destruct (get "web" f) as [ | | | | | |w]; try reflexivity.
  destruct (get "results" w) as [ | | | | |l| ]; try reflexivity.
  destruct (mapM (zparse elem) l); reflexivity.
Qed.

Lemma parseSearchResults_cases (j : value) :
  match entries_of j with
  | None => parseSearchResults j = Throw ZodError
  | Some es =>
      if forallb well_formed_entry es
      then exists hits, parseSearchResults j = Ok hits /\ Forall2 hit_of_entry es hits
      else parseSearchResults j = Throw ZodError
  end.
Proof.
  unfold parseSearchResults, parse, braveResponseSchema.
  rewrite zparse_response.
  destruct (entries_of j) as [es|]; [|reflexivity].
  destruct (forallb well_formed_entry es) eqn:W.
  - destruct (parse_all_entries es W) as (es' & rs' & rs'' & hits & I1 & I2 & I3 & I4 & I5).
    exists hits. split; [|exact I5].
    rewrite I1. cbn [option_map bind prop get String.eqb Ascii.eqb Bool.eqb vmap].
    rewrite I2. cbn [bind]. unfold searchResultsSchema. cbn [zparse].
    rewrite I3. cbn [option_map bind as_SearchResults]. rewrite I4. reflexivity.
  - rewrite (parse_bad_entry es W). reflexivity.
Qed.

(** ** The scrape fan-out *)

Lemma scrape_calls (env : Env) :
  forall hits i,
    flat_map fst (mapi_from (scrapeSearchResult env) i hits) = map call_of hits.
Proof.
  induction hits as [|h hits IH]; intros i; [reflexivity|].
  simpl. f_equal. apply IH.
Qed.

(** The settled tasks, filtered as in lines 106-109, are the successful
    outcomes in the order of the hits. *)
Lemma scrape_results (env : Env) :
  forall hits i,
    filter (fun r => negb (is_empty (Scraped.content r)))
      (fulfilled_values
         (allSettled (map snd (mapi_from (scrapeSearchResult env) i hits)))) =
    findings_from env i hits.
Proof.
  induction hits as [|h hits IH]; intros i; [reflexivity|].
  cbn [mapi_from map allSettled fulfilled_values flat_map findings_from].
  unfold scrapeSearchResult at 1, scrape_outcome at 1, firecrawl_scrapeUrl.
  cbn [fst snd app filter Scraped.content].
  fold (@allSettled Scraped.t). fold (@fulfilled_values Scraped.t).
  rewrite <- (IH (S i)).
  destruct (scrapeUrl env i (url h) scrapeOptions) as [r|]; [|reflexivity].
  destruct (truthy (error r)); [reflexivity|].
  destruct (success r); [|reflexivity].
  destruct (sanitize _); reflexivity.
Qed.

Lemma findings_from_In (env : Env) (f : Scraped.t) :
  forall hits i,
    In f (findings_from env i hits) <->
    exists k h c,
      nth_error hits k = Some h /\ scrape_outcome env (i + k) h = Some c /\
      f = Scraped.Make (title h) (url h) c.
Proof.
  induction hits as [|h hits IH]; intros i; cbn [findings_from].
  - split; [intros []|]. intros (k & h & c & Hk & _). destruct k; discriminate.
  - split.
    + intros H.
      assert (Hcase : (exists c, scrape_outcome env i h = Some c /\
                                 f = Scraped.Make (title h) (url h) c) \/
                      In f (findings_from env (S i) hits)).
      { destruct (scrape_outcome env i h) as [c|]; [|auto].
        destruct H as [<- | H]; [left; eauto|auto]. }
      destruct Hcase as [(c & Hc & ->) | H'].
      * exists 0, h, c. rewrite Nat.add_0_r. auto.
      * apply IH in H'. destruct H' as (k & h' & c & Hk & Hc & ->).
        exists (S k), h', c. rewrite Nat.add_succ_r. auto.
    + intros (k & h' & c & Hk & Hc & ->). destruct k as [|k].
      * simpl in Hk. inversion Hk; subst h'. rewrite Nat.add_0_r in Hc.
        rewrite Hc. left. reflexivity.
      * assert (In (Scraped.Make (title h') (url h') c) (findings_from env (S i) hits)).
        { apply IH. exists k, h', c. rewrite Nat.add_succ_r in Hc. auto. }
        destruct (scrape_outcome env i h); [right|]; assumption.
Qed.

Lemma findings_from_none (env : Env) :
  forall hits i,
    (forall k h, nth_error hits k = Some h -> scrape_outcome env (i + k) h = None) ->
    findings_from env i hits = [].
Proof.
  induction hits as [|h hits IH]; intros i H; [reflexivity|].
  cbn [findings_from]. pose proof (H 0 h eq_refl) as H0.
  rewrite Nat.add_0_r in H0. rewrite H0.
  apply IH. intros k h' Hk. pose proof (H (S k) h' Hk) as HS.
  rewrite Nat.add_succ_r in HS. exact HS.
Qed.

Lemma findings_content (env : Env) (i : nat) (h : SearchResult) (c : str) :
  scrape_outcome env i h = Some c ->
  c <> [] /\
  exists r,
    scrapeUrl env i (url h) scrapeOptions = Some r /\
    truthy (error r) = false /\ success r = true /\
    c = sanitize (match markdown r with Some m => m | None => [] end).
Proof.
  unfold scrape_outcome.
  destruct (scrapeUrl env i (url h) scrapeOptions) as [r|]; [|discriminate].
  destruct (truthy (error r)) eqn:Et; [discriminate|].
  destruct (success r) eqn:Es; [|discriminate].
  destruct (sanitize _) as [|y t] eqn:Ec; [discriminate|].
  intros H. inversion H; subst c. split; [discriminate|].
  exists r. auto.
Qed.

(** The outcome of the whole call once the reply has been typed. *)
Lemma searchOnWeb_ok (env : Env) (query u : str) (j : value) (hits : list SearchResult) :
  searchUrl query = Some u ->
  fetchJson env u = Some j ->
  parseSearchResults j = Ok hits ->
  searchOnWeb env query =
  (map call_of hits, Ok {| results := findings_from env 0 hits |}).
Proof.
  intros Hu Hf Hp. unfold searchOnWeb. rewrite Hu, Hf, Hp.
  rewrite scrape_calls, scrape_results.
  destruct (findings_from env 0 hits); reflexivity.
Qed.

Lemma searchOnWeb_inv (env : Env) (query : str) (rs : SearchResults) :
  snd (searchOnWeb env query) = Ok rs ->
  exists u j hits,
    searchUrl query = Some u /\ fetchJson env u = Some j /\ parseSearchResults j = Ok hits.
Proof.
  unfold searchOnWeb.
  destruct (searchUrl query) as [u|] eqn:Hu; [|discriminate].
  destruct (fetchJson env u) as [j|] eqn:Hf; [|discriminate].
  destruct (parseSearchResults j) as [hits|e] eqn:Hp; [|discriminate].
  intros _. exists u, j, hits. auto.
Qed.

(** ** A rewrite with the empty template only shortens *)

Section ReplaceNil.
Variable re : regex.

Lemma replace_nil_length :
  forall n s p, length s <= n -> length (replace_go re [] 0 p s) <= length s.
Proof.
  induction n as [|n IH]; intros s p Hn.
  - destruct s; [|simpl in Hn; lia]. simpl. destruct (match_at re p []); simpl; lia.
  - destruct s as [|c s].
    + simpl. destruct (match_at re p []); simpl; lia.
    + rewrite replace_go_cons. destruct (match_at re p (c :: s)) as [st|] eqn:M.
      * destruct (match_at_sound _ _ _ _ M) as (w & E & _).
        assert (Hl : length (c :: s) = length w + length (rest st))
          by (rewrite E at 1; apply length_app).
        destruct w as [|x w].
        -- simpl in E. rewrite <- E. rewrite Nat.sub_diag. simpl.
           specialize (IH s (Some c)). simpl in Hn. lia.
        -- destruct (replace_go_match re [] p (c :: s) st M) as (p' & R);
             [simpl in Hl |- *; lia|].
           rewrite replace_go_cons, M in R. rewrite R. simpl.
           specialize (IH (rest st) p'). simpl in Hl, Hn. simpl. lia.
      * simpl. specialize (IH s (Some c)). simpl in Hn. lia.
Qed.

Hypothesis nonempty : forall w, lang re w -> w <> [].

Lemma replace_nil_shrinks_from :
  forall pre pre0 suf st,
    match_at re (prev_of (pre0 ++ pre)) suf = Some st ->
    length (replace_go re [] 0 (prev_of pre0) (pre ++ suf)) < length (pre ++ suf).
Proof.
  assert (Hhit : forall p s st,
             match_at re p s = Some st ->
             length (replace_go re [] 0 p s) < length s).
  { intros p s st M. destruct (match_at_sound _ _ _ _ M) as (w & E & L).
    assert (Hl : length (rest st) < length s).
    { rewrite E at 1. rewrite length_app. pose proof (nonempty w L).
      destruct w; [congruence|simpl; lia]. }
    destruct (replace_go_match re [] p s st M Hl) as (p' & R). rewrite R. simpl.
    pose proof (replace_nil_length (length (rest st)) (rest st) p' (le_n _)). lia. }
  induction pre as [|c pre IH]; intros pre0 suf st M.
  - rewrite app_nil_r in M. exact (Hhit _ _ _ M).
  - simpl app. destruct (match_at re (prev_of pre0) (c :: pre ++ suf)) as [st1|] eqn:M1.
    + exact (Hhit _ _ _ M1).
    + rewrite (replace_go_nomatch re [] _ c _ M1). simpl.
      rewrite <- (prev_of_snoc pre0 c).
      specialize (IH (pre0 ++ [c]) suf st). rewrite <- app_assoc in IH.
      specialize (IH M). lia.
Qed.

Lemma replace_nil_shrinks (s : str) :
  found re s -> length (replace re [] s) < length s.
Proof.
  intros (pre & suf & st & -> & M). exact (replace_nil_shrinks_from pre [] suf st M).
Qed.

End ReplaceNil.

Lemma lang_angle_nonempty (w : str) : lang re_angle w -> w <> [].
Proof.
  intros L. destruct (lang_angle_inv _ L) as (sch & x & u & _ & _ & ->). discriminate.
Qed.

Lemma trim_length (s : str) : length (trim s) <= length s.
Proof.
  destruct (trim_split s) as (a & b & E). rewrite E at 2. rewrite !length_app. lia.
Qed.

(** Sanitizing a text that holds no URL never makes it longer, and makes it
    shorter when the angle-bracket expression matches in it. *)
Lemma sanitize_length_no_url (y : str) :
  ~ has_url y ->
  length (stripUrlsFromMarkdown y) <= length y /\
  (found re_angle y -> length (stripUrlsFromMarkdown y) < length y).
Proof.
  intros H. destruct (no_url_not_found y H) as (H1 & H2 & H3 & _).
  unfold stripUrlsFromMarkdown.
  rewrite (replace_not_found re_image _ y H1).
  rewrite (replace_not_found re_link _ y H2).
  rewrite (replace_not_found re_refdef _ y H3).
  set (z := replace re_angle [] y).
  assert (Hz : length z <= length y)
    by (apply (replace_nil_length re_angle (length y) y None), le_n).
  pose proof (replace_nil_length re_bare (length z) z None (le_n _)) as Hb.
  fold (replace re_bare [] z) in Hb.
  pose proof (trim_length (replace re_bare [] z)) as Ht.
  split; [lia|]. intros F.
  pose proof (replace_nil_shrinks re_angle lang_angle_nonempty y F) as Hs.
  fold z in Hs. lia.
Qed.

(** ** Evaluating the predicates on a given text *)

Lemma starts_with_app (pat post : str) : starts_with pat (pat ++ post) = true.
Proof.
  induction pat as [|c pat IH]; simpl; [reflexivity|].
  now rewrite N.eqb_refl, IH.
Qed.

Lemma occurs_b_complete (pat s : str) : occurs pat s -> occurs_b pat s = true.
Proof.
  intros (pre & post & ->). induction pre as [|c pre IH].
  - simpl. destruct post, pat; simpl; rewrite ?N.eqb_refl, ?starts_with_app; reflexivity.
  - simpl. rewrite IH. apply orb_true_r.
Qed.

Lemma found_from_complete (re : regex) :
  forall pre pre0 suf st,
    match_at re (prev_of (pre0 ++ pre)) suf = Some st ->
    found_from re (prev_of pre0) (pre ++ suf) = true.
Proof.
  induction pre as [|c pre IH]; intros pre0 suf st M.
  - rewrite app_nil_r in M. destruct suf; simpl; rewrite M; reflexivity.
  - simpl. destruct (match_at re (prev_of pre0) (c :: pre ++ suf)); [reflexivity|].
    rewrite <- (prev_of_snoc pre0 c). apply (IH (pre0 ++ [c]) suf st).
    rewrite <- app_assoc. exact M.
Qed.

Lemma found_b_complete (re : regex) (s : str) : found re s -> found_b re s = true.
Proof.
  intros (pre & suf & st & -> & M). exact (found_from_complete re pre [] suf st M).
Qed.

Lemma ends_ws_b_complete (s : str) : ends_with_ws s -> ends_ws_b s = true.
Proof.
  intros (r & c & -> & Hc). unfold ends_ws_b. rewrite rev_app_distr. exact Hc.
Qed.

(** ** The properties of the specification *)

(** C1, as the code has it: the call throws when the request URL cannot be
    built (the query holds a surrogate without its partner), when the
    request fails, when the reply has no array at [web.results], and also
    when any single entry of that array is malformed; no entry is dropped,
    and a call that throws has issued no scrape call.  When every entry is
    well formed the call goes on with one hit per entry, in order. *)
Theorem search_fails_on_any_malformed_entry (env : Env) (query : str) :
  match searchUrl query with
  | None => lone_surrogate query /\ searchOnWeb env query = ([], Throw URIError)
  | Some requestUrl =>
      match fetchJson env requestUrl with
      | None => searchOnWeb env query = ([], Throw FetchFailed)
      | Some responseJson =>
          match entries_of responseJson with
          | None => searchOnWeb env query = ([], Throw ZodError)
          | Some entries =>
              if forallb well_formed_entry entries
              then exists hits rs,
                     parseSearchResults responseJson = Ok hits /\
                     Forall2 hit_of_entry entries hits /\
                     snd (searchOnWeb env query) = Ok rs
              else searchOnWeb env query = ([], Throw ZodError)
          end
      end
  end.
Proof.
  destruct (searchUrl query) as [u|] eqn:Hu.
  - destruct (fetchJson env u) as [j|] eqn:Hf.
    + pose proof (parseSearchResults_cases j) as Hc.
      destruct (entries_of j) as [es|].
      * destruct (forallb well_formed_entry es).
        -- destruct Hc as (hits & Hp & Hh). exists hits.
           rewrite (searchOnWeb_ok env query u j hits Hu Hf Hp).
           eexists. split; [exact Hp|split; [exact Hh|reflexivity]].
        -- unfold searchOnWeb. rewrite Hu, Hf, Hc. reflexivity.
      * unfold searchOnWeb. rewrite Hu, Hf, Hc. reflexivity.
    + unfold searchOnWeb. rewrite Hu, Hf. reflexivity.
  - split.
    + apply (encode_fails_from (length query) query 0%N (le_n _) eq_refl).
      unfold searchUrl in Hu. destruct (encodeURIComponent query); [discriminate|reflexivity].
    + unfold searchOnWeb. rewrite Hu. reflexivity.
Qed.

(** C1, counterexample: the reply has the expected top-level shape and
    carries one well-formed and one malformed entry; the call throws instead
    of returning the well-formed hit. *)
Lemma search_one_bad_entry_throws :
  searchUrl sample_query = Some (lit "https://api.search.brave.com/res/v1/web/search?q=rocq&count=5&result_filter=web") /\
  fetchJson sample_env_bad (lit "https://api.search.brave.com/res/v1/web/search?q=rocq&count=5&result_filter=web") =
    Some (sample_reply [sample_entry "https://a.example" "A"; sample_bad_entry]) /\
  entries_of (sample_reply [sample_entry "https://a.example" "A"; sample_bad_entry]) =
    Some [sample_entry "https://a.example" "A"; sample_bad_entry] /\
  well_formed_entry (sample_entry "https://a.example" "A") = true /\
  well_formed_entry sample_bad_entry = false /\
  snd (searchOnWeb sample_env_bad sample_query) = Throw ZodError.
Proof. repeat split; vm_compute; reflexivity. Qed.

(** C2: once the request has been made and the search reply has been
    read, no scrape outcome makes the call fail.  The findings are exactly
    the successful tasks, in the order of the hits: every success is
    returned, a failed task contributes nothing, and when every task fails
    the list is empty. *)
Theorem scrape_failures_never_fail_the_call
        (env : Env) (query requestUrl : str) (responseJson : value)
        (hits : list SearchResult) :
  searchUrl query = Some requestUrl ->
  fetchJson env requestUrl = Some responseJson ->
  parseSearchResults responseJson = Ok hits ->
  exists rs,
    snd (searchOnWeb env query) = Ok rs /\
    results rs = findings_from env 0 hits /\
    (forall k h c,
        nth_error hits k = Some h -> scrape_outcome env k h = Some c ->
        In (Scraped.Make (title h) (url h) c) (results rs)) /\
    (forall f,
        In f (results rs) ->
        exists k h c,
          nth_error hits k = Some h /\ scrape_outcome env k h = Some c /\
          f = Scraped.Make (title h) (url h) c) /\
    ((forall k h, nth_error hits k = Some h -> scrape_outcome env k h = None) ->
     results rs = []).
Proof.
  intros Hu Hf Hp. exists {| results := findings_from env 0 hits |}.
  rewrite (searchOnWeb_ok env query requestUrl responseJson hits Hu Hf Hp). cbn [snd results].
  split; [reflexivity|]. split; [reflexivity|]. split; [|split].
  - intros k h c Hk Hc. apply findings_from_In. exists k, h, c. auto.
  - intros f Hin. apply findings_from_In in Hin. exact Hin.
  - intros Hall. apply findings_from_none. exact Hall.
Qed.

Lemma scrape_failures_never_fail_the_call_witness :
  exists rs,
    snd (searchOnWeb sample_env sample_query) = Ok rs /\
    results rs =
      [Scraped.Make (lit "B") (lit "https://b.example") (lit "read the docs now")].
Proof.
  destruct (scrape_failures_never_fail_the_call sample_env sample_query
              (lit "https://api.search.brave.com/res/v1/web/search?q=rocq&count=5&result_filter=web")
              (sample_reply [sample_entry "https://a.example" "A";
                             sample_entry "https://b.example" "B";
                             sample_entry "https://c.example" "C"])
              [sample_hit "https://a.example" "A";
               sample_hit "https://b.example" "B";
               sample_hit "https://c.example" "C"])
    as (rs & H1 & H2 & _).
  - vm_compute. reflexivity.
  - reflexivity.
  - vm_compute. reflexivity.
  - exists rs. split; [exact H1|]. rewrite H2. vm_compute. reflexivity.
Defined.

(** C3, counterexample: sanitizing [<<http://a>http:// x>] gives
    [<http:// x>], and sanitizing that gives the empty string. *)
Lemma sanitize_twice_differs :
  sanitize (lit "<<http://a>http:// x>") = lit "<http:// x>" /\
  sanitize (sanitize (lit "<<http://a>http:// x>")) = [] /\
  sanitize (sanitize (lit "<<http://a>http:// x>")) <> sanitize (lit "<<http://a>http:// x>").
Proof.
  split; [vm_compute; reflexivity|].
  split; [vm_compute; reflexivity|vm_compute; discriminate].
Qed.

(** C3, as the code has it: a second pass changes nothing exactly when the
    sanitized text does not end with white space and holds no match of the
    angle-bracket expression.  The sanitized text can end with white space
    only when the cap cut it: a stripped text within the cap is returned
    whole, and it is trimmed. *)
Theorem sanitize_idempotent_when_settled (x : str) :
  (sanitize (sanitize x) = sanitize x <->
   ~ ends_with_ws (sanitize x) /\ ~ found re_angle (sanitize x)) /\
  ((Z.of_nat (length (stripUrlsFromMarkdown x)) <= 80000)%Z ->
   sanitize x = stripUrlsFromMarkdown x /\ ~ ends_with_ws (sanitize x)).
Proof.
  assert (Hcap : forall z,
             (Z.of_nat (length (stripUrlsFromMarkdown z)) <= 80000)%Z ->
             sanitize z = stripUrlsFromMarkdown z).
  { intros z Hz. unfold sanitize. rewrite substring_0 by lia. apply firstn_all2. lia. }
  assert (Hends : forall z, ~ ends_with_ws (stripUrlsFromMarkdown z)).
  { intros z (r & c & Er & Hc).
    rewrite (proj2 (strip_trimmed z) r c Er) in Hc. discriminate. }
  split; [split|].
  - intros Eq. set (y := sanitize x) in *.
    destruct (sanitize_length_no_url y (sanitize_no_url x)) as [Hle Hlt].
    pose proof (sanitize_length x) as Hy. fold y in Hy.
    assert (Es : stripUrlsFromMarkdown y = y) by (rewrite <- Hcap by lia; exact Eq).
    split.
    + rewrite <- Es. apply Hends.
    + intros F. apply Hlt in F. rewrite Es in F. lia.
  - intros [HE HA]. set (y := sanitize x) in *.
    assert (Hy : stripUrlsFromMarkdown y = y).
    { unfold stripUrlsFromMarkdown.
      rewrite (rewrites_fixed y (sanitize_no_url x) HA).
      apply trim_id. split.
      - intros c r E. destruct (sanitize_prefix x) as (b & Eb). fold y in Eb.
        rewrite E in Eb. exact (proj1 (strip_trimmed x) c (r ++ b) Eb).
      - intros r c E. destruct (is_ws c) eqn:Hc; [|reflexivity].
        exfalso. apply HE. exists r, c. auto. }
    rewrite Hcap; [exact Hy|]. rewrite Hy.
    pose proof (sanitize_length x) as Hl. fold y in Hl. exact Hl.
  - intros Hlen. split; [exact (Hcap x Hlen)|].
    rewrite (Hcap x Hlen). apply Hends.
Qed.

Lemma sanitize_idempotent_when_settled_witness :
  sanitize (sanitize (lit " see [the docs](https://x.example/d) and <https://y.example> "))
    = sanitize (lit " see [the docs](https://x.example/d) and <https://y.example> ") /\
  sanitize (lit " see [the docs](https://x.example/d) and <https://y.example> ")
    = stripUrlsFromMarkdown (lit " see [the docs](https://x.example/d) and <https://y.example> ").
Proof.
  split.
  - apply (proj2 (proj1 (sanitize_idempotent_when_settled _))). split.
    + intros H. apply ends_ws_b_complete in H. vm_compute in H. discriminate.
    + intros H. apply found_b_complete in H. vm_compute in H. discriminate.
  - apply (proj2 (sanitize_idempotent_when_settled _)).
    vm_compute. discriminate.
Defined.

(** C4: every finding returned has non-empty content, and it is the
    sanitized markdown of a task whose scrape call came back successful and
    without error. *)
Theorem findings_have_content (env : Env) (query : str) (rs : SearchResults) (f : Scraped.t) :
  snd (searchOnWeb env query) = Ok rs ->
  In f (results rs) ->
  Scraped.content f <> [] /\
  exists requestUrl responseJson hits k h r,
    searchUrl query = Some requestUrl /\
    fetchJson env requestUrl = Some responseJson /\
    parseSearchResults responseJson = Ok hits /\
    nth_error hits k = Some h /\
    scrapeUrl env k (url h) scrapeOptions = Some r /\
    truthy (error r) = false /\ success r = true /\
    Scraped.title f = title h /\ Scraped.link f = url h /\
    Scraped.content f = sanitize (match markdown r with Some m => m | None => [] end).
Proof.
  intros Hok Hin.
  destruct (searchOnWeb_inv env query rs Hok) as (u & j & hits & Hu & Hf & Hp).
  rewrite (searchOnWeb_ok env query u j hits Hu Hf Hp) in Hok. cbn [snd] in Hok.
  inversion Hok; subst rs. cbn [results] in Hin.
  apply findings_from_In in Hin. destruct Hin as (k & h & c & Hk & Hc & ->).
  destruct (findings_content env (0 + k) h c Hc) as (Hne & r & Hr & He & Hs & Ec).
  split; [exact Hne|]. exists u, j, hits, k, h, r.
  cbn [Scraped.content Scraped.title Scraped.link].
  repeat split; assumption.
Qed.

Lemma findings_have_content_witness :
  Scraped.content
    (Scraped.Make (lit "B") (lit "https://b.example") (lit "read the docs now")) <> [].
Proof.
  refine (proj1 (findings_have_content sample_env sample_query
                   {| results := [Scraped.Make (lit "B") (lit "https://b.example")
                                               (lit "read the docs now")] |}
                   _ _ _)).
  - vm_compute. reflexivity.
  - left. reflexivity.
Defined.

(** C6: the sanitized text never exceeds 80,000 code units. *)
Theorem sanitize_length_cap (x : str) : (Z.of_nat (length (sanitize x)) <= 80000)%Z.
Proof.
  unfold sanitize. rewrite substring_0 by lia.
  pose proof (firstn_le_length (Z.to_nat 80000) (stripUrlsFromMarkdown x)). lia.
Qed.

(** C7: every scrape call is issued with a timeout of 15000 ms, a maximum
    cache age of 43,200,000 ms (twelve hours) and the markdown format.  The
    calls are those that reach the collaborator: there is one per hit, for
    its url, in the order of the hits; a successful reply to the call with
    these options becomes a finding; and the outcome of the whole call
    depends on the collaborator only through its replies to calls with
    these options. *)
Theorem scrape_calls_carry_fixed_options (env : Env) (query : str) :
  Forall (fun c => timeout (call_options c) = 15000%Z /\
                   maxAge (call_options c) = 43200000%Z /\
                   formats (call_options c) = ["markdown"%string])
         (fst (searchOnWeb env query)) /\
  (forall requestUrl responseJson hits,
      searchUrl query = Some requestUrl ->
      fetchJson env requestUrl = Some responseJson ->
      parseSearchResults responseJson = Ok hits ->
      map call_url (fst (searchOnWeb env query)) = map url hits /\
      (forall k h r,
          nth_error hits k = Some h ->
          scrapeUrl env k (url h)
            {| formats := ["markdown"%string]; timeout := 15000; maxAge := 43200000 |}
            = Some r ->
          truthy (error r) = false -> success r = true ->
          sanitize (match markdown r with Some m => m | None => [] end) <> [] ->
          exists rs,
            snd (searchOnWeb env query) = Ok rs /\
            In (Scraped.Make (title h) (url h)
                  (sanitize (match markdown r with Some m => m | None => [] end)))
               (results rs))) /\
  (forall env',
      (forall u, fetchJson env' u = fetchJson env u) ->
      (forall i u o,
          timeout o = 15000%Z -> maxAge o = 43200000%Z ->
          formats o = ["markdown"%string] ->
          scrapeUrl env' i u o = scrapeUrl env i u o) ->
      searchOnWeb env' query = searchOnWeb env query).
Proof.
  split; [|split].
  - unfold searchOnWeb.
    destruct (searchUrl query) as [u|]; [|constructor].
    destruct (fetchJson env u) as [j|]; [|constructor].
    destruct (parseSearchResults j) as [hits|e]; [|constructor].
    cbn [fst]. rewrite scrape_calls. apply Forall_forall.
    intros c Hc. apply in_map_iff in Hc. destruct Hc as (h & <- & _).
    repeat split; reflexivity.
  - intros u j hits Hu Hf Hp. rewrite (searchOnWeb_ok env query u j hits Hu Hf Hp).
    cbn [fst snd]. split; [rewrite map_map; reflexivity|].
    intros k h r Hk Hr He Hs Hc.
    change {| formats := ["markdown"%string]; timeout := 15000; maxAge := 43200000 |}
      with scrapeOptions in Hr.
    eexists. split; [reflexivity|]. cbn [results].
    apply findings_from_In.
    exists k, h, (sanitize (match markdown r with Some m => m | None => [] end)).
    split; [exact Hk|]. split; [|reflexivity].
    unfold scrape_outcome. cbn [Nat.add]. rewrite Hr, He, Hs.
    destruct (sanitize _); [congruence|reflexivity].
  - intros env' Hfetch Hscrape.
    assert (Hout : forall hits i, findings_from env' i hits = findings_from env i hits).
    { induction hits as [|h hits IH]; intros i; [reflexivity|].
      cbn [findings_from]. unfold scrape_outcome.
      rewrite (Hscrape i (url h) scrapeOptions eq_refl eq_refl eq_refl), IH. reflexivity. }
    destruct (searchUrl query) as [u|] eqn:Hu.
    + destruct (fetchJson env u) as [j|] eqn:Hf.
      * destruct (parseSearchResults j) as [hits|e] eqn:Hp.
        -- assert (Hf' : fetchJson env' u = Some j) by (rewrite Hfetch; exact Hf).
           rewrite (searchOnWeb_ok env query u j hits Hu Hf Hp).
           rewrite (searchOnWeb_ok env' query u j hits Hu Hf' Hp).
           rewrite Hout. reflexivity.
        -- unfold searchOnWeb. rewrite Hu, Hfetch, Hf, Hp. reflexivity.
      * unfold searchOnWeb. rewrite Hu, Hfetch, Hf. reflexivity.
    + unfold searchOnWeb. rewrite Hu. reflexivity.
Qed.

Lemma scrape_calls_carry_fixed_options_witness :
  map call_url (fst (searchOnWeb sample_env sample_query)) =
  [lit "https://a.example"; lit "https://b.example"; lit "https://c.example"].
Proof.
  refine (proj1 (proj1 (proj2 (scrape_calls_carry_fixed_options sample_env sample_query))
                (lit "https://api.search.brave.com/res/v1/web/search?q=rocq&count=5&result_filter=web")
                (sample_reply [sample_entry "https://a.example" "A";
                               sample_entry "https://b.example" "B";
                               sample_entry "https://c.example" "C"])
                [sample_hit "https://a.example" "A";
                 sample_hit "https://b.example" "B";
                 sample_hit "https://c.example" "C"] _ _ _)).
  - vm_compute. reflexivity.
  - reflexivity.
  - vm_compute. reflexivity.
Defined.




(** C9: the output of the stripper holds no [http://] or [https://] that is
    followed by a code unit other than white space. *)
Theorem strip_leaves_no_url (s pre post : str) (c : char) :
  is_ws c = false ->
  stripUrlsFromMarkdown s <> pre ++ lit "http://" ++ c :: post /\
  stripUrlsFromMarkdown s <> pre ++ lit "https://" ++ c :: post.
Proof.
  intros Hc. split; intros E; apply (strip_no_url s); exists pre, c, post; auto.
Qed.

Lemma strip_leaves_no_url_witness :
  stripUrlsFromMarkdown (lit "go to https://x.example/a?b=1 now")
    <> lit "go to " ++ lit "https://" ++ chr "x" :: lit ".example/a?b=1 now".
Proof.
  refine (proj2 (strip_leaves_no_url (lit "go to https://x.example/a?b=1 now")
                   (lit "go to ") (lit ".example/a?b=1 now") (chr "x") _)).
  reflexivity.
Defined.

(** * Further properties

    Properties of the code beyond the sentences of the specification. *)

(** ** The rewrites only delete *)

Lemma subseq_refl {A : Type} (l : list A) : subseq l l.
Proof. induction l; [apply subseq_nil|apply subseq_keep; assumption]. Qed.

Lemma subseq_nil_l {A : Type} (l : list A) : subseq [] l.
Proof. induction l; [apply subseq_nil|apply subseq_skip; assumption]. Qed.

Lemma subseq_app {A : Type} (l1 l2 m1 m2 : list A) :
  subseq l1 l2 -> subseq m1 m2 -> subseq (l1 ++ m1) (l2 ++ m2).
Proof.
  intros H1 H2. induction H1; simpl.
  - exact H2.
  - apply subseq_skip. assumption.
  - apply subseq_keep. assumption.
Qed.

Lemma subseq_trans {A : Type} (l1 l2 l3 : list A) :
  subseq l1 l2 -> subseq l2 l3 -> subseq l1 l3.
Proof.
  intros H12 H23. revert l1 H12.
  induction H23 as [|x l2 l3 H IH|x l2 l3 H IH]; intros l1 H12.
  - exact H12.
  - apply subseq_skip. apply IH. exact H12.
  - inversion H12; subst.
    + apply subseq_skip. apply IH. assumption.
    + apply subseq_keep. apply IH. assumption.
Qed.

Lemma subseq_length {A : Type} (l1 l2 : list A) :
  subseq l1 l2 -> length l1 <= length l2.
Proof. intros H. induction H; simpl; lia. Qed.

Lemma subseq_In {A : Type} (l1 l2 : list A) (x : A) :
  subseq l1 l2 -> In x l1 -> In x l2.
Proof.
  intros H. induction H; simpl; intros Hin; auto.
  destruct Hin; auto.
Qed.

Lemma subseq_infix {A : Type} (a c b : list A) : subseq c (a ++ c ++ b).
Proof.
  change c with ([] ++ c) at 1. apply subseq_app; [apply subseq_nil_l|].
  rewrite <- (app_nil_r c) at 1. apply subseq_app; [apply subseq_refl|apply subseq_nil_l].
Qed.

Lemma caps_within_refl (cs : list (nat * str)) (w : str) : caps_within cs cs w.
Proof. intros i c H. left. exact H. Qed.

Lemma caps_within_seq (cs0 cs1 cs2 : list (nat * str)) (w1 w2 : str) :
  caps_within cs0 cs1 w1 -> caps_within cs1 cs2 w2 -> caps_within cs0 cs2 (w1 ++ w2).
Proof.
  intros H1 H2 i c Hin. destruct (H2 i c Hin) as [Hc | (a & b & ->)].
  - destruct (H1 i c Hc) as [H0 | (a & b & ->)]; [left; exact H0|].
    right. exists a, (b ++ w2). now rewrite <- !app_assoc.
  - right. exists (w1 ++ a), b. now rewrite <- !app_assoc.
Qed.

Lemma exec_star_caps (c : cls) (cs : list (nat * str)) (k : cont) :
  forall s p res,
    exec_star c cs k p s = Some res ->
    exists w s' p', s = w ++ s' /\ k (MState p' s' cs) = Some res.
Proof.
  intros s p res H.
  destruct (exec_star_sound c cs k s p res H) as (w & s' & p' & E & _ & K).
  exists w, s', p'. auto.
Qed.

(** The captures of a match are pieces of the matched word. *)
Lemma exec_caps (r : regex) :
  forall st k res,
    exec r st k = Some res ->
    exists w st',
      rest st = w ++ rest st' /\ caps_within (caps st) (caps st') w /\
      k st' = Some res.
Proof.
  induction r as [ | c | r1 IH1 r2 IH2 | r1 IH1 | c | i r1 IH1 | | ];
    intros st k res H; simpl in H.
  - exists [], st. repeat split; auto using caps_within_refl.
  - destruct (rest st) as [|x xs] eqn:Hs; [discriminate|].
    destruct (cls_mem c x) eqn:Hx; [|discriminate].
    exists [x], (MState (Some x) xs (caps st)). simpl.
    repeat split; auto using caps_within_refl.
  - destruct (IH1 _ _ _ H) as (w1 & st1 & E1 & C1 & K1).
    destruct (IH2 _ _ _ K1) as (w2 & st2 & E2 & C2 & K2).
    exists (w1 ++ w2), st2. rewrite E1, E2, app_assoc.
    repeat split; [|exact K2]. eapply caps_within_seq; eassumption.
  - destruct (exec r1 st k) as [res'|] eqn:E.
    + inversion H; subst res'. exact (IH1 _ _ _ E).
    + exists [], st. repeat split; auto using caps_within_refl.
  - destruct (exec_star_caps _ _ _ _ _ _ H) as (w & s' & p' & E & K).
    exists w, (MState p' s' (caps st)). simpl.
    repeat split; auto using caps_within_refl.
  - destruct (IH1 _ _ _ H) as (w & st' & E1 & C1 & K1).
    eexists w, _. split; [|split; [|exact K1]]; [exact E1|].
    simpl. intros j c [Hc | Hc].
    + inversion Hc; subst j c. right. exists [], []. rewrite E1.
      rewrite length_app, Nat.add_sub, firstn_app, Nat.sub_diag, firstn_all.
      simpl. now rewrite !app_nil_r.
    + exact (C1 j c Hc).
  - destruct (at_line_start (prev st)); [|discriminate].
    exists [], st. repeat split; auto using caps_within_refl.
  - destruct (at_line_end (rest st)); [|discriminate].
    exists [], st. repeat split; auto using caps_within_refl.
Qed.

Lemma capture_In (i : nat) (cs : list (nat * str)) :
  capture i cs = [] \/ In (i, capture i cs) cs.
Proof.
  induction cs as [|[j w] cs IH]; [left; reflexivity|].
  simpl. destruct (Nat.eqb i j) eqn:E.
  - apply Nat.eqb_eq in E. subst j. right. left. reflexivity.
  - destruct IH; [left|right; right]; assumption.
Qed.

Lemma match_at_expand (re : regex) (tpl : list repl_item) (p : option char)
      (s : str) (st : mstate) :
  plain_template tpl ->
  match_at re p s = Some st ->
  exists w, s = w ++ rest st /\ subseq (expand tpl (caps st)) w.
Proof.
  intros Ht M. unfold match_at in M.
  destruct (exec_caps _ _ _ _ M) as (w & st' & E & C & K).
  inversion K; subst st'. simpl in E, C. exists w. split; [exact E|].
  destruct Ht as [-> | (i & ->)]; [apply subseq_nil_l|].
  unfold expand. simpl. rewrite app_nil_r.
  destruct (capture_In i (caps st)) as [-> | Hin]; [apply subseq_nil_l|].
  destruct (C _ _ Hin) as [[] | (a & b & ->)]. apply subseq_infix.
Qed.

Lemma replace_go_subseq (re : regex) (tpl : list repl_item) :
  plain_template tpl ->
  forall n s p, length s <= n -> subseq (replace_go re tpl 0 p s) s.
Proof.
  intros Ht. induction n as [|n IH]; intros s p Hn.
  - destruct s; [|simpl in Hn; lia]. simpl.
    destruct (match_at re p []) as [st|] eqn:M; [|apply subseq_nil].
    destruct (match_at_expand _ _ _ _ _ Ht M) as (w & E & S).
    symmetry in E. apply app_eq_nil in E. destruct E as [-> _].
    rewrite app_nil_r. exact S.
  - destruct s as [|c s].
    + simpl. destruct (match_at re p []) as [st|] eqn:M; [|apply subseq_nil].
      destruct (match_at_expand _ _ _ _ _ Ht M) as (w & E & S).
      symmetry in E. apply app_eq_nil in E. destruct E as [-> _].
      rewrite app_nil_r. exact S.
    + destruct (match_at re p (c :: s)) as [st|] eqn:M.
      * destruct (match_at_expand _ _ _ _ _ Ht M) as (w & E & S).
        destruct w as [|x w].
        -- rewrite replace_go_cons, M. simpl in E. rewrite <- E, Nat.sub_diag.
           inversion S as [E0| |]. simpl.
           apply subseq_keep. apply IH. simpl in Hn. lia.
        -- assert (Hl : length (rest st) < length (c :: s)).
           { rewrite E. rewrite length_app. simpl. lia. }
           destruct (replace_go_match re tpl p (c :: s) st M Hl) as (p' & R).
           rewrite R. rewrite E. apply subseq_app; [exact S|].
           apply IH. simpl in Hl, Hn. lia.
      * rewrite replace_go_nomatch by exact M. apply subseq_keep.
        apply IH. simpl in Hn. lia.
Qed.

Lemma replace_subseq (re : regex) (tpl : list repl_item) (s : str) :
  plain_template tpl -> subseq (replace re tpl s) s.
Proof.
  intros Ht. exact (replace_go_subseq re tpl Ht (length s) s None (le_n _)).
Qed.

Lemma trim_subseq (s : str) : subseq (trim s) s.
Proof.
  destruct (trim_split s) as (a & b & E).
  pose proof (subseq_infix a (trim s) b) as H. rewrite <- E in H. exact H.
Qed.

Lemma strip_subseq (s : str) : subseq (stripUrlsFromMarkdown s) s.
Proof.
  unfold stripUrlsFromMarkdown.
  assert (P0 : plain_template []) by (left; reflexivity).
  assert (P1 : plain_template [RCap 1]) by (right; exists 1; reflexivity).
  eapply subseq_trans; [apply trim_subseq|].
  eapply subseq_trans; [apply (replace_subseq re_bare [] _ P0)|].
  eapply subseq_trans; [apply (replace_subseq re_angle [] _ P0)|].
  eapply subseq_trans; [apply (replace_subseq re_refdef [] _ P0)|].
  eapply subseq_trans; [apply (replace_subseq re_link [RCap 1] _ P1)|].
  apply (replace_subseq re_image [RCap 1] _ P1).
Qed.

Lemma sanitize_subseq (x : str) : subseq (sanitize x) x.
Proof.
  eapply subseq_trans; [|apply strip_subseq].
  destruct (sanitize_prefix x) as (b & E).
  pose proof (subseq_infix [] (sanitize x) b) as H. simpl in H.
  rewrite <- E in H. exact H.
Qed.

(** X1: the stripper and the sanitizer only delete code units: the output
    is the input with some code units left out, so it is never longer and
    holds nothing that the input did not hold. *)
Theorem sanitizer_only_deletes (x : str) :
  subseq (stripUrlsFromMarkdown x) x /\
  subseq (sanitize x) x /\
  length (stripUrlsFromMarkdown x) <= length x /\
  (forall c, In c (sanitize x) -> In c x).
Proof.
  split; [apply strip_subseq|]. split; [apply sanitize_subseq|]. split.
  - apply subseq_length, strip_subseq.
  - intros c. apply subseq_In, sanitize_subseq.
Qed.

(** ** The reply, read in one pass *)

Lemma mapM_strings_none (f : value -> option value) :
  (forall v, f v = match v with VStr _ => Some v | _ => None end) ->
  forall l, mapM as_str l = None -> mapM f l = None.
Proof.
  intros Hf. induction l as [|v l IH]; cbn [mapM]; intros H; [discriminate|].
  rewrite Hf. destruct v; try reflexivity. cbn [as_str] in H.
  destruct (mapM as_str l); [discriminate|]. rewrite IH by reflexivity. reflexivity.
Qed.

Lemma mapM_strings_some (f : value -> option value) :
  (forall v, f v = match v with VStr _ => Some v | _ => None end) ->
  forall l ss, mapM as_str l = Some ss -> mapM f l = Some l.
Proof.
  intros Hf. induction l as [|v l IH]; cbn [mapM]; intros ss H; [reflexivity|].
  rewrite Hf. destruct v; try discriminate. cbn [as_str] in H.
  destruct (mapM as_str l) as [ss'|]; [|discriminate].
  rewrite (IH ss' eq_refl). reflexivity.
Qed.

(** One entry: either the entry schema rejects it, or the mapping of line
    51, the second schema and the typing all succeed and give the hit. *)
Lemma entry_one_pass (e : value) :
  match hit_from_entry e with
  | None => zparse braveResultSchema e = None
  | Some h =>
      exists e' r' r'',
        zparse braveResultSchema e = Some e' /\ toParsedResult e' = Ok r' /\
        zparse searchResultSchema r' = Some r'' /\ r'' = r' /\
        as_SearchResult r'' = Some h
  end.
Proof.
  destruct e as [ | | | | | |f]; try reflexivity.
  unfold hit_from_entry, braveResultSchema. simpl zparse.
  destruct (get "url" f) as [ | | | |su| | ] eqn:Eu; try reflexivity.
  destruct (get "title" f) as [ | | | |st| | ] eqn:Et; try reflexivity.
  destruct (get "meta_url" f) as [ | | | | | |m] eqn:Em; try reflexivity.
  destruct (get "favicon" m) as [ | | | |sf| | ] eqn:Ef; try reflexivity.
  simpl.
  destruct (get "extra_snippets" f) as [ | | | | |l| ] eqn:Ex; simpl; try reflexivity.
  - destruct (get "thumbnail" f) as [ | | | | | |t] eqn:Eth; simpl; try reflexivity.
    + destruct (has_key "thumbnail" f); simpl;
        (eexists _, _, _; repeat (split; [reflexivity|]); reflexivity).
    + destruct (get "original" t) as [ | | | |so| | ] eqn:Eo; simpl; try reflexivity.
      eexists _, _, _; repeat (split; [reflexivity|]); reflexivity.
  - destruct (mapM as_str l) as [ss|] eqn:El.
    + pose proof (mapM_strings_some (zparse ZString) (fun v => eq_refl) l ss El) as Hm.
      simpl in Hm. rewrite Hm. simpl.
      destruct (get "thumbnail" f) as [ | | | | | |t] eqn:Eth; simpl; try reflexivity.
      * destruct (has_key "thumbnail" f); simpl;
          (eexists _, _, _; split; [reflexivity|split; [reflexivity|]]; simpl;
           rewrite Hm; simpl; split; [reflexivity|split; [reflexivity|]];
           simpl; rewrite El; reflexivity).
      * destruct (get "original" t) as [ | | | |so| | ] eqn:Eo; simpl; try reflexivity.
        eexists _, _, _; split; [reflexivity|split; [reflexivity|]]; simpl.
        rewrite Hm; simpl. split; [reflexivity|split; [reflexivity|]].
        simpl. rewrite El. reflexivity.
    + pose proof (mapM_strings_none (zparse ZString) (fun v => eq_refl) l El) as Hm.
      simpl in Hm. rewrite Hm. reflexivity.
Qed.

Lemma entries_one_pass (es : list value) :
  match mapM hit_from_entry es with
  | None => mapM (zparse braveResultSchema) es = None
  | Some hits =>
      exists es' rs',
        mapM (zparse braveResultSchema) es = Some es' /\
        mapR toParsedResult es' = Ok rs' /\
        mapM (zparse searchResultSchema) rs' = Some rs' /\
        mapM as_SearchResult rs' = Some hits
  end.
Proof.
  induction es as [|e es IH]; [exists [], []; auto|].
  cbn [mapM]. pose proof (entry_one_pass e) as He.
  destruct (hit_from_entry e) as [h|].
  - destruct He as (e' & r' & r'' & H1 & H2 & H3 & -> & H4).
    destruct (mapM hit_from_entry es) as [hits|].
    + destruct IH as (es' & rs' & I1 & I2 & I3 & I4).
      exists (e' :: es'), (r' :: rs'). cbn [mapM mapR].
      rewrite H1, I1, H2, I2, H3, I3, H4, I4. auto.
    + rewrite H1, IH. reflexivity.
  - rewrite He. reflexivity.
Qed.

Lemma parseSearchResults_one_pass (j : value) :
  parseSearchResults j =
  match entries_of j with
  | Some es =>
      match mapM hit_from_entry es with
      | Some hits => Ok hits
      | None => Throw ZodError
      end
  | None => Throw ZodError
  end.
Proof.
  unfold parseSearchResults, parse, braveResponseSchema.
  rewrite zparse_response.
  destruct (entries_of j) as [es|]; [|reflexivity].
  pose proof (entries_one_pass es) as H.
  destruct (mapM hit_from_entry es) as [hits|].
  - destruct H as (es' & rs' & I1 & I2 & I3 & I4).
    rewrite I1. cbn [option_map bind prop get String.eqb Ascii.eqb Bool.eqb vmap].
    rewrite I2. cbn [bind]. unfold searchResultsSchema. cbn [zparse].
    rewrite I3. cbn [option_map bind as_SearchResults]. rewrite I4. reflexivity.
  - rewrite H. reflexivity.
Qed.

Lemma hit_from_entry_known (e1 e2 : value) :
  same_known_fields e1 e2 -> hit_from_entry e1 = hit_from_entry e2.
Proof.
  intros (f1 & f2 & -> & -> & H). unfold hit_from_entry.
  rewrite (H "url"%string), (H "title"%string), (H "meta_url"%string),
    (H "extra_snippets"%string), (H "thumbnail"%string); simpl; auto 10.
Qed.

Lemma mapM_ext2 {A B : Type} (f : A -> option B) (R : A -> A -> Prop) :
  (forall a b, R a b -> f a = f b) ->
  forall l1 l2, Forall2 R l1 l2 -> mapM f l1 = mapM f l2.
Proof.
  intros Hf l1 l2 H. induction H as [|a b l1 l2 Hab _ IH]; [reflexivity|].
  cbn [mapM]. rewrite (Hf a b Hab), IH. reflexivity.
Qed.

Lemma mapM_None_In {A B : Type} (f : A -> option B) (l : list A) (a : A) :
  In a l -> f a = None -> mapM f l = None.
Proof.
  induction l as [|b l IH]; intros Hin Ha; [destruct Hin|].
  cbn [mapM]. destruct Hin as [-> | Hin].
  - rewrite Ha. reflexivity.
  - rewrite (IH Hin Ha). destruct (f b); reflexivity.
Qed.

Lemma mapM_Forall2 {A B : Type} (f : A -> option B) :
  forall l bs, mapM f l = Some bs -> Forall2 (fun a b => f a = Some b) l bs.
Proof.
  induction l as [|a l IH]; cbn [mapM]; intros bs H.
  - inversion H. constructor.
  - destruct (f a) as [b|] eqn:Ea; [|discriminate].
    destruct (mapM f l) as [bs'|]; [|discriminate].
    inversion H; subst. constructor; auto.
Qed.

Lemma mapM_as_str (l : list value) (ss : list str) :
  mapM as_str l = Some ss -> l = map VStr ss.
Proof.
  revert ss. induction l as [|v l IH]; cbn [mapM]; intros ss H.
  - inversion H. reflexivity.
  - destruct v; try discriminate. cbn [as_str] in H.
    destruct (mapM as_str l) as [ss'|]; [|discriminate].
    inversion H; subst. simpl. f_equal. auto.
Qed.


(** X2: reading a reply (lines 28-69) amounts to one pass over
    [web.results]: the call throws [ZodError] when there is no array there
    or when some entry is rejected, and otherwise yields the hit of every
    entry.  The second schema and the typing never fail on their own. *)
Theorem reply_is_read_in_one_pass (responseJson : value) :
  parseSearchResults responseJson =
  match entries_of responseJson with
  | Some entries =>
      match mapM hit_from_entry entries with
      | Some hits => Ok hits
      | None => Throw ZodError
      end
  | None => Throw ZodError
  end.
Proof. exact (parseSearchResults_one_pass responseJson). Qed.

(** X3: a hit takes its fields from its entry: [extraSnippets] is empty
    when the entry has no [extra_snippets] and holds its strings otherwise,
    [thumbnail] is absent when the entry has none and is
    [thumbnail.original] otherwise. *)
Theorem hit_fields_follow_entry
        (responseJson : value) (entries : list value) (hits : list SearchResult) :
  entries_of responseJson = Some entries ->
  parseSearchResults responseJson = Ok hits ->
  Forall2
    (fun e h =>
       exists f m,
         e = VObj f /\
         get "url" f = VStr (url h) /\ get "title" f = VStr (title h) /\
         get "meta_url" f = VObj m /\ get "favicon" m = VStr (favicon h) /\
         (get "extra_snippets" f = VUndefined -> extraSnippets h = []) /\
         (forall l, get "extra_snippets" f = VArr l -> l = map VStr (extraSnippets h)) /\
         (get "thumbnail" f = VUndefined -> thumbnail h = None) /\
         (forall th, get "thumbnail" f = VObj th ->
                     exists o, get "original" th = VStr o /\ thumbnail h = Some o))
    entries hits.
Proof.
  intros He Hp. rewrite parseSearchResults_one_pass, He in Hp.
  destruct (mapM hit_from_entry entries) as [hs|] eqn:Hm; [|discriminate].
  inversion Hp; subst hs. apply mapM_Forall2 in Hm.
  eapply Forall2_impl; [|exact Hm]. clear. intros e h H.
  destruct e as [ | | | | | |f]; try discriminate. unfold hit_from_entry in H.
  destruct (get "url" f) as [ | | | |su| | ] eqn:Eu; try discriminate.
  destruct (get "title" f) as [ | | | |st| | ] eqn:Et; try discriminate.
  destruct (get "meta_url" f) as [ | | | | | |m] eqn:Em; try discriminate.
  destruct (get "favicon" m) as [ | | | |sf| | ] eqn:Ef; try discriminate.
  exists f, m.
  destruct (get "extra_snippets" f) as [ | | | | |l| ] eqn:Ex; try discriminate;
    try (destruct (mapM as_str l) as [ss|] eqn:El; [|discriminate];
         apply mapM_as_str in El);
    (destruct (get "thumbnail" f) as [ | | | | | |t] eqn:Eth; try discriminate);
    try (destruct (get "original" t) as [ | | | |so| | ] eqn:Eo; try discriminate);
    inversion H; subst; simpl;
    repeat split; try reflexivity; try assumption; try discriminate;
    try (intros l0 E0; inversion E0; subst; reflexivity);
    try (intros th0 E0; inversion E0; subst; eauto).
Qed.

Lemma hit_fields_follow_entry_witness :
  Forall2
    (fun e h =>
       exists f m,
         e = VObj f /\
         get "url" f = VStr (url h) /\ get "title" f = VStr (title h) /\
         get "meta_url" f = VObj m /\ get "favicon" m = VStr (favicon h) /\
         (get "extra_snippets" f = VUndefined -> extraSnippets h = []) /\
         (forall l, get "extra_snippets" f = VArr l -> l = map VStr (extraSnippets h)) /\
         (get "thumbnail" f = VUndefined -> thumbnail h = None) /\
         (forall th, get "thumbnail" f = VObj th ->
                     exists o, get "original" th = VStr o /\ thumbnail h = Some o))
    [sample_entry "https://a.example" "A"] [sample_hit "https://a.example" "A"].
Proof.
  apply (hit_fields_follow_entry (sample_reply [sample_entry "https://a.example" "A"])).
  - reflexivity.
  - vm_compute. reflexivity.
Defined.

(** X4: keys of an entry other than [url], [title], [meta_url],
    [extra_snippets] and [thumbnail] play no part: two replies whose
    entries agree under these five keys are read alike. *)
Theorem unknown_entry_keys_are_ignored
        (reply1 reply2 : value) (entries1 entries2 : list value) :
  entries_of reply1 = Some entries1 ->
  entries_of reply2 = Some entries2 ->
  Forall2 same_known_fields entries1 entries2 ->
  parseSearchResults reply1 = parseSearchResults reply2.
Proof.
  intros H1 H2 HF. rewrite !parseSearchResults_one_pass, H1, H2.
  rewrite (mapM_ext2 hit_from_entry same_known_fields hit_from_entry_known _ _ HF).
  reflexivity.
Qed.

Lemma unknown_entry_keys_are_ignored_witness :
  parseSearchResults (sample_reply [sample_entry "https://a.example" "A"]) =
  parseSearchResults
    (VObj [("web",
            VObj [("results",
                   VArr [VObj [("language", VStr (lit "en"));
                               ("title", VStr (lit "A"));
                               ("url", VStr (lit "https://a.example"));
                               ("meta_url",
                                VObj [("favicon", VStr (lit "https://x.example/f.ico"))])]])])]%string).
Proof.
  eapply unknown_entry_keys_are_ignored.
  - reflexivity.
  - reflexivity.
  - constructor; [|constructor]. eexists _, _. split; [reflexivity|].
    split; [reflexivity|]. intros k Hk. simpl in Hk.
    repeat (destruct Hk as [<- | Hk]; [reflexivity|]). destruct Hk.
Defined.

(** X5: [thumbnail] and [extra_snippets] may be left out but not set to
    [null]: one entry with a [null] there makes the whole call throw
    [ZodError], before any scrape call. *)
Theorem null_field_fails_the_call
        (env : Env) (query requestUrl : str) (responseJson : value)
        (entries : list value) (e : value) (f : list (string * value)) :
  searchUrl query = Some requestUrl ->
  fetchJson env requestUrl = Some responseJson ->
  entries_of responseJson = Some entries ->
  In e entries ->
  e = VObj f ->
  get "thumbnail" f = VNull \/ get "extra_snippets" f = VNull ->
  searchOnWeb env query = ([], Throw ZodError).
Proof.
  intros Hu Hf He Hin -> Hnull.
  assert (Hh : hit_from_entry (VObj f) = None).
  { unfold hit_from_entry.
    destruct (get "url" f); try reflexivity.
    destruct (get "title" f); try reflexivity.
    destruct (get "meta_url" f) as [ | | | | | |m]; try reflexivity.
    destruct (get "favicon" m); try reflexivity.
    destruct Hnull as [-> | ->]; [|reflexivity].
    destruct (get "extra_snippets" f) as [ | | | | |l| ]; try reflexivity.
    destruct (mapM as_str l); reflexivity. }
  unfold searchOnWeb. rewrite Hu, Hf, parseSearchResults_one_pass, He.
  rewrite (mapM_None_In hit_from_entry entries (VObj f) Hin Hh). reflexivity.
Qed.

Lemma null_field_fails_the_call_witness :
  searchOnWeb
    {| fetchJson := fun _ =>
         Some (sample_reply
                 [sample_entry "https://a.example" "A";
                  VObj [("url", VStr (lit "https://b.example"));
                        ("title", VStr (lit "B"));
                        ("meta_url", VObj [("favicon", VStr (lit "f"))]);
                        ("thumbnail", VNull)]%string]);
       scrapeUrl := scrapeUrl sample_env |}
    sample_query
  = ([], Throw ZodError).
Proof.
  eapply null_field_fails_the_call.
  - vm_compute. reflexivity.
  - reflexivity.
  - reflexivity.
  - right. left. reflexivity.
  - reflexivity.
  - left. reflexivity.
Defined.

(** X6: the call throws in three ways only, and each time before any
    scrape call: a [URIError] where the request URL cannot be built, a
    failed request ([FetchFailed]), or a reply that a schema rejects
    ([ZodError]).  Reading the validated reply never throws a [TypeError],
    and nothing after the validation makes the call throw. *)
Theorem search_throws_before_scraping (env : Env) (query : str) (e : exn) :
  snd (searchOnWeb env query) = Throw e ->
  fst (searchOnWeb env query) = [] /\
  ((e = URIError /\ searchUrl query = None) \/
   (exists requestUrl,
       searchUrl query = Some requestUrl /\
       ((e = FetchFailed /\ fetchJson env requestUrl = None) \/
        (e = ZodError /\
         exists responseJson,
           fetchJson env requestUrl = Some responseJson /\
           parseSearchResults responseJson = Throw ZodError)))).
Proof.
  unfold searchOnWeb. destruct (searchUrl query) as [u|].
  - destruct (fetchJson env u) as [j|] eqn:Hf.
    + pose proof (parseSearchResults_one_pass j) as Hp. rewrite Hp.
      destruct (entries_of j) as [es|].
      * destruct (mapM hit_from_entry es) as [hits|].
        -- cbn [snd]. destruct (Nat.eqb _ 0); discriminate.
        -- cbn [snd fst]. intros H. inversion H. split; [reflexivity|].
           right. exists u. split; [reflexivity|]. right. split; [reflexivity|].
           exists j. auto.
      * cbn [snd fst]. intros H. inversion H. split; [reflexivity|].
        right. exists u. split; [reflexivity|]. right. split; [reflexivity|].
        exists j. auto.
    + cbn [snd fst]. intros H. inversion H. split; [reflexivity|].
      right. exists u. auto.
  - cbn [snd fst]. intros H. inversion H. auto.
Qed.

Lemma search_throws_before_scraping_witness :
  fst (searchOnWeb sample_env_bad sample_query) = [].
Proof.
  apply (search_throws_before_scraping sample_env_bad sample_query ZodError).
  vm_compute. reflexivity.
Defined.

(** X7: what a finding holds is the page's markdown with code units left
    out: it is at most 80,000 code units long, holds no absolute URL, starts
    with a code unit that is not white space, and the markdown it comes from
    holds such a code unit. *)
Theorem findings_are_cut_from_the_page
        (env : Env) (query : str) (rs : SearchResults) (f : Scraped.t) :
  snd (searchOnWeb env query) = Ok rs ->
  In f (results rs) ->
  exists requestUrl responseJson hits k h r m,
    searchUrl query = Some requestUrl /\
    fetchJson env requestUrl = Some responseJson /\
    parseSearchResults responseJson = Ok hits /\
    nth_error hits k = Some h /\
    scrapeUrl env k (url h) scrapeOptions = Some r /\
    markdown r = Some m /\
    subseq (Scraped.content f) m /\
    (exists c, In c m /\ is_ws c = false) /\
    ~ has_url (Scraped.content f) /\
    (Z.of_nat (length (Scraped.content f)) <= 80000)%Z /\
    (forall c t, Scraped.content f = c :: t -> is_ws c = false).
Proof.
  intros Hok Hin.
  destruct (searchOnWeb_inv env query rs Hok) as (u & j & hits & Hu & Hf & Hp).
  rewrite (searchOnWeb_ok env query u j hits Hu Hf Hp) in Hok. cbn [snd] in Hok.
  inversion Hok; subst rs. cbn [results] in Hin.
  apply findings_from_In in Hin. destruct Hin as (k & h & c & Hk & Hc & ->).
  destruct (findings_content env (0 + k) h c Hc) as (Hne & r & Hr & He & Hs & Ec).
  cbn [Scraped.content].
  destruct (markdown r) as [m|] eqn:Em.
  - assert (Hhead : forall y t, c = y :: t -> is_ws y = false).
    { intros y t E. destruct (sanitize_prefix m) as (b & Eb).
      rewrite <- Ec, E in Eb. exact (proj1 (strip_trimmed m) y (t ++ b) Eb). }
    exists u, j, hits, k, h, r, m. repeat split; try assumption.
    + rewrite Ec. apply sanitize_subseq.
    + destruct c as [|y t]; [congruence|]. exists y. split.
      * apply (subseq_In (y :: t) m); [rewrite Ec; apply sanitize_subseq|left; reflexivity].
      * exact (Hhead y t eq_refl).
    + rewrite Ec. apply sanitize_no_url.
    + rewrite Ec. apply sanitize_length.
  - exfalso. apply Hne. rewrite Ec. vm_compute. reflexivity.
Qed.

Lemma findings_are_cut_from_the_page_witness :
  exists requestUrl responseJson hits k h r m,
    searchUrl sample_query = Some requestUrl /\
    fetchJson sample_env requestUrl = Some responseJson /\
    parseSearchResults responseJson = Ok hits /\
    nth_error hits k = Some h /\
    scrapeUrl sample_env k (url h) scrapeOptions = Some r /\
    markdown r = Some m /\
    subseq (lit "read the docs now") m /\
    (exists c, In c m /\ is_ws c = false) /\
    ~ has_url (lit "read the docs now") /\
    (Z.of_nat (length (lit "read the docs now")) <= 80000)%Z /\
    (forall c t, lit "read the docs now" = c :: t -> is_ws c = false).
Proof.
  refine (findings_are_cut_from_the_page sample_env sample_query
            {| results := [Scraped.Make (lit "B") (lit "https://b.example")
                                        (lit "read the docs now")] |}
            (Scraped.Make (lit "B") (lit "https://b.example") (lit "read the docs now"))
            _ _).
  - vm_compute. reflexivity.
  - left. reflexivity.
Defined.

(** ** The findings and the hits *)

Lemma findings_from_subseq (env : Env) :
  forall hits i,
    subseq (map (fun f => (Scraped.title f, Scraped.link f)) (findings_from env i hits))
           (map (fun h => (title h, url h)) hits).
Proof.
  induction hits as [|h hits IH]; intros i; cbn [findings_from map].
  - apply subseq_nil.
  - destruct (scrape_outcome env i h) as [c|]; cbn [map].
    + apply subseq_keep, IH.
    + apply subseq_skip, IH.
Qed.

Lemma subseq_map {A B : Type} (f : A -> B) (l1 l2 : list A) :
  subseq l1 l2 -> subseq (map f l1) (map f l2).
Proof.
  induction 1; cbn [map].
  - apply subseq_nil.
  - apply subseq_skip. assumption.
  - apply subseq_keep. assumption.
Qed.

(** X8: the findings follow the hits: their titles and links are the
    titles and urls of the hits, in the same order, with the hits whose
    scrape gave nothing left out; so there is at most one finding per hit
    and every link is the url of a scrape call that was issued. *)
Theorem findings_follow_the_hits
        (env : Env) (query requestUrl : str) (responseJson : value)
        (hits : list SearchResult) (rs : SearchResults) :
  searchUrl query = Some requestUrl ->
  fetchJson env requestUrl = Some responseJson ->
  parseSearchResults responseJson = Ok hits ->
  snd (searchOnWeb env query) = Ok rs ->
  subseq (map (fun f => (Scraped.title f, Scraped.link f)) (results rs))
         (map (fun h => (title h, url h)) hits) /\
  subseq (map Scraped.link (results rs)) (map call_url (fst (searchOnWeb env query))) /\
  length (results rs) <= length hits.
Proof.
  intros Hu Hf Hp Hok.
  rewrite (searchOnWeb_ok env query requestUrl responseJson hits Hu Hf Hp) in *.
  cbn [snd fst] in *. inversion Hok; subst rs. cbn [results].
  pose proof (findings_from_subseq env hits 0) as H.
  split; [exact H|]. split.
  - apply (subseq_map snd) in H. rewrite !map_map in H. cbn [snd] in H.
    rewrite map_map. exact H.
  - apply subseq_length in H. rewrite !length_map in H. exact H.
Qed.

Lemma findings_follow_the_hits_witness :
  subseq (map (fun f => (Scraped.title f, Scraped.link f))
              [Scraped.Make (lit "B") (lit "https://b.example") (lit "read the docs now")])
         (map (fun h => (title h, url h))
              [sample_hit "https://a.example" "A";
               sample_hit "https://b.example" "B";
               sample_hit "https://c.example" "C"]) /\
  subseq (map Scraped.link
              [Scraped.Make (lit "B") (lit "https://b.example") (lit "read the docs now")])
         (map call_url (fst (searchOnWeb sample_env sample_query))) /\
  1 <= 3.
Proof.
  refine (findings_follow_the_hits sample_env sample_query
            (lit "https://api.search.brave.com/res/v1/web/search?q=rocq&count=5&result_filter=web")
            (sample_reply [sample_entry "https://a.example" "A";
                           sample_entry "https://b.example" "B";
                           sample_entry "https://c.example" "C"])
            [sample_hit "https://a.example" "A";
             sample_hit "https://b.example" "B";
             sample_hit "https://c.example" "C"]
            {| results := [Scraped.Make (lit "B") (lit "https://b.example")
                                        (lit "read the docs now")] |} _ _ _ _).
  - vm_compute. reflexivity.
  - reflexivity.
  - vm_compute. reflexivity.
  - vm_compute. reflexivity.
Defined.

(** ** More steps of the matcher *)

Lemma exec_Cls_intro (c : cls) (p : option char) (x : char) (xs : str)
      (cs : list (nat * str)) (k : cont) (res : mstate) :
  cls_mem c x = true ->
  k (MState (Some x) xs cs) = Some res ->
  exec (Cls c) (MState p (x :: xs) cs) k = Some res.
Proof. intros Hx Hk. simpl. rewrite Hx. exact Hk. Qed.

Lemma exec_Star_intro (c : cls) (p : option char) (t R : str)
      (cs : list (nat * str)) (k : cont) (res : mstate) :
  Forall (fun y => cls_mem c y = true) t ->
  (R = [] \/ exists y R', R = y :: R' /\ cls_mem c y = false) ->
  k (MState (prev_after p t) R cs) = Some res ->
  exec (Star c) (MState p (t ++ R) cs) k = Some res.
Proof. intros Ht HR Hk. simpl. apply exec_star_greedy; assumption. Qed.

Lemma exec_Opt_intro (r : regex) (st : mstate) (k : cont) (res : mstate) :
  exec r st k = Some res -> exec (Opt r) st k = Some res.
Proof. intros H. simpl. rewrite H. reflexivity. Qed.

Lemma exec_Bol_intro (st : mstate) (k : cont) (res : mstate) :
  at_line_start (prev st) = true -> k st = Some res -> exec Bol st k = Some res.
Proof. intros H Hk. simpl. rewrite H. exact Hk. Qed.

Lemma exec_Eol_intro (st : mstate) (k : cont) (res : mstate) :
  at_line_end (rest st) = true -> k st = Some res -> exec Eol st k = Some res.
Proof. intros H Hk. simpl. rewrite H. exact Hk. Qed.

Lemma cls_not_ws_intro (y : char) : is_ws y = false -> cls_mem (Not [WS]) y = true.
Proof. intros H. simpl. now rewrite H. Qed.

(** Where no opening bracket stands, the image, link and
    reference-definition rules find nothing. *)
Lemma no_bracket_rules_idle (s : str) :
  ~ In (chr "[") s ->
  ~ found re_image s /\ ~ found re_link s /\ ~ found re_refdef s.
Proof.
  intros H. destruct (no_bracket_not_found s H) as [H1 H2].
  split; [exact H1|]. split; [exact H2|].
  intros F. apply H. destruct (found_word _ _ F) as (pre & w & post & -> & L).
  destruct (lang_refdef_bracket _ L) as (r & ->).
  apply in_or_app. right. simpl. auto.
Qed.

Lemma first_occurrence_unique {A : Type} (c : A) :
  forall l1 l2 r1 r2,
    ~ In c l1 -> ~ In c l2 ->
    l1 ++ c :: r1 = l2 ++ c :: r2 -> l1 = l2 /\ r1 = r2.
Proof.
  induction l1 as [|a l1 IH]; intros l2 r1 r2 H1 H2 E.
  - destruct l2 as [|b l2]; simpl in E.
    + inversion E. auto.
    + inversion E; subst. destruct H2. left. reflexivity.
  - destruct l2 as [|b l2]; simpl in E.
    + inversion E; subst. destruct H1. left. reflexivity.
    + inversion E; subst.
      destruct (IH l2 r1 r2) as [-> ->]; auto.
      * intros Hin. apply H1. right. exact Hin.
      * intros Hin. apply H2. right. exact Hin.
Qed.

Lemma exec_Eps_intro (st : mstate) (k : cont) (res : mstate) :
  k st = Some res -> exec Eps st k = Some res.
Proof. exact (fun H => H). Qed.

(** ** The bare-URL rule on a text with one URL *)

Lemma has_scheme_cons (c : char) (a : str) : has_scheme a -> has_scheme (c :: a).
Proof.
  intros H. apply (has_scheme_app [c] a []) in H. now rewrite app_nil_r in H.
Qed.

(** A URL cannot begin inside [a] and run into an [h] that follows [a],
    unless [a] itself holds a scheme. *)
Lemma url_head_straddle (a r : str) :
  a <> [] -> url_head (a ++ chr "h" :: r) -> has_scheme a.
Proof.
  intros Ha (sch & x & u & Hs & _ & E).
  apply app_eq_app in E. destruct E as (l & [[E1 E2] | [E1 E2]]).
  - rewrite E1. rewrite <- (app_nil_l (sch ++ l)). apply has_scheme_intro. exact Hs.
  - destruct l as [|c l].
    + rewrite app_nil_r in E1. subst a.
      rewrite <- (app_nil_r sch), <- (app_nil_l (sch ++ [])).
      apply has_scheme_intro. exact Hs.
    + simpl in E2. inversion E2; subst c. exfalso.
      destruct a as [|c a]; [congruence|].
      assert (Hin : In (chr "h") (tl sch)).
      { rewrite E1. simpl. apply in_or_app. right. left. reflexivity. }
      destruct Hs as [-> | ->]; simpl in Hin; intuition discriminate.
Qed.

Lemma bare_prefix_idle :
  forall a p U,
    ~ has_scheme a ->
    (exists r, U = chr "h" :: r) ->
    exists p',
      replace_go re_bare [] 0 p (a ++ U) = a ++ replace_go re_bare [] 0 p' U.
Proof.
  induction a as [|c a IH]; intros p U Ha HU.
  - exists p. reflexivity.
  - assert (Ha' : ~ has_scheme a) by (intros H; apply Ha, has_scheme_cons, H).
    destruct (IH (Some c) U Ha' HU) as (p' & E). exists p'.
    simpl app. rewrite replace_go_nomatch.
    + rewrite E. reflexivity.
    + apply match_bare_none. intros H. apply Ha.
      destruct HU as (r & ->).
      exact (url_head_straddle (c :: a) r ltac:(discriminate) H).
Qed.

Lemma match_bare_exact (p : option char) (sch u b : str) (x : char) :
  sch = lit "http://" \/ sch = lit "https://" ->
  Forall (fun y => is_ws y = false) (x :: u) ->
  (b = [] \/ exists c r, b = c :: r /\ is_ws c = true) ->
  exists st, match_at re_bare p (sch ++ x :: u ++ b) = Some st /\ rest st = b.
Proof.
  intros Hs Hu Hb.
  assert (Hu' : Forall (fun c => cls_mem (Not [WS]) c = true) (x :: u)).
  { eapply Forall_impl; [|exact Hu]. intros c Hc. now apply cls_not_ws_intro. }
  eexists. split.
  - unfold match_at, re_bare. cbv [Cat fold_right].
    apply exec_Seq_intro, exec_scheme_intro; [exact Hs|].
    apply exec_Seq_intro, exec_Plus_intro; [exact Hu'| |].
    + destruct Hb as [-> | (c & r & -> & Hc)]; [left; reflexivity|right].
      exists c, r. split; [reflexivity|]. simpl. now rewrite Hc.
    + apply exec_Eps_intro. reflexivity.
  - reflexivity.
Qed.

Lemma replace_bare_id :
  forall s p, ~ has_url s -> replace_go re_bare [] 0 p s = s.
Proof.
  induction s as [|c s IH]; intros p H; [apply replace_bare_nil|].
  rewrite replace_go_nomatch.
  - f_equal. apply IH. intros Hs. apply H.
    apply (has_url_suffix [c]) in Hs. exact Hs.
  - apply match_bare_none. intros Hh. apply H. apply has_url_iff.
    exists [], (c :: s). auto.
Qed.

Lemma replace_bare_one_url (a sch u b : str) (x : char) :
  sch = lit "http://" \/ sch = lit "https://" ->
  ~ has_scheme a ->
  Forall (fun y => is_ws y = false) (x :: u) ->
  (b = [] \/ exists c r, b = c :: r /\ is_ws c = true) ->
  ~ has_url b ->
  replace re_bare [] (a ++ sch ++ x :: u ++ b) = a ++ b.
Proof.
  intros Hs Ha Hu Hb Hnb. unfold replace.
  destruct (bare_prefix_idle a None (sch ++ x :: u ++ b) Ha) as (p' & E).
  { destruct Hs as [-> | ->]; eexists; reflexivity. }
  rewrite E. f_equal.
  destruct (match_bare_exact p' sch u b x Hs Hu Hb) as (st & M & Hr).
  destruct (replace_go_match re_bare [] p' _ st M) as (p'' & R).
  - rewrite Hr, !length_app. simpl. rewrite length_app.
    destruct Hs as [-> | ->]; simpl; lia.
  - rewrite R, Hr. simpl. apply replace_bare_id. exact Hnb.
Qed.

Lemma lang_angle_lt (w : str) : lang re_angle w -> exists r, w = chr "<" :: r.
Proof.
  intros L. destruct (lang_angle_inv _ L) as (sch & x & u & _ & _ & ->).
  eexists. reflexivity.
Qed.

Lemma no_lt_angle_idle (s : str) : ~ In (chr "<") s -> ~ found re_angle s.
Proof.
  intros H F. apply H. destruct (found_word _ _ F) as (pre & w & post & -> & L).
  destruct (lang_angle_lt _ L) as (r & ->).
  apply in_or_app. right. simpl. auto.
Qed.

(** ** One construct in running text *)

Section OneMatch.
Variables (re : regex) (tpl : list repl_item).

Lemma replace_go_prefix_idle :
  forall a p U,
    (forall a1 c a2 q, a = a1 ++ c :: a2 -> match_at re q (c :: a2 ++ U) = None) ->
    replace_go re tpl 0 p (a ++ U) = a ++ replace_go re tpl 0 (prev_after p a) U.
Proof.
  induction a as [|c a IH]; intros p U H.
  - reflexivity.
  - simpl app. rewrite (replace_go_nomatch re tpl) by (apply (H [] c a p); reflexivity).
    rewrite IH; [reflexivity|].
    intros a1 c' a2 q E. apply (H (c :: a1) c' a2 q). rewrite E. reflexivity.
Qed.

Lemma replace_go_idle :
  forall s p,
    (forall a b q, s = a ++ b -> match_at re q b = None) ->
    replace_go re tpl 0 p s = s.
Proof.
  induction s as [|c s IH]; intros p H.
  - simpl. rewrite (H [] [] p eq_refl). reflexivity.
  - rewrite (replace_go_nomatch re tpl) by (apply (H []); reflexivity).
    f_equal. apply IH. intros a b q E. apply (H (c :: a)). rewrite E. reflexivity.
Qed.

(** The text [a ++ U] where the expression matches nowhere in front of [U],
    matches [U] up to [b], and matches nowhere in [b]. *)
Lemma replace_one_match (a U b : str) (st : mstate) :
  (forall a1 c a2 q, a = a1 ++ c :: a2 -> match_at re q (c :: a2 ++ U) = None) ->
  match_at re (prev_after None a) U = Some st ->
  rest st = b ->
  length b < length U ->
  (forall a' b' q, b = a' ++ b' -> match_at re q b' = None) ->
  replace re tpl (a ++ U) = a ++ expand tpl (caps st) ++ b.
Proof.
  intros Ha M Hr Hlen Hb. unfold replace.
  rewrite (replace_go_prefix_idle a None U Ha).
  destruct (replace_go_match re tpl _ U st M) as (p' & R); [rewrite Hr; exact Hlen|].
  rewrite R, Hr, (replace_go_idle b p' Hb). reflexivity.
Qed.

End OneMatch.

Lemma match_none_head (re : regex) (c0 : char) :
  (forall w, lang re w -> exists r, w = c0 :: r) ->
  forall q c s, c <> c0 -> match_at re q (c :: s) = None.
Proof.
  intros H q c s Hc. destruct (match_at re q (c :: s)) as [st|] eqn:M; [|reflexivity].
  destruct (match_at_sound _ _ _ _ M) as (w & E & L).
  destruct (H w L) as (r & ->). simpl in E. inversion E. congruence.
Qed.

Lemma prefix_idle_head (re : regex) (c0 : char) (a U : str) :
  (forall w, lang re w -> exists r, w = c0 :: r) ->
  ~ In c0 a ->
  forall a1 c a2 q, a = a1 ++ c :: a2 -> match_at re q (c :: a2 ++ U) = None.
Proof.
  intros H Ha a1 c a2 q E. apply (match_none_head re c0 H).
  intros ->. apply Ha. rewrite E. apply in_or_app. right. left. reflexivity.
Qed.

(** In front of an image, in a text without opening brackets, the image
    rule finds nothing. *)
Lemma prefix_idle_image (a R : str) :
  ~ In (chr "[") a ->
  forall a1 c a2 q,
    a = a1 ++ c :: a2 -> match_at re_image q (c :: a2 ++ chr "!" :: R) = None.
Proof.
  intros Ha a1 c a2 q E.
  destruct (match_at re_image q (c :: a2 ++ chr "!" :: R)) as [st|] eqn:M; [|reflexivity].
  destruct (match_at_sound _ _ _ _ M) as (w & Ew & L).
  destruct (lang_image_bang _ L) as (r & ->).
  exfalso. destruct a2 as [|c' a2]; simpl in Ew; inversion Ew.
  apply Ha. rewrite E. subst c'. apply in_or_app. right. simpl. auto.
Qed.

Lemma line_terminator_is_ws (c : char) : is_line_terminator c = true -> is_ws c = true.
Proof.
  unfold is_line_terminator. simpl. intros H.
  repeat (apply orb_true_iff in H; destruct H as [H | H];
          [apply N.eqb_eq in H; subst c; reflexivity|]).
  discriminate.
Qed.

Lemma prev_after_snoc (p : option char) (l : str) (c : char) :
  prev_after p (l ++ [c]) = Some c.
Proof. unfold prev_after. rewrite fold_left_app. reflexivity. Qed.

Lemma ends_line_start (a : str) : ends_line a -> at_line_start (prev_after None a) = true.
Proof.
  intros [-> | (r & c & -> & Hc)]; [reflexivity|].
  rewrite prev_after_snoc. exact Hc.
Qed.

Lemma exec_Opt_skip (r : regex) (st : mstate) (k : cont) :
  exec r st k = None -> exec (Opt r) st k = k st.
Proof. intros H. simpl. rewrite H. reflexivity. Qed.

(** A title needs a double quote. *)
Lemma exec_title_opt_none (st : mstate) (k : cont) :
  ~ In dquote (rest st) -> exec title_opt st k = k st.
Proof.
  intros H. unfold title_opt. apply exec_Opt_skip.
  match goal with |- exec ?r _ _ = None => destruct (exec r st k) as [res|] eqn:M end;
    [|reflexivity].
  exfalso. apply H.
  destruct (exec_sound _ _ _ _ M) as (w & st' & E & L & _).
  rewrite E. apply in_or_app. left.
  cbv [Cat fold_right] in L.
  destruct L as (w1 & w2 & -> & _ & (w3 & w4 & -> & (x & -> & Hx) & _)).
  apply N.eqb_eq in Hx. subst x. apply in_or_app. right. left. reflexivity.
Qed.

(** *** The matches themselves *)

Lemma match_markup_in_text (l0 : str) (p : option char) (sch t u ttl b : str) (x : char) :
  sch = lit "http://" \/ sch = lit "https://" ->
  Forall (fun y => y <> chr "]") t ->
  Forall (fun y => is_ws y = false /\ y <> chr ")") (x :: u) ->
  link_title ttl ->
  exists st,
    match_at (markup l0) p
      (l0 ++ t ++ lit "](" ++ sch ++ x :: u ++ ttl ++ lit ")" ++ b) = Some st /\
    rest st = b /\ capture 1 (caps st) = t.
Proof.
  intros Hs Ht Hu Httl.
  assert (Ht' : Forall (fun y => cls_mem (Not [Ch (chr "]")]) y = true) t).
  { eapply Forall_impl; [|exact Ht]. intros y Hy. now apply cls_not_char_intro. }
  assert (Hu' : Forall (fun y => cls_mem (Not [WS; Ch (chr ")")]) y = true) (x :: u)).
  { eapply Forall_impl; [|exact Hu]. intros y [Hy1 Hy2]. now apply cls_url_char_intro. }
  destruct Httl as [-> | (w1 & ws & title & Hw & Hq & ->)].
  - eexists. split.
    + unfold match_at, markup. cbv [Cat fold_right].
      apply exec_Seq_intro, exec_Lit_intro.
      apply exec_Seq_intro, exec_Group_Star_intro;
        [exact Ht'|right; eexists _, _; split; reflexivity|].
      apply exec_Seq_intro. apply (exec_Lit_intro (lit "](")).
      apply exec_Seq_intro, exec_Group_intro.
      apply exec_Seq_intro, exec_scheme_intro; [exact Hs|].
      apply exec_Seq_intro, exec_Plus_intro;
        [exact Hu'|right; eexists _, _; split; reflexivity|].
      cbv beta. cbn [exec rest prev caps].
      reflexivity.
    + split; reflexivity.
  - assert (Hq' : Forall (fun y => cls_mem (Not [Ch dquote]) y = true) title).
    { eapply Forall_impl; [|exact Hq]. intros y Hy. now apply cls_not_char_intro. }
    assert (Hw1 : is_ws w1 = true) by (inversion Hw; assumption).
    replace (((w1 :: ws) ++ dquote :: title ++ [dquote]) ++ lit ")" ++ b)
      with ((w1 :: ws) ++ dquote :: title ++ dquote :: lit ")" ++ b)
      by (simpl; rewrite <- !app_assoc; simpl; rewrite <- !app_assoc; reflexivity).
    eexists. split.
    + unfold match_at, markup, title_opt. cbv [Cat fold_right].
      apply exec_Seq_intro, exec_Lit_intro.
      apply exec_Seq_intro, exec_Group_Star_intro;
        [exact Ht'|right; eexists _, _; split; reflexivity|].
      apply exec_Seq_intro. apply (exec_Lit_intro (lit "](")).
      apply exec_Seq_intro, exec_Group_intro.
      apply exec_Seq_intro, exec_scheme_intro; [exact Hs|].
      apply exec_Seq_intro, exec_Plus_intro;
        [exact Hu'
        |right; eexists _, _; split; [reflexivity|simpl; rewrite Hw1; reflexivity]|].
      cbv beta. apply exec_Eps_intro. cbn [rest prev caps].
      apply exec_Seq_intro, exec_Opt_intro.
      apply exec_Seq_intro. rewrite <- app_comm_cons.
      apply exec_Plus_intro;
        [exact Hw|right; eexists _, _; split; reflexivity|].
      apply exec_Seq_intro, exec_Cls_intro; [apply N.eqb_refl|].
      apply exec_Seq_intro, exec_Star_intro;
        [exact Hq'|right; eexists _, _; split; reflexivity|].
      apply exec_Seq_intro, exec_Cls_intro; [apply N.eqb_refl|].
      apply exec_Eps_intro. reflexivity.
    + split; reflexivity.
Qed.

Lemma match_angle_in_text (p : option char) (sch u b : str) (x : char) :
  sch = lit "http://" \/ sch = lit "https://" ->
  Forall (fun y => y <> chr ">") (x :: u) ->
  exists st,
    match_at re_angle p (lit "<" ++ sch ++ x :: u ++ lit ">" ++ b) = Some st /\
    rest st = b /\ expand [] (caps st) = [].
Proof.
  intros Hs Hu.
  assert (Hu' : Forall (fun y => cls_mem (Not [Ch (chr ">")]) y = true) (x :: u)).
  { eapply Forall_impl; [|exact Hu]. intros y Hy. now apply cls_not_char_intro. }
  eexists. split.
  - unfold match_at, re_angle. cbv [Cat fold_right].
    apply exec_Seq_intro. apply (exec_Lit_intro (lit "<")).
    apply exec_Seq_intro, exec_Group_intro.
    apply exec_Seq_intro, exec_scheme_intro; [exact Hs|].
    apply exec_Seq_intro, exec_Plus_intro;
      [exact Hu'|right; eexists _, _; split; reflexivity|].
    cbv beta. cbn [exec rest prev caps]. reflexivity.
  - split; reflexivity.
Qed.

Lemma match_refdef_in_text (p : option char) (l ws sch u b : str) (y x : char) :
  at_line_start p = true ->
  sch = lit "http://" \/ sch = lit "https://" ->
  Forall (fun c => c <> chr "]") (y :: l) ->
  Forall (fun c => is_ws c = true) ws ->
  Forall (fun c => is_ws c = false) (x :: u) ->
  starts_line_break b ->
  ~ In dquote b ->
  exists st,
    match_at re_refdef p (lit "[" ++ (y :: l) ++ lit "]:" ++ ws ++ sch ++ x :: u ++ b)
      = Some st /\
    rest st = b.
Proof.
  intros Hp Hs Hl Hw Hu Hb Hq.
  assert (Hl' : Forall (fun c => cls_mem (Not [Ch (chr "]")]) c = true) (y :: l)).
  { eapply Forall_impl; [|exact Hl]. intros c Hc. now apply cls_not_char_intro. }
  assert (Hu' : Forall (fun c => cls_mem (Not [WS]) c = true) (x :: u)).
  { eapply Forall_impl; [|exact Hu]. intros c Hc. now apply cls_not_ws_intro. }
  assert (Hh : exists r, sch ++ x :: u ++ b = chr "h" :: r).
  { destruct Hs as [-> | ->]; eexists; reflexivity. }
  destruct Hh as (r & Hh).
  assert (Hstop : b = [] \/ exists c R', b = c :: R' /\ cls_mem (Not [WS]) c = false).
  { destruct Hb as [-> | (c & R' & -> & Hc)]; [left; reflexivity|right].
    exists c, R'. split; [reflexivity|]. simpl.
    now rewrite (line_terminator_is_ws c Hc). }
  assert (Hend : at_line_end b = true).
  { destruct Hb as [-> | (c & R' & -> & Hc)]; [reflexivity|exact Hc]. }
  eexists. split.
  - unfold match_at, re_refdef. cbv [Cat fold_right].
    apply exec_Seq_intro, exec_Bol_intro; [exact Hp|].
    apply exec_Seq_intro, exec_Lit_intro.
    apply exec_Seq_intro.
    change ((y :: l) ++ lit "]:" ++ ws ++ sch ++ x :: u ++ b)
      with (y :: l ++ lit "]:" ++ ws ++ sch ++ x :: u ++ b).
    apply exec_Plus_intro; [exact Hl'|right; eexists _, _; split; reflexivity|].
    apply exec_Seq_intro. apply (exec_Lit_intro (lit "]:")).
    apply exec_Seq_intro, exec_Star_intro;
      [exact Hw|right; rewrite Hh; eexists _, _; split; reflexivity|].
    apply exec_Seq_intro, exec_scheme_intro; [exact Hs|].
    apply exec_Seq_intro, exec_Plus_intro; [exact Hu'|exact Hstop|].
    cbv beta. apply exec_Seq_intro.
    rewrite exec_title_opt_none by exact Hq.
    apply exec_Seq_intro, exec_Eol_intro; [exact Hend|].
    apply exec_Eps_intro. reflexivity.
  - reflexivity.
Qed.

(** *** The whole sanitizer on one construct *)

Lemma single_occurrence {A : Type} (c : A) (pre X a Y : list A) :
  ~ In c a -> ~ In c Y -> pre ++ c :: X = a ++ c :: Y -> pre = a /\ X = Y.
Proof.
  intros Ha HY E. apply app_eq_app in E. destruct E as (l & [[E1 E2] | [E1 E2]]).
  - destruct l as [|d l]; simpl in E2; inversion E2; subst.
    + rewrite app_nil_r. auto.
    + exfalso. apply HY. apply in_or_app. right. left. reflexivity.
  - destruct l as [|d l]; simpl in E2; inversion E2; subst.
    + rewrite app_nil_r. auto.
    + exfalso. apply Ha. apply in_or_app. right. left. reflexivity.
Qed.

Lemma Forall_neq {A : Type} (c : A) (l : list A) :
  ~ In c l -> Forall (fun y => y <> c) l.
Proof. intros H. apply Forall_forall. intros y Hy ->. exact (H Hy). Qed.

Lemma not_In_app {A : Type} (c : A) (l1 l2 : list A) :
  ~ In c l1 -> ~ In c l2 -> ~ In c (l1 ++ l2).
Proof. intros H1 H2 H. apply in_app_or in H. tauto. Qed.

Lemma not_In_scheme (c : char) (sch : str) :
  sch = lit "http://" \/ sch = lit "https://" ->
  c = chr "[" \/ c = chr "<" -> ~ In c sch.
Proof.
  intros [-> | ->] [-> | ->] H; simpl in H; intuition discriminate.
Qed.

Lemma not_In_ws (c : char) (ws : str) :
  is_ws c = false -> Forall (fun y => is_ws y = true) ws -> ~ In c ws.
Proof.
  intros Hc Hw Hin. rewrite Forall_forall in Hw. specialize (Hw _ Hin). congruence.
Qed.

Lemma has_scheme_suffix (a b : str) : has_scheme b -> has_scheme (a ++ b).
Proof.
  intros H. apply (has_scheme_app a b []) in H. now rewrite app_nil_r in H.
Qed.

Lemma match_none_no_scheme (re : regex) (s : str) :
  (forall w, lang re w -> has_scheme w) ->
  ~ has_scheme s ->
  forall a b q, s = a ++ b -> match_at re q b = None.
Proof.
  intros H Hs a b q E. destruct (match_at re q b) as [st|] eqn:M; [|reflexivity].
  destruct (match_at_sound _ _ _ _ M) as (w & Eb & L).
  exfalso. apply Hs. rewrite E, Eb. exact (has_scheme_app a w (rest st) (H w L)).
Qed.

Lemma lang_image_has_scheme (w : str) : lang re_image w -> has_scheme w.
Proof. intros L. apply has_url_scheme, lang_image_has_url, L. Qed.

Lemma lang_link_has_scheme (w : str) : lang re_link w -> has_scheme w.
Proof. intros L. apply has_url_scheme, lang_link_has_url, L. Qed.

Lemma lang_refdef_has_scheme (w : str) : lang re_refdef w -> has_scheme w.
Proof. intros L. apply has_url_scheme, lang_refdef_has_url, L. Qed.

Lemma replace_image_in_text (a sch t u ttl b : str) (x : char) :
  sch = lit "http://" \/ sch = lit "https://" ->
  ~ In (chr "]") t ->
  Forall (fun y => is_ws y = false) (x :: u) -> ~ In (chr ")") (x :: u) ->
  link_title ttl ->
  ~ In (chr "[") a ->
  ~ has_scheme b ->
  replace re_image [RCap 1]
    (a ++ lit "![" ++ t ++ lit "](" ++ sch ++ x :: u ++ ttl ++ lit ")" ++ b)
  = a ++ t ++ b.
Proof.
  intros Hs Htr Hu Hup Httl Ha Hb.
  destruct (match_markup_in_text (lit "![") (prev_after None a) sch t u ttl b x Hs
              (Forall_neq _ _ Htr) (Forall_and Hu (Forall_neq _ _ Hup)) Httl)
    as (st & M & Hr & Hc).
  change re_image with (markup (lit "![")).
  rewrite (replace_one_match (markup (lit "![")) [RCap 1] a _ b st).
  - unfold expand. simpl flat_map. rewrite Hc, app_nil_r. reflexivity.
  - intros a1 c a2 q E. exact (prefix_idle_image a _ Ha a1 c a2 q E).
  - exact M.
  - exact Hr.
  - repeat (rewrite ?length_app; simpl). lia.
  - apply (match_none_no_scheme re_image b lang_image_has_scheme Hb).
Qed.

Lemma replace_link_in_text (a sch t u ttl b : str) (x : char) :
  sch = lit "http://" \/ sch = lit "https://" ->
  ~ In (chr "]") t ->
  Forall (fun y => is_ws y = false) (x :: u) -> ~ In (chr ")") (x :: u) ->
  link_title ttl ->
  ~ In (chr "[") a ->
  ~ has_scheme b ->
  replace re_link [RCap 1]
    (a ++ lit "[" ++ t ++ lit "](" ++ sch ++ x :: u ++ ttl ++ lit ")" ++ b)
  = a ++ t ++ b.
Proof.
  intros Hs Htr Hu Hup Httl Ha Hb.
  destruct (match_markup_in_text (lit "[") (prev_after None a) sch t u ttl b x Hs
              (Forall_neq _ _ Htr) (Forall_and Hu (Forall_neq _ _ Hup)) Httl)
    as (st & M & Hr & Hc).
  change re_link with (markup (lit "[")).
  rewrite (replace_one_match (markup (lit "[")) [RCap 1] a _ b st).
  - unfold expand. simpl flat_map. rewrite Hc, app_nil_r. reflexivity.
  - exact (prefix_idle_head re_link (chr "[") a _ lang_link_bracket Ha).
  - exact M.
  - exact Hr.
  - repeat (rewrite ?length_app; simpl). lia.
  - apply (match_none_no_scheme re_link b lang_link_has_scheme Hb).
Qed.

Lemma replace_angle_in_text (a sch u b : str) (x : char) :
  sch = lit "http://" \/ sch = lit "https://" ->
  ~ In (chr ">") (x :: u) ->
  ~ In (chr "<") a ->
  ~ has_scheme b ->
  replace re_angle [] (a ++ lit "<" ++ sch ++ x :: u ++ lit ">" ++ b) = a ++ b.
Proof.
  intros Hs Hu Ha Hb.
  destruct (match_angle_in_text (prev_after None a) sch u b x Hs (Forall_neq _ _ Hu))
    as (st & M & Hr & Hc).
  rewrite (replace_one_match re_angle [] a _ b st).
  - reflexivity.
  - exact (prefix_idle_head re_angle (chr "<") a _ lang_angle_lt Ha).
  - exact M.
  - exact Hr.
  - repeat (rewrite ?length_app; simpl). lia.
  - apply (match_none_no_scheme re_angle b lang_angle_has_scheme Hb).
Qed.

Lemma replace_refdef_in_text (a l ws sch u b : str) (y x : char) :
  sch = lit "http://" \/ sch = lit "https://" ->
  ends_line a -> starts_line_break b ->
  ~ In (chr "]") (y :: l) ->
  Forall (fun c => is_ws c = true) ws ->
  Forall (fun c => is_ws c = false) (x :: u) ->
  ~ In (chr "[") a ->
  ~ In dquote b ->
  ~ has_scheme b ->
  replace re_refdef []
    (a ++ lit "[" ++ (y :: l) ++ lit "]:" ++ ws ++ sch ++ x :: u ++ b) = a ++ b.
Proof.
  intros Hs Hea Hsb Hl Hw Hu Ha Hq Hb.
  destruct (match_refdef_in_text (prev_after None a) l ws sch u b y x
              (ends_line_start a Hea) Hs (Forall_neq _ _ Hl) Hw Hu Hsb Hq)
    as (st & M & Hr).
  rewrite (replace_one_match re_refdef [] a _ b st).
  - reflexivity.
  - exact (prefix_idle_head re_refdef (chr "[") a _ lang_refdef_bracket Ha).
  - exact M.
  - exact Hr.
  - repeat (rewrite ?length_app; simpl). lia.
  - apply (match_none_no_scheme re_refdef b lang_refdef_has_scheme Hb).
Qed.

(** The rules that follow the one that fired find nothing in a text
    without [http://] and [https://]. *)
Lemma later_rules_idle (s : str) :
  ~ has_scheme s ->
  replace re_link [RCap 1] s = s /\ replace re_refdef [] s = s /\
  replace re_angle [] s = s /\ replace re_bare [] s = s.
Proof.
  intros H. destruct (no_scheme_not_found s H) as (_ & H2 & H3 & H4 & H5).
  repeat split; apply replace_not_found; assumption.
Qed.

(** An image with an [http(s)] target in running text. *)
Lemma strip_image_in_text (a sch t u ttl b : str) (x : char) :
  sch = lit "http://" \/ sch = lit "https://" ->
  ~ In (chr "]") t ->
  Forall (fun y => is_ws y = false) (x :: u) -> ~ In (chr ")") (x :: u) ->
  link_title ttl ->
  ~ In (chr "[") a ->
  ~ has_scheme (a ++ t ++ b) ->
  stripUrlsFromMarkdown
    (a ++ lit "![" ++ t ++ lit "](" ++ sch ++ x :: u ++ ttl ++ lit ")" ++ b)
  = trim (a ++ t ++ b).
Proof.
  intros Hs Htr Hu Hup Httl Ha Hns.
  assert (Hb : ~ has_scheme b).
  { intros H. apply Hns. rewrite app_assoc. apply has_scheme_suffix. exact H. }
  destruct (later_rules_idle _ Hns) as (R2 & R3 & R4 & R5).
  unfold stripUrlsFromMarkdown.
  rewrite (replace_image_in_text a sch t u ttl b x Hs Htr Hu Hup Httl Ha Hb).
  rewrite R2, R3, R4, R5. reflexivity.
Qed.

(** X9: an image with an [http(s)] target in running text is replaced by
    its alternative text, with or without a title in double quotes after
    the target, and the text around it is kept: the whole sanitizes to the
    surrounding text with the alternative text in place of the image,
    trimmed.  The text in front holds no opening bracket, the alternative
    text no closing bracket, and what is left holds no [http://] or
    [https://]. *)
Theorem image_in_text_becomes_its_text (a sch t u ttl b : str) (x : char) :
  sch = lit "http://" \/ sch = lit "https://" ->
  ~ In (chr "]") t ->
  Forall (fun y => is_ws y = false) (x :: u) -> ~ In (chr ")") (x :: u) ->
  link_title ttl ->
  ~ In (chr "[") a ->
  ~ has_scheme (a ++ t ++ b) ->
  stripUrlsFromMarkdown
    (a ++ lit "![" ++ t ++ lit "](" ++ sch ++ x :: u ++ ttl ++ lit ")" ++ b)
  = trim (a ++ t ++ b).
Proof. exact (strip_image_in_text a sch t u ttl b x). Qed.

(** A link with an [http(s)] target in running text. *)
Lemma strip_link_in_text (a sch t u ttl b : str) (x : char) :
  sch = lit "http://" \/ sch = lit "https://" ->
  ~ In (chr "[") t -> ~ In (chr "]") t ->
  Forall (fun y => is_ws y = false) (x :: u) ->
  ~ In (chr ")") (x :: u) -> ~ In (chr "[") (x :: u) ->
  link_title ttl -> ~ In (chr "[") ttl ->
  ~ In (chr "[") a -> last a (chr " ") <> chr "!" ->
  ~ In (chr "[") b ->
  ~ has_scheme (a ++ t ++ b) ->
  stripUrlsFromMarkdown
    (a ++ lit "[" ++ t ++ lit "](" ++ sch ++ x :: u ++ ttl ++ lit ")" ++ b)
  = trim (a ++ t ++ b).
Proof.
  intros Hs Htl Htr Hu Hup Hub Httl Httlb Ha Hbang Hbb Hns.
  assert (Hb : ~ has_scheme b).
  { intros H. apply Hns. rewrite app_assoc. apply has_scheme_suffix. exact H. }
  destruct (later_rules_idle _ Hns) as (_ & R3 & R4 & R5).
  assert (HR : ~ In (chr "[")
                 (t ++ lit "](" ++ sch ++ (x :: u) ++ ttl ++ lit ")" ++ b)).
  { repeat apply not_In_app; try assumption.
    - simpl. intuition discriminate.
    - apply not_In_scheme; auto.
    - simpl. intuition discriminate. }
  assert (HW : ~ found re_image
                 (a ++ lit "[" ++ t ++ lit "](" ++ sch ++ x :: u ++ ttl ++ lit ")" ++ b)).
  { intros F. destruct (found_word _ _ F) as (pre & w & post & E & L).
    destruct (lang_image_bang _ L) as (r & ->).
    assert (E' : (pre ++ [chr "!"]) ++ chr "[" :: (r ++ post) =
                 a ++ chr "[" :: (t ++ lit "](" ++ sch ++ (x :: u) ++ ttl ++ lit ")" ++ b)).
    { rewrite <- app_assoc. symmetry. exact E. }
    destruct (single_occurrence _ _ _ _ _ Ha HR E') as [Epre _].
    apply Hbang. rewrite <- Epre. apply last_last. }
  unfold stripUrlsFromMarkdown.
  rewrite (replace_not_found re_image _ _ HW).
  rewrite (replace_link_in_text a sch t u ttl b x Hs Htr Hu Hup Httl Ha Hb).
  rewrite R3, R4, R5. reflexivity.
Qed.

(** X10: a link with an [http(s)] target in running text is replaced by its
    text, with or without a title, and the text around it is kept.  The
    text in front must not end with an exclamation mark, which would make
    the construct an image. *)
Theorem link_in_text_becomes_its_text (a sch t u ttl b : str) (x : char) :
  sch = lit "http://" \/ sch = lit "https://" ->
  ~ In (chr "[") t -> ~ In (chr "]") t ->
  Forall (fun y => is_ws y = false) (x :: u) ->
  ~ In (chr ")") (x :: u) -> ~ In (chr "[") (x :: u) ->
  link_title ttl -> ~ In (chr "[") ttl ->
  ~ In (chr "[") a -> last a (chr " ") <> chr "!" ->
  ~ In (chr "[") b ->
  ~ has_scheme (a ++ t ++ b) ->
  stripUrlsFromMarkdown
    (a ++ lit "[" ++ t ++ lit "](" ++ sch ++ x :: u ++ ttl ++ lit ")" ++ b)
  = trim (a ++ t ++ b).
Proof. exact (strip_link_in_text a sch t u ttl b x). Qed.

(** A URL in angle brackets in running text. *)
Lemma strip_autolink_in_text (a sch u b : str) (x : char) :
  sch = lit "http://" \/ sch = lit "https://" ->
  ~ In (chr ">") (x :: u) -> ~ In (chr "[") (x :: u) ->
  ~ In (chr "[") a -> ~ In (chr "<") a ->
  ~ In (chr "[") b ->
  ~ has_scheme (a ++ b) ->
  stripUrlsFromMarkdown (a ++ lit "<" ++ sch ++ x :: u ++ lit ">" ++ b) = trim (a ++ b).
Proof.
  intros Hs Hu Hub Ha Hal Hbb Hns.
  assert (Hb : ~ has_scheme b).
  { intros H. apply Hns. apply has_scheme_suffix. exact H. }
  destruct (later_rules_idle _ Hns) as (_ & _ & _ & R5).
  assert (HW : ~ In (chr "[") (a ++ lit "<" ++ sch ++ (x :: u) ++ lit ">" ++ b)).
  { repeat apply not_In_app; try assumption.
    - simpl. intuition discriminate.
    - apply not_In_scheme; auto.
    - simpl. intuition discriminate. }
  destruct (no_bracket_rules_idle _ HW) as (H1 & H2 & H3).
  unfold stripUrlsFromMarkdown.
  change (a ++ lit "<" ++ sch ++ x :: u ++ lit ">" ++ b)
    with (a ++ lit "<" ++ sch ++ (x :: u) ++ lit ">" ++ b).
  rewrite (replace_not_found re_image _ _ H1).
  rewrite (replace_not_found re_link _ _ H2).
  rewrite (replace_not_found re_refdef _ _ H3).
  change (a ++ lit "<" ++ sch ++ (x :: u) ++ lit ">" ++ b)
    with (a ++ lit "<" ++ sch ++ x :: u ++ lit ">" ++ b).
  rewrite (replace_angle_in_text a sch u b x Hs Hu Hal Hb).
  rewrite R5. reflexivity.
Qed.

(** X11: a URL in angle brackets in running text is cut out with its
    brackets, blanks and line breaks inside it included, and the text around
    it is kept. *)
Theorem autolink_in_text_is_cut_out (a sch u b : str) (x : char) :
  sch = lit "http://" \/ sch = lit "https://" ->
  ~ In (chr ">") (x :: u) -> ~ In (chr "[") (x :: u) ->
  ~ In (chr "[") a -> ~ In (chr "<") a ->
  ~ In (chr "[") b ->
  ~ has_scheme (a ++ b) ->
  stripUrlsFromMarkdown (a ++ lit "<" ++ sch ++ x :: u ++ lit ">" ++ b) = trim (a ++ b).
Proof. exact (strip_autolink_in_text a sch u b x). Qed.

(** A line of the shape of a reference definition is neither an image nor a
    link. *)
Lemma refdef_line_no_markup (a l tail : str) :
  ~ In (chr "[") a ->
  ~ In (chr "[") l -> ~ In (chr "]") l ->
  ~ In (chr "[") tail ->
  ~ found re_image (a ++ lit "[" ++ l ++ lit "]:" ++ tail) /\
  ~ found re_link (a ++ lit "[" ++ l ++ lit "]:" ++ tail).
Proof.
  intros Ha Hl Hr Ht.
  assert (HY : ~ In (chr "[") (l ++ chr "]" :: chr ":" :: tail)).
  { apply not_In_app; [exact Hl|]. simpl. intuition discriminate. }
  split; intros F; destruct (found_word _ _ F) as (pre & w & post & E & L).
  - destruct (lang_image_inv _ L) as (sch & x & t & u & _ & _ & Htx & ->).
    rewrite <- !app_assoc in E.
    assert (E' : (pre ++ [chr "!"]) ++
                 chr "[" :: (t ++ chr "]" :: chr "(" :: sch ++ (x :: u) ++ post) =
                 a ++ chr "[" :: (l ++ chr "]" :: chr ":" :: tail)).
    { rewrite <- app_assoc. symmetry. exact E. }
    destruct (single_occurrence _ _ _ _ _ Ha HY E') as [_ EX].
    assert (Hrt : ~ In (chr "]") t).
    { intros Hin. rewrite Forall_forall in Htx. now apply (Htx _ Hin). }
    destruct (first_occurrence_unique (chr "]") t l _ _ Hrt Hr EX) as [_ E2].
    discriminate E2.
  - destruct (lang_link_inv _ L) as (sch & x & t & u & _ & _ & Htx & ->).
    rewrite <- !app_assoc in E.
    assert (E' : pre ++
                 chr "[" :: (t ++ chr "]" :: chr "(" :: sch ++ (x :: u) ++ post) =
                 a ++ chr "[" :: (l ++ chr "]" :: chr ":" :: tail)).
    { symmetry. exact E. }
    destruct (single_occurrence _ _ _ _ _ Ha HY E') as [_ EX].
    assert (Hrt : ~ In (chr "]") t).
    { intros Hin. rewrite Forall_forall in Htx. now apply (Htx _ Hin). }
    destruct (first_occurrence_unique (chr "]") t l _ _ Hrt Hr EX) as [_ E2].
    discriminate E2.
Qed.

(** A reference definition that fills a line. *)
Lemma strip_refdef_line (a l ws sch u b : str) (y x : char) :
  sch = lit "http://" \/ sch = lit "https://" ->
  ends_line a -> starts_line_break b ->
  ~ In (chr "[") (y :: l) -> ~ In (chr "]") (y :: l) ->
  Forall (fun c => is_ws c = true) ws ->
  Forall (fun c => is_ws c = false) (x :: u) -> ~ In (chr "[") (x :: u) ->
  ~ In (chr "[") a -> ~ In (chr "[") b -> ~ In dquote b ->
  ~ has_scheme (a ++ b) ->
  stripUrlsFromMarkdown
    (a ++ lit "[" ++ (y :: l) ++ lit "]:" ++ ws ++ sch ++ x :: u ++ b) = trim (a ++ b).
Proof.
  intros Hs Hea Hsb Hll Hlr Hw Hu Hub Ha Hbb Hq Hns.
  assert (Hb : ~ has_scheme b).
  { intros H. apply Hns. apply has_scheme_suffix. exact H. }
  destruct (later_rules_idle _ Hns) as (_ & _ & R4 & R5).
  assert (Ht : ~ In (chr "[") (ws ++ sch ++ (x :: u) ++ b)).
  { repeat apply not_In_app; try assumption.
    - apply not_In_ws; [reflexivity|exact Hw].
    - apply not_In_scheme; auto. }
  destruct (refdef_line_no_markup a (y :: l) _ Ha Hll Hlr Ht) as [H1 H2].
  unfold stripUrlsFromMarkdown.
  change (a ++ lit "[" ++ (y :: l) ++ lit "]:" ++ ws ++ sch ++ x :: u ++ b)
    with (a ++ lit "[" ++ (y :: l) ++ lit "]:" ++ ws ++ sch ++ (x :: u) ++ b).
  rewrite (replace_not_found re_image _ _ H1).
  rewrite (replace_not_found re_link _ _ H2).
  change (a ++ lit "[" ++ (y :: l) ++ lit "]:" ++ ws ++ sch ++ (x :: u) ++ b)
    with (a ++ lit "[" ++ (y :: l) ++ lit "]:" ++ ws ++ sch ++ x :: u ++ b).
  rewrite (replace_refdef_in_text a l ws sch u b y x Hs Hea Hsb Hlr Hw Hu Ha Hq Hb).
  rewrite R4, R5. reflexivity.
Qed.

(** X12: a reference definition [[label]: http(s)://...] that fills a line
    is cut out, and the lines around it are kept with their line breaks. *)
Theorem reference_definition_line_is_cut_out (a l ws sch u b : str) (y x : char) :
  sch = lit "http://" \/ sch = lit "https://" ->
  ends_line a -> starts_line_break b ->
  ~ In (chr "[") (y :: l) -> ~ In (chr "]") (y :: l) ->
  Forall (fun c => is_ws c = true) ws ->
  Forall (fun c => is_ws c = false) (x :: u) -> ~ In (chr "[") (x :: u) ->
  ~ In (chr "[") a -> ~ In (chr "[") b -> ~ In dquote b ->
  ~ has_scheme (a ++ b) ->
  stripUrlsFromMarkdown
    (a ++ lit "[" ++ (y :: l) ++ lit "]:" ++ ws ++ sch ++ x :: u ++ b) = trim (a ++ b).
Proof. exact (strip_refdef_line a l ws sch u b y x). Qed.

(** A bare URL in a text without brackets. *)
Lemma strip_bare_url_in_text (a sch u b : str) (x : char) :
  sch = lit "http://" \/ sch = lit "https://" ->
  ~ has_scheme a ->
  Forall (fun y => is_ws y = false) (x :: u) ->
  (b = [] \/ exists c r, b = c :: r /\ is_ws c = true) ->
  ~ has_url b ->
  ~ In (chr "[") (a ++ sch ++ x :: u ++ b) ->
  ~ In (chr "<") (a ++ sch ++ x :: u ++ b) ->
  stripUrlsFromMarkdown (a ++ sch ++ x :: u ++ b) = trim (a ++ b).
Proof.
  intros Hs Ha Hu Hb Hnb Hbr Hlt.
  destruct (no_bracket_rules_idle _ Hbr) as (H1 & H2 & H3).
  unfold stripUrlsFromMarkdown.
  rewrite (replace_not_found re_image _ _ H1).
  rewrite (replace_not_found re_link _ _ H2).
  rewrite (replace_not_found re_refdef _ _ H3).
  rewrite (replace_not_found re_angle _ _ (no_lt_angle_idle _ Hlt)).
  rewrite (replace_bare_one_url a sch u b x Hs Ha Hu Hb Hnb). reflexivity.
Qed.

(** X13: a bare URL in a text without brackets is cut from its scheme to
    the next white space, whatever stands in between, and the text around
    it is kept. *)
Theorem bare_url_is_cut_up_to_next_blank (a sch u b : str) (x : char) :
  sch = lit "http://" \/ sch = lit "https://" ->
  ~ has_scheme a ->
  Forall (fun y => is_ws y = false) (x :: u) ->
  (b = [] \/ exists c r, b = c :: r /\ is_ws c = true) ->
  ~ has_url b ->
  ~ In (chr "[") (a ++ sch ++ x :: u ++ b) ->
  ~ In (chr "<") (a ++ sch ++ x :: u ++ b) ->
  stripUrlsFromMarkdown (a ++ sch ++ x :: u ++ b) = trim (a ++ b).
Proof. exact (strip_bare_url_in_text a sch u b x). Qed.

(** *** On given texts *)

Lemma not_In_b (c : char) (s : str) : existsb (N.eqb c) s = false -> ~ In c s.
Proof.
  intros H Hin.
  assert (Ht : existsb (N.eqb c) s = true).
  { apply existsb_exists. exists c. split; [exact Hin|apply N.eqb_refl]. }
  congruence.
Qed.

Lemma no_scheme_b (s : str) :
  occurs_b (lit "http://") s = false -> occurs_b (lit "https://") s = false ->
  ~ has_scheme s.
Proof.
  intros H1 H2 [H | H]; apply occurs_b_complete in H; congruence.
Qed.

Lemma image_in_text_becomes_its_text_witness :
  stripUrlsFromMarkdown
    (lit "see " ++ lit "![" ++ lit "the logo" ++ lit "](" ++ lit "https://" ++
     chr "x" :: lit ".example/l.png" ++
     (lit " " ++ dquote :: lit "Logo" ++ [dquote]) ++ lit ")" ++ lit " here")
  = trim (lit "see " ++ lit "the logo" ++ lit " here").
Proof.
  apply image_in_text_becomes_its_text.
  - right. reflexivity.
  - apply not_In_b. reflexivity.
  - repeat constructor.
  - apply not_In_b. reflexivity.
  - right. exists (chr " "), [], (lit "Logo").
    split; [repeat constructor|]. split; [|reflexivity].
    repeat (constructor; [discriminate|]). constructor.
  - apply not_In_b. reflexivity.
  - apply no_scheme_b; reflexivity.
Defined.

Lemma link_in_text_becomes_its_text_witness :
  stripUrlsFromMarkdown
    (lit "read " ++ lit "[" ++ lit "the docs" ++ lit "](" ++ lit "http://" ++
     chr "x" :: lit ".example/d?a=1" ++ [] ++ lit ")" ++ lit ", then stop")
  = trim (lit "read " ++ lit "the docs" ++ lit ", then stop").
Proof.
  apply link_in_text_becomes_its_text.
  - left. reflexivity.
  - apply not_In_b. reflexivity.
  - apply not_In_b. reflexivity.
  - repeat constructor.
  - apply not_In_b. reflexivity.
  - apply not_In_b. reflexivity.
  - left. reflexivity.
  - apply not_In_b. reflexivity.
  - apply not_In_b. reflexivity.
  - vm_compute. discriminate.
  - apply not_In_b. reflexivity.
  - apply no_scheme_b; reflexivity.
Defined.

Lemma autolink_in_text_is_cut_out_witness :
  stripUrlsFromMarkdown
    (lit "mail or " ++ lit "<" ++ lit "https://" ++ chr "x" :: lit ".example/a b" ++
     lit ">" ++ lit " today")
  = trim (lit "mail or " ++ lit " today").
Proof.
  apply autolink_in_text_is_cut_out.
  - right. reflexivity.
  - apply not_In_b. reflexivity.
  - apply not_In_b. reflexivity.
  - apply not_In_b. reflexivity.
  - apply not_In_b. reflexivity.
  - apply not_In_b. reflexivity.
  - apply no_scheme_b; reflexivity.
Defined.

Lemma reference_definition_line_is_cut_out_witness :
  stripUrlsFromMarkdown
    ((lit "Intro" ++ [10%N]) ++ lit "[" ++ (chr "1" :: lit "a") ++ lit "]:" ++ lit " " ++
     lit "https://" ++ chr "x" :: lit ".example/ref" ++ (10%N :: lit "Outro"))
  = trim ((lit "Intro" ++ [10%N]) ++ (10%N :: lit "Outro")).
Proof.
  apply reference_definition_line_is_cut_out.
  - right. reflexivity.
  - right. exists (lit "Intro"), 10%N. split; reflexivity.
  - right. exists 10%N, (lit "Outro"). split; reflexivity.
  - apply not_In_b. reflexivity.
  - apply not_In_b. reflexivity.
  - repeat constructor.
  - repeat constructor.
  - apply not_In_b. reflexivity.
  - apply not_In_b. reflexivity.
  - apply not_In_b. reflexivity.
  - apply not_In_b. reflexivity.
  - apply no_scheme_b; reflexivity.
Defined.

Lemma bare_url_is_cut_up_to_next_blank_witness :
  stripUrlsFromMarkdown
    (lit "go to " ++ lit "https://" ++ chr "x" :: lit ".example/a?b=1)." ++ lit " now")
  = trim (lit "go to " ++ lit " now").
Proof.
  apply bare_url_is_cut_up_to_next_blank.
  - right. reflexivity.
  - apply no_scheme_b; reflexivity.
  - repeat constructor.
  - right. exists (chr " "), (lit "now"). split; reflexivity.
  - intros H. apply has_url_scheme in H. revert H. apply no_scheme_b; reflexivity.
  - apply not_In_b. reflexivity.
  - apply not_In_b. reflexivity.
Defined.

(** ** A document of text, links and images *)

Lemma markup_shape (l0 t sch u ttl b : str) (x : char) :
  (l0 ++ t ++ lit "](" ++ (sch ++ x :: u) ++ ttl ++ lit ")") ++ b =
  l0 ++ t ++ lit "](" ++ sch ++ x :: u ++ ttl ++ lit ")" ++ b.
Proof. repeat (rewrite <- app_assoc; simpl). reflexivity. Qed.

Lemma markup_match (l0 : str) (p : option char) (t tg ttl b : str) :
  markup_ok t tg ttl ->
  exists st,
    match_at (markup l0) p ((l0 ++ t ++ lit "](" ++ tg ++ ttl ++ lit ")") ++ b) = Some st /\
    rest st = b /\ capture 1 (caps st) = t.
Proof.
  intros (_ & Htr & (sch & x & u & Hs & -> & Hu & Hup & _) & Httl & _).
  rewrite markup_shape.
  exact (match_markup_in_text l0 p sch t u ttl b x Hs
           (Forall_neq _ _ Htr) (Forall_and Hu (Forall_neq _ _ Hup)) Httl).
Qed.

Lemma markup_step (l0 : str) (p : option char) (t tg ttl b : str) :
  l0 <> [] ->
  markup_ok t tg ttl ->
  exists p',
    replace_go (markup l0) [RCap 1] 0 p ((l0 ++ t ++ lit "](" ++ tg ++ ttl ++ lit ")") ++ b) =
    t ++ replace_go (markup l0) [RCap 1] 0 p' b.
Proof.
  intros Hl Hok. destruct (markup_match l0 p t tg ttl b Hok) as (st & M & Hr & Hc).
  destruct (replace_go_match (markup l0) [RCap 1] p _ st M) as (p' & R).
  - rewrite Hr, !length_app. destruct l0; [congruence|]. simpl. lia.
  - exists p'. rewrite R, Hr. unfold expand. simpl flat_map.
    rewrite Hc, app_nil_r. reflexivity.
Qed.

(** Inside a link, and up to its end, no image begins. *)
Lemma link_holds_no_image (t tg ttl R : str) :
  markup_ok t tg ttl ->
  forall a1 c a2 q,
    lit "[" ++ t ++ lit "](" ++ tg ++ ttl ++ lit ")" = a1 ++ c :: a2 ->
    match_at re_image q (c :: a2 ++ R) = None.
Proof.
  intros (Htl & _ & (sch & x & u & Hs & -> & _ & _ & Hub) & _ & Httlb) a1 c a2 q E.
  destruct (match_at re_image q (c :: a2 ++ R)) as [st|] eqn:M; [|reflexivity].
  exfalso. destruct (match_at_sound _ _ _ _ M) as (w & Ew & L).
  destruct (lang_image_bang _ L) as (r & ->).
  simpl in Ew. inversion Ew as [[Ec Ea]]. subst c.
  assert (HK : ~ In (chr "[") (t ++ lit "](" ++ (sch ++ x :: u) ++ ttl ++ lit ")")).
  { repeat apply not_In_app; try assumption.
    - simpl. intuition discriminate.
    - apply not_In_scheme; auto.
    - simpl. intuition discriminate. }
  destruct a2 as [|c2 a2].
  - assert (EK : lit "[" ++ t ++ lit "](" ++ (sch ++ x :: u) ++ ttl ++ lit ")" =
                 (lit "[" ++ t ++ lit "](" ++ (sch ++ x :: u) ++ ttl) ++ [chr ")"]).
    { repeat (rewrite <- app_assoc; simpl). reflexivity. }
    rewrite EK in E. apply app_inj_tail in E. destruct E as [_ E]. discriminate E.
  - simpl in Ea. inversion Ea; subst c2.
    destruct a1 as [|c1 a1]; simpl in E; inversion E as [[E1 E2]].
    apply HK.
    match type of E2 with ?lhs = _ => change (In (chr "[") lhs) end.
    rewrite E2. apply in_or_app. right. simpl. auto.
Qed.

(** After an exclamation mark a well-formed document does not go on with
    an opening bracket. *)
Lemma no_bracket_after_bang :
  forall d r, well_formed_from (chr "!") d -> render d <> chr "[" :: r.
Proof.
  induction d as [|pc d IH]; intros r W E; [discriminate E|].
  destruct pc as [s|t tg ttl|a tg ttl]; cbn [well_formed_from] in W.
  - destruct W as [Hs W]. unfold render in E. cbn [flat_map render_piece] in E.
    destruct s as [|c s].
    + simpl in W, E. exact (IH r W E).
    + simpl in E. inversion E; subst c. apply Hs. left. reflexivity.
  - destruct W as [Hp _]. congruence.
  - discriminate E.
Qed.

Lemma text_holds_no_image (q : char) (s : str) (d : list piece) :
  ~ In (chr "[") s -> well_formed_from (last s q) d ->
  forall a1 c a2 p,
    s = a1 ++ c :: a2 -> match_at re_image p (c :: a2 ++ render d) = None.
Proof.
  intros Hs W a1 c a2 p E.
  destruct (match_at re_image p (c :: a2 ++ render d)) as [st|] eqn:M; [|reflexivity].
  exfalso. destruct (match_at_sound _ _ _ _ M) as (w & Ew & L).
  destruct (lang_image_bang _ L) as (r & ->).
  simpl in Ew. inversion Ew as [[Ec Ea]]. subst c.
  destruct a2 as [|c2 a2].
  - simpl in Ea. rewrite E, last_last in W.
    exact (no_bracket_after_bang d _ W Ea).
  - simpl in Ea. inversion Ea; subst c2. apply Hs. rewrite E.
    apply in_or_app. right. simpl. auto.
Qed.

Lemma image_pass :
  forall d q p,
    well_formed_from q d ->
    replace_go re_image [RCap 1] 0 p (render d) = render (map unimage d).
Proof.
  induction d as [|pc d IH]; intros q p W; [reflexivity|].
  unfold render. cbn [flat_map map]. fold (render d). fold (render (map unimage d)).
  destruct pc as [s|t tg ttl|a tg ttl]; cbn [well_formed_from] in W;
    cbn [render_piece unimage].
  - destruct W as [Hs W].
    rewrite (replace_go_prefix_idle re_image [RCap 1] s p (render d)
               (text_holds_no_image q s d Hs W)).
    rewrite (IH _ _ W). reflexivity.
  - destruct W as (_ & Hok & W).
    rewrite (replace_go_prefix_idle re_image [RCap 1] _ p (render d)
               (link_holds_no_image t tg ttl (render d) Hok)).
    rewrite (IH _ _ W). reflexivity.
  - destruct W as (Hok & W).
    destruct (markup_step (lit "![") p a tg ttl (render d) ltac:(discriminate) Hok)
      as (p' & R).
    change re_image with (markup (lit "![")). rewrite R.
    change (markup (lit "![")) with re_image. rewrite (IH _ _ W). reflexivity.
Qed.

Lemma link_pass :
  forall d p,
    Forall link_ready d ->
    replace_go re_link [RCap 1] 0 p (render d) = visible d.
Proof.
  induction d as [|pc d IH]; intros p W; [reflexivity|].
  inversion W as [|? ? Hpc Hd]; subst.
  unfold render, visible. cbn [flat_map]. fold (render d). fold (visible d).
  destruct pc as [s|t tg ttl|a tg ttl]; cbn [link_ready] in Hpc;
    cbn [render_piece visible_piece].
  - rewrite (replace_go_prefix_idle re_link [RCap 1] s p (render d)
               (prefix_idle_head re_link (chr "[") s _ lang_link_bracket Hpc)).
    rewrite (IH _ Hd). reflexivity.
  - destruct (markup_step (lit "[") p t tg ttl (render d) ltac:(discriminate) Hpc)
      as (p' & R).
    change re_link with (markup (lit "[")). rewrite R.
    change (markup (lit "[")) with re_link. rewrite (IH _ Hd). reflexivity.
  - destruct Hpc.
Qed.

Lemma unimage_link_ready :
  forall d q, well_formed_from q d -> Forall link_ready (map unimage d).
Proof.
  induction d as [|pc d IH]; intros q W; [constructor|].
  destruct pc as [s|t tg ttl|a tg ttl]; cbn [well_formed_from] in W; cbn [map unimage].
  - destruct W as [Hs W]. constructor; [exact Hs|exact (IH _ W)].
  - destruct W as (_ & Hok & W). constructor; [exact Hok|exact (IH _ W)].
  - destruct W as (Hok & W). constructor; [exact (proj1 Hok)|exact (IH _ W)].
Qed.

Lemma unimage_visible (d : list piece) : visible (map unimage d) = visible d.
Proof.
  induction d as [|pc d IH]; [reflexivity|].
  unfold visible in *. cbn [map flat_map]. rewrite IH. destruct pc; reflexivity.
Qed.

(** X14: on a markdown fragment made of running text, links and images with
    [http(s)] targets, with or without titles, the stripper returns the text
    a reader sees: every link is replaced by its text, every image by its
    alternative text, the running text is kept, and the whole is trimmed.
    The running text holds no opening bracket, no exclamation mark stands
    directly in front of a link, and the visible text holds no [http://]
    or [https://]. *)
Theorem document_is_reduced_to_its_visible_text (d : list piece) :
  well_formed d ->
  ~ has_scheme (visible d) ->
  stripUrlsFromMarkdown (render d) = trim (visible d).
Proof.
  intros W Hns. unfold stripUrlsFromMarkdown, replace.
  rewrite (image_pass d _ None W).
  rewrite (link_pass _ None (unimage_link_ready d _ W)), unimage_visible.
  destruct (later_rules_idle _ Hns) as (_ & R3 & R4 & R5). unfold replace in R3, R4, R5.
  rewrite R3, R4, R5. reflexivity.
Qed.

Lemma document_is_reduced_to_its_visible_text_witness :
  stripUrlsFromMarkdown
    (render [PText (lit "Logo: ");
             PImage (lit "our logo!") (lit "https://x.example/l.png")
                    (lit " " ++ dquote :: lit "Logo" ++ [dquote]);
             PLink (lit "the docs") (lit "http://x.example/d?a=1") [];
             PText (lit " (see ");
             PLink (lit "FAQ") (lit "https://x.example/faq") [];
             PText (lit "). ")])
  = trim (visible
            [PText (lit "Logo: ");
             PImage (lit "our logo!") (lit "https://x.example/l.png")
                    (lit " " ++ dquote :: lit "Logo" ++ [dquote]);
             PLink (lit "the docs") (lit "http://x.example/d?a=1") [];
             PText (lit " (see ");
             PLink (lit "FAQ") (lit "https://x.example/faq") [];
             PText (lit "). ")]).
Proof.
  apply document_is_reduced_to_its_visible_text.
  - unfold well_formed. cbn [well_formed_from].
    repeat split; try (apply not_In_b; reflexivity); try (vm_compute; discriminate).
    + exists (lit "https://"), (chr "x"), (lit ".example/l.png").
      split; [right; reflexivity|]. split; [reflexivity|].
      split; [repeat constructor|]. split; apply not_In_b; reflexivity.
    + right. exists (chr " "), [], (lit "Logo").
      split; [repeat constructor|]. split; [|reflexivity].
      repeat (constructor; [discriminate|]). constructor.
    + exists (lit "http://"), (chr "x"), (lit ".example/d?a=1").
      split; [left; reflexivity|]. split; [reflexivity|].
      split; [repeat constructor|]. split; apply not_In_b; reflexivity.
    + left. reflexivity.
    + exists (lit "https://"), (chr "x"), (lit ".example/faq").
      split; [right; reflexivity|]. split; [reflexivity|].
      split; [repeat constructor|]. split; apply not_In_b; reflexivity.
    + left. reflexivity.
  - apply no_scheme_b; reflexivity.
Defined.

(** ** What the stripper removes and what it keeps

    The sentences of the specification on the markup that is removed (C5)
    and the markup that is kept (C10), on top of the lemmas above. *)




(** ** A document with links to other targets *)



















(** ** The request URL, as a whole *)

(** X15: the query cannot leave the [q] parameter of the request.  For a
    query of 16-bit code units that [encodeURIComponent] accepts, the URL is
    the fixed address, [q=] with the encoded query, and the fixed
    [&count=5&result_filter=web]; the encoded query holds only letters,
    digits, the marks [- _ . ! ~ * ' ( )] and percent signs, so cutting the
    query string at [&] gives exactly the three parameters and the [q]
    parameter splits at [=] into its name and the encoded query; no [#]
    starts a fragment; the encoded query is at most nine times as long as
    the query, and a query of unescaped code units is sent as it is. *)
Theorem query_stays_inside_its_parameter (query url : str) :
  code_units query ->
  searchUrl query = Some url ->
  exists q,
    encodeURIComponent query = Some q /\
    url = lit "https://api.search.brave.com/res/v1/web/search?" ++
          lit "q=" ++ q ++ lit "&count=5&result_filter=web" /\
    Forall uri_safe q /\
    split_at (chr "&") (lit "q=" ++ q ++ lit "&count=5&result_filter=web") =
      [lit "q=" ++ q; lit "count=5"; lit "result_filter=web"] /\
    split_at (chr "=") (lit "q=" ++ q) = [lit "q"; q] /\
    ~ In (chr "#") q /\
    length q <= 9 * length query /\
    (Forall (fun c => is_uri_unescaped c = true) query -> q = query).
Proof.
  intros C H. unfold searchUrl in H.
  destruct (encodeURIComponent query) as [q|] eqn:E; [|discriminate].
  cbn [option_map] in H. inversion H; subst url. clear H.
  destruct (encode_safe query q E C) as [S L].
  assert (Hamp : ~ In (chr "&") q) by (apply uri_safe_not_In; [reflexivity|discriminate|exact S]).
  assert (Heq : ~ In (chr "=") q) by (apply uri_safe_not_In; [reflexivity|discriminate|exact S]).
  assert (Hhash : ~ In (chr "#") q) by (apply uri_safe_not_In; [reflexivity|discriminate|exact S]).
  exists q. split; [reflexivity|]. split; [reflexivity|]. split; [exact S|].
  split; [|split; [|split; [exact Hhash|split; [exact L|]]]].
  - change (lit "q=" ++ q ++ lit "&count=5&result_filter=web")
      with ((lit "q=" ++ q) ++ chr "&" :: lit "count=5" ++ chr "&" :: lit "result_filter=web").
    rewrite split_at_front.
    + rewrite split_at_front by (simpl; intuition discriminate).
      rewrite split_at_none by (simpl; intuition discriminate). reflexivity.
    + intros Hin. apply in_app_or in Hin. destruct Hin as [Hin | Hin]; [|tauto].
      simpl in Hin. intuition discriminate.
  - change (lit "q=" ++ q) with (lit "q" ++ chr "=" :: q).
    rewrite split_at_front by (simpl; intuition discriminate).
    rewrite (split_at_none _ q Heq). reflexivity.
  - intros Hu. rewrite (encode_plain query Hu) in E. inversion E. reflexivity.
Qed.

Lemma query_stays_inside_its_parameter_witness :
  exists q,
    encodeURIComponent (lit "caf" ++ [233%N] ++ lit " & tea#1") = Some q /\
    lit "https://api.search.brave.com/res/v1/web/search?q=caf%C3%A9%20%26%20tea%231&count=5&result_filter=web" =
      lit "https://api.search.brave.com/res/v1/web/search?" ++
      lit "q=" ++ q ++ lit "&count=5&result_filter=web" /\
    Forall uri_safe q /\
    split_at (chr "&") (lit "q=" ++ q ++ lit "&count=5&result_filter=web") =
      [lit "q=" ++ q; lit "count=5"; lit "result_filter=web"] /\
    split_at (chr "=") (lit "q=" ++ q) = [lit "q"; q] /\
    ~ In (chr "#") q /\
    length q <= 9 * length (lit "caf" ++ [233%N] ++ lit " & tea#1") /\
    (Forall (fun c => is_uri_unescaped c = true) (lit "caf" ++ [233%N] ++ lit " & tea#1") ->
     q = lit "caf" ++ [233%N] ++ lit " & tea#1").
Proof.
  apply query_stays_inside_its_parameter.
  - repeat (constructor; [reflexivity|]). constructor.
  - vm_compute. reflexivity.
Defined.

(** X16: the request is not made exactly when the query holds a surrogate
    without its partner, a leading one that no trailing one follows or a
    trailing one that no leading one precedes: [encodeURIComponent] then
    throws, and it throws for no other query. *)
Theorem lone_surrogate_stops_the_request (query : str) :
  searchUrl query = None <-> lone_surrogate query.
Proof.
  unfold searchUrl, lone_surrogate. rewrite option_map_None.
  apply (encode_fails_from (length query)); [apply le_n|reflexivity].
Qed.

(** X17: the request URL determines the query: two different queries of
    16-bit code units never give the same URL. *)
Theorem different_queries_different_urls (q1 q2 u1 u2 : str) :
  code_units q1 -> code_units q2 ->
  searchUrl q1 = Some u1 -> searchUrl q2 = Some u2 ->
  q1 <> q2 -> u1 <> u2.
Proof.
  intros C1 C2 H1 H2 Hne Hu. apply Hne. subst u2.
  unfold searchUrl in H1, H2.
  destruct (encodeURIComponent q1) as [e1|] eqn:E1; [|discriminate].
  destruct (encodeURIComponent q2) as [e2|] eqn:E2; [|discriminate].
  cbn [option_map] in H1, H2. rewrite <- H1 in H2. inversion H2 as [E].
  apply app_inv_tail in E. subst e2.
  exact (encode_inj q1 e1 E1 q2 C1 C2 E2).
Qed.

Lemma different_queries_different_urls_witness :
  lit "https://api.search.brave.com/res/v1/web/search?q=a%20b&count=5&result_filter=web" <>
  lit "https://api.search.brave.com/res/v1/web/search?q=a%2Bb&count=5&result_filter=web".
Proof.
  apply (different_queries_different_urls (lit "a b") (lit "a+b")).
  - repeat (constructor; [reflexivity|]). constructor.
  - repeat (constructor; [reflexivity|]). constructor.
  - vm_compute. reflexivity.
  - vm_compute. reflexivity.
  - discriminate.
Defined.
